(** * Trinity segment merge: [MergeCandidatesCollection] (merge.cpp)

    A shallow embedding of [commit], [scanner_registry_for], [merge] and
    [consider_tracked_sources], and of [term_hits::set_freq] (matches.h),
    and the properties of the merge core that are checked against it.  The embedding comes first, with a reference
    instance of the collaborators the source only declares; then the
    vocabulary in which the properties are stated; then the properties.

    Conventions.
    - Every integer of the source is unsigned; it is an [N], and the
      wrap-around of the narrow counters is written out ([uint8_t
      toAdvanceCnt] counts modulo 256).  The result of [terms_cmp] is a
      signed [Z].
    - A C array is a list read and written by index; an access outside
      the array is [Undefined].
    - [require(...)] aborts the process: [Aborted].
    - Every candidate owns its term iterator: [terms->next()] on one
      working-set entry changes that entry only. *)

From stdpp Require Import base numbers list strings gmap.
From Stdlib Require Import Sorted.
From Stdlib Require OrderedTypeEx.

Local Open Scope N_scope.

(** ** Outcomes of fallible code *)

Inductive outcome (A : Type) : Type :=
  | Ret (a : A)      (* normal completion *)
  | Aborted          (* a [require] failed *)
  | Undefined        (* out-of-bounds access or use of a null pointer *)
  | OutOfFuel.       (* the loop bound of the model was too small *)
Arguments Ret {A} a.
Arguments Aborted {A}.
Arguments Undefined {A}.
Arguments OutOfFuel {A}.

Global Instance Ret_inj {A} : Inj (=) (=) (@Ret A).
Proof. by intros a b [= ->]. Qed.

Global Instance outcome_ret : MRet outcome := fun A a => Ret a.
Global Instance outcome_bind : MBind outcome := fun A B k m =>
  match m with
  | Ret a => k a
  | Aborted => Aborted
  | Undefined => Undefined
  | OutOfFuel => OutOfFuel
  end.

Definition require (b : bool) : outcome unit :=
  if b then Ret () else Aborted.

Definition defined {A} (o : option A) : outcome A :=
  match o with Some a => Ret a | None => Undefined end.

(** [a[i]] and [a[i] = x] on a C array. *)
Definition array_get {A} (a : list A) (i : N) : outcome A :=
  defined (a !! N.to_nat i).

Definition array_set {A} (a : list A) (i : N) (x : A) : outcome (list A) :=
  if decide (N.to_nat i < length a)%nat
  then Ret (<[N.to_nat i := x]> a) else Undefined.

(** [memmove(a + idx, a + idx + 1, (rem - idx) * sizeof(a[0]))] after
    [--rem], on the live prefix [a[0 .. rem]] of an array. *)
Definition array_remove {A} (a : list A) (idx : N) : list A :=
  delete (N.to_nat idx) a.

(** ** Data model *)

Definition docid_t := N.
Definition str8_t := string.
Definition codec_id := string.
Definition range32_t : Type := N * N.

Record term_index_ctx := {
  documents : N;          (* uint32_t *)
  chunk : range32_t
}.

Record term_hit := {
  pos : N;
  payload : N;            (* uint64_t *)
  payloadLen : N          (* uint8_t *)
}.

(** Modelled from the spec: [Codecs::Decoder] is declared outside src/.
    A decoder is positioned on [curDocument] and holds the documents that
    [next()] will still produce; [materialize_hits] yields the [freq] hits
    of the current document, so [freq] is the number of its hits. *)
Record document := {
  doc_id : docid_t;
  doc_hits : list term_hit
}.

Definition doc_freq (d : document) : N := N.of_nat (length (doc_hits d)).

Record Decoder := {
  curDocument : document;
  pending : list document
}.

(** [dec->next()]: [None] is the [false] result. *)
Definition next (dec : Decoder) : option Decoder :=
  match pending dec with
  | [] => None
  | d :: ds => Some {| curDocument := d; pending := ds |}
  end.

(** The documents a decoder produces from its current position on. *)
Definition decoder_documents (dec : Decoder) : list document :=
  curDocument dec :: pending dec.

(** Modelled from the spec: [Codecs::AccessProxy] is declared outside
    src/.  [new_decoder] stands for [ap->new_decoder(ctx)] followed by
    [dec->begin()], which positions the decoder at the first document. *)
Record AccessProxy := {
  codec_identifier : codec_id;
  new_decoder : term_index_ctx -> Decoder
}.

(** Modelled from the spec: [IndexSourceTermsView] is declared outside
    src/.  The iterator is the list of the (term, context) pairs it has
    not passed yet: [cur()] is its head, [next()] drops the head and
    [done()] holds when nothing is left. *)
Definition IndexSourceTermsView : Type := list (str8_t * term_index_ctx).

Definition done (it : IndexSourceTermsView) : bool :=
  match it with [] => true | _ => false end.

Definition cur (it : IndexSourceTermsView) : option (str8_t * term_index_ctx) :=
  head it.

(** Modelled from the spec: [updated_documents] and
    [masked_documents_registry] are declared outside src/.  A mask is the
    set of the document ids it suppresses, [if (ud)] holds for a non-empty
    mask, and a registry is a view of a prefix of mask sets whose [test]
    is membership in one of them and whose [empty()] holds when the prefix
    has no mask set. *)
Definition updated_documents : Type := list docid_t.

Definition ud_bool (ud : updated_documents) : bool :=
  match ud with [] => false | _ => true end.

Definition ud_test (ud : updated_documents) (d : docid_t) : bool :=
  existsb (N.eqb d) ud.

Definition masked_documents_registry : Type := list updated_documents.

Definition registry_make (all : list updated_documents) (n : N)
  : masked_documents_registry :=
  take (N.to_nat n) all.

Definition registry_test (reg : masked_documents_registry) (d : docid_t) : bool :=
  existsb (fun ud => ud_test ud d) reg.

Definition registry_empty (reg : masked_documents_registry) : bool :=
  match reg with [] => true | _ => false end.

Record merge_candidate := {
  gen : N;                                  (* uint64_t *)
  terms : option IndexSourceTermsView;      (* may be null *)
  ap : option AccessProxy;                  (* may be null *)
  maskedDocuments : updated_documents
}.

Record MergeCandidatesCollection := {
  candidates : list merge_candidate;
  mcc_map : list (merge_candidate * N);
  mcc_all : list updated_documents
}.

(** ** commit and scanner_registry_for *)

(** [std::sort] with [b.gen < a.gen]: descending generations.  The sort
    is written as an insertion sort; when the generations are distinct
    every sort gives the same sequence. *)
Fixpoint insert_desc (c : merge_candidate) (l : list merge_candidate)
  : list merge_candidate :=
  match l with
  | [] => [c]
  | x :: xs => if gen x <? gen c then c :: x :: xs else x :: insert_desc c xs
  end.

Definition sort_desc (l : list merge_candidate) : list merge_candidate :=
  foldr insert_desc [] l.

(** The loop of [commit]: [map.push_back({c, all.size()})], then
    [all.push_back(ud)] when [ud] is set. *)
Definition commit_step (acc : list (merge_candidate * N) * list updated_documents)
    (c : merge_candidate) : list (merge_candidate * N) * list updated_documents :=
  let '(map, all) := acc in
  (map ++ [(c, N.of_nat (length all))],
   if ud_bool (maskedDocuments c) then all ++ [maskedDocuments c] else all).

Definition commit (coll : MergeCandidatesCollection) : MergeCandidatesCollection :=
  let cs := sort_desc (candidates coll) in
  let '(map, all) := foldl commit_step ([], []) cs in
  {| candidates := cs; mcc_map := map; mcc_all := all |}.

Definition scanner_registry_for (coll : MergeCandidatesCollection) (idx : N)
  : outcome masked_documents_registry :=
  e ← array_get (mcc_map coll) idx;
  mret (registry_make (mcc_all coll) e.2).

(** ** The output session *)

Record merge_participant := {
  mp_ap : AccessProxy;
  mp_tctx : term_index_ctx;
  mp_maskedDocsReg : masked_documents_registry
}.

(** [Codecs::IndexSession] and the [Codecs::Encoder] it creates are
    interfaces declared outside src/; [merge] is generic in them.  [Sess]
    is the state of the session together with its encoder. *)
Class IndexSession (Sess : Type) := {
  is_codec_identifier : Sess -> codec_id;
  new_encoder : Sess -> Sess;
  append_index_chunk : AccessProxy -> term_index_ctx -> Sess -> Sess * range32_t;
  is_merge : list merge_participant -> Sess -> Sess;
  indexOut_size : Sess -> N;
  begin_term : Sess -> Sess;
  begin_document : docid_t -> Sess -> Sess;
  new_hit : N -> N * N -> Sess -> Sess;
  end_document : Sess -> Sess;
  end_term : Sess -> Sess * term_index_ctx
}.

Record tracked_candidate := {
  idx : N;                                  (* uint16_t *)
  candidate : merge_candidate
}.

(** The test of line 61: the iterator is set and not exhausted, and the
    postings accessor is set. *)
Definition is_active (c : merge_candidate) : bool :=
  match terms c, ap c with
  | Some it, Some _ => negb (done it)
  | _, _ => false
  end.

(** The loop at the head of [merge]; [prev] is [candidates[i - 1]], absent
    when [i] is 0. *)
Fixpoint collect_candidates (i : N) (prev : option merge_candidate)
    (cs : list merge_candidate) (all_ : list tracked_candidate)
  : outcome (list tracked_candidate) :=
  match cs with
  | [] => mret all_
  | c :: cs' =>
      require (match prev with Some p => gen c <? gen p | None => true end);;
      collect_candidates (i + 1) (Some c) cs'
        (if is_active c then all_ ++ [{| idx := i; candidate := c |}] else all_)
  end.

Definition candidate_cur (tc : tracked_candidate) : outcome (str8_t * term_index_ctx) :=
  it ← defined (terms (candidate tc));
  defined (cur it).

Definition candidate_ap (tc : tracked_candidate) : outcome AccessProxy :=
  defined (ap (candidate tc)).

(** ** Selection of the minimum term (lines 91-123) *)

Record selection := {
  toAdvanceCnt : N;                         (* uint8_t *)
  toAdvance : list N;                       (* uint16_t toAdvance[rem] *)
  selected : str8_t * term_index_ctx;
  codec : codec_id;
  sameCODEC : bool
}.

(** The hit buffer: [termHitsCapacity] grows to [freq + 128] when a
    document has more hits than it holds. *)
Definition grow_storage (termHitsCapacity freq : N) : N :=
  if termHitsCapacity <? freq then freq + 128 else termHitsCapacity.

Definition emit_document (masked : bool) (d : document)
    (acc : N * list document) : N * list document :=
  if masked then acc else (grow_storage acc.1 (doc_freq d), acc.2 ++ [d]).

(** [--toAdvanceCnt] on a [uint8_t] and on a [uint16_t]. *)
Definition dec8 (n : N) : N := (n + 255) mod 256.
Definition dec16 (n : N) : N := (n + 65535) mod 65536.

Section Merge.
Context {Sess : Type} `{IndexSession Sess}.
(** [terms_cmp] and [MaxDocIDValue] are declared outside src/. *)
Variable terms_cmp : str8_t -> str8_t -> Z.
Variable MaxDocIDValue : docid_t.

Definition select_step (i : N) (tc : tracked_candidate) (sel : selection)
  : outcome selection :=
  pair ← candidate_cur tc;
  let r := terms_cmp pair.1 (selected sel).1 in
  if (r <? 0)%Z then
    a ← candidate_ap tc;
    ta ← array_set (toAdvance sel) 0 i;
    mret {| toAdvanceCnt := 1; toAdvance := ta; selected := pair;
            codec := codec_identifier a; sameCODEC := true |}
  else if (r =? 0)%Z then
    same ← (if sameCODEC sel
            then a ← candidate_ap tc;
                 mret (String.eqb (codec_identifier a) (codec sel))
            else mret false);
    ta ← array_set (toAdvance sel) (toAdvanceCnt sel) i;
    mret {| toAdvanceCnt := (toAdvanceCnt sel + 1) mod 256; toAdvance := ta;
            selected := selected sel; codec := codec sel; sameCODEC := same |}
  else mret sel.

Fixpoint select_loop (i : N) (rest : list tracked_candidate) (sel : selection)
  : outcome selection :=
  match rest with
  | [] => mret sel
  | tc :: rest' => sel' ← select_step i tc sel; select_loop (i + 1) rest' sel'
  end.

Definition select (all : list tracked_candidate) (toAdvance0 : list N)
  : outcome selection :=
  tc ← array_get all 0;
  pair ← candidate_cur tc;
  a ← candidate_ap tc;
  ta ← array_set toAdvance0 0 0;
  select_loop 1 (drop 1 all)
    {| toAdvanceCnt := 1; toAdvance := ta; selected := pair;
       codec := codec_identifier a; sameCODEC := true |}.

(** ** Single candidate, re-encoding (lines 172-207)

    The [do ... while (dec->next())] loop; it returns the buffer
    capacity and the documents handed to the encoder, in order. *)
Fixpoint reencode (reg : masked_documents_registry) (d : document)
    (pend : list document) (acc : N * list document)
  : outcome (N * list document) :=
  require (negb (doc_id d =? MaxDocIDValue));;
  let acc := emit_document (registry_test reg (doc_id d)) d acc in
  match pend with
  | [] => mret acc
  | d' :: pend' => reencode reg d' pend' acc
  end.

(** ** Several candidates, mixed codecs (lines 283-359) *)

Definition decoder_entry : Type := Decoder * masked_documents_registry.

(** Lines 297-309; the state is [(toAdvanceCnt, toAdvance, lowestDID)],
    with a [uint16_t] counter. *)
Fixpoint lowest_loop (i : N) (rest : list decoder_entry)
    (st : N * list N * docid_t) : outcome (N * list N * docid_t) :=
  match rest with
  | [] => mret st
  | e :: rest' =>
      let '(cnt, ta, lowestDID) := st in
      let id := doc_id (curDocument e.1) in
      if id <? lowestDID then
        ta ← array_set ta 0 i;
        lowest_loop (i + 1) rest' (1, ta, id)
      else if id =? lowestDID then
        ta ← array_set ta cnt i;
        lowest_loop (i + 1) rest' ((cnt + 1) mod 65536, ta, lowestDID)
      else lowest_loop (i + 1) rest' st
  end.

(** Lines 343-358 from the slot [k] reached by [--toAdvanceCnt] down to
    slot 0; [None] is the jump to [l10] taken when no decoder is left. *)
Fixpoint advance_decoders (k : nat) (ta : list N) (decoders : list decoder_entry)
  : outcome (option (list decoder_entry)) :=
  i ← defined (ta !! k);
  e ← array_get decoders i;
  r ← match next e.1 with
      | Some dec' =>
          decoders' ← array_set decoders i (dec', e.2); mret (Some decoders')
      | None =>
          if decide (length decoders = 1%nat) then mret None
          else mret (Some (array_remove decoders i))
      end;
  match r, k with
  | None, _ => mret None
  | Some decoders', O => mret (Some decoders')
  | Some decoders', S k' => advance_decoders k' ta decoders'
  end.

(** One iteration of the [for (;;)] of lines 291-359: the state of
    [toAdvance] and of the encoder after it, and the decoders left. *)
Definition decoders_step (decoders : list decoder_entry) (ta : list N)
    (acc : N * list document)
  : outcome (list N * (N * list document) * option (list decoder_entry)) :=
  e0 ← array_get decoders 0;
  ta ← array_set ta 0 0;
  '(cnt, ta, lowestDID) ←
    lowest_loop 1 (drop 1 decoders) (1, ta, doc_id (curDocument e0.1));
  first ← array_get ta 0;
  e ← array_get decoders first;
  let acc := emit_document (registry_test e.2 lowestDID)
               {| doc_id := lowestDID; doc_hits := doc_hits (curDocument e.1) |}
               acc in
  r ← advance_decoders (N.to_nat (dec16 cnt)) ta decoders;
  mret (ta, acc, r).

Fixpoint merge_decoders (fuel : nat) (decoders : list decoder_entry)
    (ta : list N) (acc : N * list document) : outcome (N * list document) :=
  match fuel with
  | O => OutOfFuel
  | S fuel' =>
      '(ta, acc, r) ← decoders_step decoders ta acc;
      match r with
      | None => mret acc
      | Some decoders' => merge_decoders fuel' decoders' ta acc
      end
  end.

(** Every iteration passes at least one of the documents the decoders
    still hold. *)
Definition decoders_fuel (decoders : list decoder_entry) : nat :=
  sum_list (map (fun e : decoder_entry => length (decoder_documents e.1)) decoders).

(** ** One term group (lines 125-369) *)

Record merge_locals := {
  sess : Sess;
  termHitsCapacity : N;
  terms_out : list (str8_t * term_index_ctx)   (* the sink [terms] *)
}.

(** [begin_document], [new_hit] for each materialized hit, [end_document]. *)
Definition encode_document (s : Sess) (d : document) : Sess :=
  end_document
    (foldl (fun s th => new_hit (pos th) (payload th, payloadLen th) s)
       (begin_document (doc_id d) s) (doc_hits d)).

Definition encode_documents (docs : list document) (s : Sess) : Sess :=
  foldl encode_document s docs.

(** [if (tctx.documents) terms->push_back({outTerm, tctx})]. *)
Definition push_term (outTerm : str8_t) (tctx : term_index_ctx)
    (out : list (str8_t * term_index_ctx)) : list (str8_t * term_index_ctx) :=
  if documents tctx =? 0 then out else out ++ [(outTerm, tctx)].

(** Lines 231-246: slots [i .. i + n) of [toAdvance]. *)
Fixpoint merge_participants (coll : MergeCandidatesCollection)
    (all : list tracked_candidate) (ta : list N) (i n : nat)
    (acc : list merge_participant) : outcome (list merge_participant) :=
  match n with
  | O => mret acc
  | S n' =>
      j ← defined (ta !! i);
      tc ← array_get all j;
      pair ← candidate_cur tc;
      if documents pair.2 =? 0 then merge_participants coll all ta (S i) n' acc
      else
        a ← candidate_ap tc;
        reg ← scanner_registry_for coll (idx tc);
        merge_participants coll all ta (S i) n'
          (acc ++ [{| mp_ap := a; mp_tctx := pair.2; mp_maskedDocsReg := reg |}])
  end.

(** Lines 264-281.  [require(reg)] does not fire: [make] returns a
    registry, the view of a prefix, also for a prefix of no mask set. *)
Fixpoint new_decoders (coll : MergeCandidatesCollection)
    (all : list tracked_candidate) (ta : list N) (i n : nat)
    (decodersV : list decoder_entry) : outcome (list decoder_entry) :=
  match n with
  | O => mret decodersV
  | S n' =>
      j ← defined (ta !! i);
      tc ← array_get all j;
      pair ← candidate_cur tc;
      if documents pair.2 =? 0 then new_decoders coll all ta (S i) n' decodersV
      else
        a ← candidate_ap tc;
        reg ← scanner_registry_for coll (idx tc);
        new_decoders coll all ta (S i) n' (decodersV ++ [(new_decoder a pair.2, reg)])
  end.

(** [uint16_t toAdvance[128]] of the inner merge, not yet written. *)
Definition inner_toAdvance : list N := replicate 128 0.

Definition merge_group (coll : MergeCandidatesCollection) (isCODEC : codec_id)
    (all : list tracked_candidate) (sel : selection) (st : merge_locals)
  : outcome merge_locals :=
  let outTerm := (selected sel).1 in
  let fastPath := sameCODEC sel && String.eqb (codec sel) isCODEC in
  if toAdvanceCnt sel =? 1 then
    i0 ← array_get (toAdvance sel) 0;
    tc ← array_get all i0;
    maskedDocsReg ← scanner_registry_for coll (idx tc);
    if fastPath && registry_empty maskedDocsReg then
      if documents (selected sel).2 =? 0 then mret st
      else
        a ← candidate_ap tc;
        let '(s, chunk) := append_index_chunk a (selected sel).2 (sess st) in
        mret {| sess := s; termHitsCapacity := termHitsCapacity st;
                terms_out := terms_out st ++
                  [(outTerm, {| documents := documents (selected sel).2;
                                chunk := chunk |})] |}
    else
      if documents (selected sel).2 =? 0 then mret st
      else
        a ← candidate_ap tc;
        let dec := new_decoder a (selected sel).2 in
        let s := begin_term (sess st) in
        '(cap, docs) ← reencode maskedDocsReg (curDocument dec) (pending dec)
                         (termHitsCapacity st, []);
        let '(s, tctx) := end_term (encode_documents docs s) in
        mret {| sess := s; termHitsCapacity := cap;
                terms_out := push_term outTerm tctx (terms_out st) |}
  else if fastPath then
    mergeParticipants ←
      merge_participants coll all (toAdvance sel) 0 (N.to_nat (toAdvanceCnt sel)) [];
    match mergeParticipants with
    | [] => mret st
    | _ =>
        let s := begin_term (sess st) in
        let s := is_merge mergeParticipants s in
        let '(s, tctx) := end_term s in
        mret {| sess := s; termHitsCapacity := termHitsCapacity st;
                terms_out := push_term outTerm tctx (terms_out st) |}
    end
  else
    decodersV ←
      new_decoders coll all (toAdvance sel) 0 (N.to_nat (toAdvanceCnt sel)) [];
    match decodersV with
    | [] => mret st
    | _ =>
        require (N.of_nat (length decodersV) <=? 128);;
        let s := begin_term (sess st) in
        '(cap, docs) ← merge_decoders (S (decoders_fuel decodersV)) decodersV
                         inner_toAdvance (termHitsCapacity st, []);
        let '(s, tctx) := end_term (encode_documents docs s) in
        mret {| sess := s; termHitsCapacity := cap;
                terms_out := push_term outTerm tctx (terms_out st) |}
    end.

(** Lines 371-374: the branch is empty. *)
Definition flush_hint (flushFreq : N) (st : merge_locals) : merge_locals :=
  if negb (flushFreq =? 0) && (flushFreq <? indexOut_size (sess st))
  then st else st.

(** ** Advancing the selected candidates (lines 376-389)

    From the slot [k] reached by [--toAdvanceCnt] down to slot 0;
    [None] is the jump to [l1] taken when the working set is empty. *)
Definition advance_candidate (tc : tracked_candidate) (it : IndexSourceTermsView)
  : tracked_candidate :=
  {| idx := idx tc;
     candidate := {| gen := gen (candidate tc); terms := Some it;
                     ap := ap (candidate tc);
                     maskedDocuments := maskedDocuments (candidate tc) |} |}.

Fixpoint advance_terms (k : nat) (ta : list N) (all : list tracked_candidate)
  : outcome (option (list tracked_candidate)) :=
  i ← defined (ta !! k);
  tc ← array_get all i;
  it ← defined (terms (candidate tc));
  r ← match it with
      | [] => Undefined
      | _ :: it' =>
          if done it' then
            if decide (length all = 1%nat) then mret None
            else mret (Some (array_remove all i))
          else
            all' ← array_set all i (advance_candidate tc it'); mret (Some all')
      end;
  match r, k with
  | None, _ => mret None
  | Some all', O => mret (Some all')
  | Some all', S k' => advance_terms k' ta all'
  end.

(** ** The outer loop and [merge] *)

(** One iteration of the [for (;;)] of lines 89-390. *)
Definition merge_step (coll : MergeCandidatesCollection) (isCODEC : codec_id)
    (flushFreq : N) (all : list tracked_candidate) (ta : list N)
    (st : merge_locals)
  : outcome (list N * merge_locals * option (list tracked_candidate)) :=
  sel ← select all ta;
  st ← merge_group coll isCODEC all sel st;
  let st := flush_hint flushFreq st in
  r ← advance_terms (N.to_nat (dec8 (toAdvanceCnt sel))) (toAdvance sel) all;
  mret (toAdvance sel, st, r).

Fixpoint merge_loop (fuel : nat) (coll : MergeCandidatesCollection)
    (isCODEC : codec_id) (flushFreq : N) (all : list tracked_candidate)
    (ta : list N) (st : merge_locals) : outcome merge_locals :=
  match fuel with
  | O => OutOfFuel
  | S fuel' =>
      '(ta, st, r) ← merge_step coll isCODEC flushFreq all ta st;
      match r with
      | None => mret st
      | Some all' => merge_loop fuel' coll isCODEC flushFreq all' ta st
      end
  end.

(** Every iteration passes at least one term of one iterator. *)
Definition terms_left (tc : tracked_candidate) : nat :=
  match terms (candidate tc) with Some it => length it | None => O end.

Definition merge_fuel (all : list tracked_candidate) : nat :=
  sum_list (map terms_left all).

Definition merge (coll : MergeCandidatesCollection) (session : Sess)
    (terms0 : list (str8_t * term_index_ctx)) (flushFreq : N)
  : outcome (Sess * list (str8_t * term_index_ctx)) :=
  require (N.of_nat (length (candidates coll)) <? 65535);;
  all_ ← collect_candidates 0 None (candidates coll) [];
  match all_ with
  | [] => mret (session, terms0)
  | _ =>
      let isCODEC := is_codec_identifier session in
      let enc := new_encoder session in
      st ← merge_loop (S (merge_fuel all_)) coll isCODEC flushFreq all_
             (replicate (length all_) 0)
             {| sess := enc; termHitsCapacity := 0; terms_out := terms0 |};
      mret (sess st, terms_out st)
  end.
End Merge.

(** ** consider_tracked_sources (lines 394-426) *)

Module IndexSourceRetention.
Inductive t :=
  | RetainAll
  | RetainDocumentIDsUpdates
  | Delete.
End IndexSourceRetention.

Definition UINT32_MAX : N := 4294967295.

(** [std::sort] of the tracked generations, ascending. *)
Fixpoint insert_asc (g : N) (l : list N) : list N :=
  match l with
  | [] => [g]
  | x :: xs => if g <? x then g :: x :: xs else x :: insert_asc g xs
  end.

Definition sort_asc (l : list N) : list N := foldr insert_asc [] l.

(** [std::set<uint64_t> candidatesGens]. *)
Definition candidatesGens_of (cs : list merge_candidate) : gset N :=
  foldl (fun s c => {[ gen c ]} ∪ s) ∅ cs.

(** The loop of lines 406-423, with its [uint32_t] counter [i] and the
    [size_t] bound [cnt]. *)
Fixpoint tracked_loop (fuel : nat) (cnt i : N) (trackedSources : list N)
    (candidatesGens : gset N) (lastNotCandidateIdx : N)
    (res : list (N * IndexSourceRetention.t))
  : outcome (list (N * IndexSourceRetention.t)) :=
  match fuel with
  | O => OutOfFuel
  | S fuel' =>
      if i =? cnt then mret res
      else
        gen ← array_get trackedSources i;
        let i' := (i + 1) mod 4294967296 in
        if negb (bool_decide (gen ∈ candidatesGens)) then
          tracked_loop fuel' cnt i' trackedSources candidatesGens i
            (res ++ [(gen, IndexSourceRetention.RetainAll)])
        else if lastNotCandidateIdx <? i then
          tracked_loop fuel' cnt i' trackedSources candidatesGens lastNotCandidateIdx
            (res ++ [(gen, IndexSourceRetention.RetainDocumentIDsUpdates)])
        else
          tracked_loop fuel' cnt i' trackedSources candidatesGens lastNotCandidateIdx
            (res ++ [(gen, IndexSourceRetention.Delete)])
  end.

Definition consider_tracked_sources (coll : MergeCandidatesCollection)
    (trackedSources : list N) : outcome (list (N * IndexSourceRetention.t)) :=
  let cnt := N.of_nat (length trackedSources) in
  let trackedSources := sort_asc trackedSources in
  let candidatesGens := candidatesGens_of (candidates coll) in
  tracked_loop (S (length trackedSources)) cnt 0 trackedSources candidatesGens
    UINT32_MAX [].

(** ** [term_hits] (lines 601-632)

    The hits of one term in the current document.  [tokenpos_t] and
    [term_hit] are declared outside src/: [tokenpos_t] is taken as an
    unsigned integer type, of any width, and the buffer [all] is modelled
    by the number of [term_hit] slots of the block it points to, absent
    when the pointer is null.  [std::malloc] is taken to succeed.
    [allCapacity = newFreq + 32] is an assignment to a [uint16_t]: the sum
    is reduced modulo 2^16, whatever the width it is computed at. *)
Record term_hits := {
  th_freq : N;                              (* tokenpos_t freq *)
  th_all : option N;                        (* term_hit *all *)
  allCapacity : N;                          (* uint16_t *)
  docSeq : N                                (* uint16_t *)
}.

Definition set_freq (newFreq : N) (h : term_hits) : term_hits :=
  if allCapacity h <? newFreq then
    let allCapacity' := (newFreq + 32) mod 65536 in
    {| th_freq := newFreq; th_all := Some allCapacity';
       allCapacity := allCapacity'; docSeq := docSeq h |}
  else
    {| th_freq := newFreq; th_all := th_all h;
       allCapacity := allCapacity h; docSeq := docSeq h |}.

(** A [term_hits] as its default member initializers leave it: [all] is
    null and [allCapacity] is 0; [freq] and [docSeq] have no initializer. *)
Definition term_hits_new (freq docSeq : N) : term_hits :=
  {| th_freq := freq; th_all := None; allCapacity := 0; docSeq := docSeq |}.

(** ** A reference instance of the collaborators

    Modelled from the spec: the codecs, [terms_cmp] and [MaxDocIDValue] are
    declared outside src/.  The reference session keeps the postings it is
    asked to write, one list of documents per chunk; its [end_term] reports
    the number of documents encoded since [begin_term], its
    [append_index_chunk] copies the postings of the chunk, and its bulk
    merge keeps, for every document id, the occurrence of the first
    participant that holds it, unless that participant's registry masks it.
    The order of terms is the byte-wise lexicographic one. *)

Record ref_session := {
  rs_codec : codec_id;
  rs_doc : option document;         (* the document being encoded *)
  rs_term : list document;          (* the documents of the term being encoded *)
  rs_index : list (list document)   (* the postings lists written so far *)
}.

Definition ref_participant_decoder (p : merge_participant) : decoder_entry :=
  (new_decoder (mp_ap p) (mp_tctx p), mp_maskedDocsReg p).

Definition ref_bulk_merge (ps : list merge_participant) : list document :=
  let decoders := ref_participant_decoder <$> ps in
  match merge_decoders (S (decoders_fuel decoders)) decoders
          (replicate (length decoders) 0) (0, []) with
  | Ret r => r.2
  | _ => []
  end.

Global Instance ref_IndexSession : IndexSession ref_session := {|
  is_codec_identifier s := rs_codec s;
  new_encoder s := s;
  append_index_chunk a ctx s :=
    let docs := decoder_documents (new_decoder a ctx) in
    ({| rs_codec := rs_codec s; rs_doc := None; rs_term := rs_term s;
        rs_index := rs_index s ++ [docs] |},
     (N.of_nat (length (rs_index s)), N.of_nat (length docs)));
  is_merge ps s :=
    {| rs_codec := rs_codec s; rs_doc := None;
       rs_term := rs_term s ++ ref_bulk_merge ps; rs_index := rs_index s |};
  indexOut_size s := N.of_nat (sum_list (length <$> rs_index s));
  begin_term s :=
    {| rs_codec := rs_codec s; rs_doc := None; rs_term := [];
       rs_index := rs_index s |};
  begin_document d s :=
    {| rs_codec := rs_codec s; rs_doc := Some {| doc_id := d; doc_hits := [] |};
       rs_term := rs_term s; rs_index := rs_index s |};
  new_hit p pl s :=
    {| rs_codec := rs_codec s;
       rs_doc := (fun d => {| doc_id := doc_id d;
                              doc_hits := doc_hits d ++
                                [{| pos := p; payload := pl.1; payloadLen := pl.2 |}] |})
                 <$> rs_doc s;
       rs_term := rs_term s; rs_index := rs_index s |};
  end_document s :=
    {| rs_codec := rs_codec s; rs_doc := None;
       rs_term := rs_term s ++ from_option (fun d => [d]) [] (rs_doc s);
       rs_index := rs_index s |};
  end_term s :=
    ({| rs_codec := rs_codec s; rs_doc := None; rs_term := [];
        rs_index := rs_index s ++ [rs_term s] |},
     {| documents := N.of_nat (length (rs_term s));
        chunk := (N.of_nat (length (rs_index s)), N.of_nat (length (rs_term s))) |})
|}.

Definition ref_session_new (codec : codec_id) : ref_session :=
  {| rs_codec := codec; rs_doc := None; rs_term := []; rs_index := [] |}.

Definition lex_cmp (a b : str8_t) : Z :=
  match String.compare a b with
  | Lt => (-1)%Z
  | Eq => 0%Z
  | Gt => 1%Z
  end.

Definition ref_MaxDocIDValue : docid_t := UINT32_MAX.

(** A segment whose [k]-th chunk holds the [k]-th postings list of
    [postings]; a chunk that holds nothing decodes to the sentinel. *)
Definition ref_decoder (postings : list (list document)) (ctx : term_index_ctx)
  : Decoder :=
  match postings !! N.to_nat (chunk ctx).1 with
  | Some (d :: ds) => {| curDocument := d; pending := ds |}
  | _ => {| curDocument := {| doc_id := ref_MaxDocIDValue; doc_hits := [] |};
            pending := [] |}
  end.

Definition ref_ap (codec : codec_id) (postings : list (list document)) : AccessProxy :=
  {| codec_identifier := codec; new_decoder := ref_decoder postings |}.

(** A document with one hit at position [p]. *)
Definition ref_doc (d : docid_t) (p : N) : document :=
  {| doc_id := d; doc_hits := [{| pos := p; payload := 0; payloadLen := 0 |}] |}.

(** A segment of generation [g] whose terms are [ts], each with the
    documents listed for it, and whose mask is [mask]. *)
Definition ref_candidate (g : N) (codec : codec_id)
    (ts : list (str8_t * list document)) (mask : updated_documents)
  : merge_candidate :=
  {| gen := g;
     terms := Some (imap (fun k t => (t.1, {| documents := N.of_nat (length t.2);
                                              chunk := (N.of_nat k, 0) |})) ts);
     ap := Some (ref_ap codec (snd <$> ts));
     maskedDocuments := mask |}.

Definition collection_of (cs : list merge_candidate) : MergeCandidatesCollection :=
  {| candidates := cs; mcc_map := []; mcc_all := [] |}.

(** [commit] followed by [merge] into an empty sink, with the reference
    collaborators; the result is the sink and the postings written. *)
Definition ref_merge (codec : codec_id) (cs : list merge_candidate) (flushFreq : N)
  : outcome (list (str8_t * term_index_ctx) * list (list document)) :=
  r ← merge lex_cmp ref_MaxDocIDValue (commit (collection_of cs))
        (ref_session_new codec) [] flushFreq;
  mret (r.2, rs_index r.1).

(** * Vocabulary of the properties *)

(** ** The sink and the head of [merge] *)

(** An entry of the sink that counts at least one document. *)
Definition has_documents (e : str8_t * term_index_ctx) : Prop :=
  0 < documents e.2.

(** [out'] is [out] followed by entries that each count a document. *)
Definition appends_documents (out out' : list (str8_t * term_index_ctx)) : Prop :=
  exists app, out' = out ++ app /\ Forall has_documents app.

(** The working set the head of [merge] builds: the active candidates,
    each with its position in [candidates]. *)
Fixpoint active_entries (i : N) (cs : list merge_candidate) : list tracked_candidate :=
  match cs with
  | [] => []
  | c :: cs' =>
      (if is_active c then [{| idx := i; candidate := c |}] else [])
      ++ active_entries (i + 1) cs'
  end.

(** The assertions of line 59 on [cs], with [prev] before it. *)
Fixpoint descending_from (prev : option merge_candidate) (cs : list merge_candidate)
  : bool :=
  match cs with
  | [] => true
  | c :: cs' =>
      match prev with Some p => gen c <? gen p | None => true end
      && descending_from (Some c) cs'
  end.

(** Every adjacent pair of candidates has strictly decreasing generations. *)
Definition adjacent_descending (cs : list merge_candidate) : Prop :=
  forall (i : nat) (c c' : merge_candidate),
    cs !! i = Some c -> cs !! S i = Some c' -> gen c' < gen c.

(** The masks [commit] keeps, in the order of the candidates. *)
Definition nonempty_masks (cs : list merge_candidate) : list updated_documents :=
  List.filter ud_bool (maskedDocuments <$> cs).

(** ** The document-level merge over decoders *)

(** The id of the document a decoder is positioned at. *)
Definition head_id (e : decoder_entry) : docid_t := doc_id (curDocument e.1).

(** The positions, counted from [i], of the decoders positioned at [m]. *)
Fixpoint tied_indices (m : docid_t) (i : N) (l : list decoder_entry) : list N :=
  match l with
  | [] => []
  | e :: l' => (if head_id e =? m then [i] else []) ++ tied_indices m (i + 1) l'
  end.

(** A decoder positioned at [m] moves to its next document and is dropped
    when it has none; the other decoders stay as they are. *)
Definition advance_entry (m : docid_t) (e : decoder_entry) : option decoder_entry :=
  if head_id e =? m
  then match next e.1 with Some dec' => Some (dec', e.2) | None => None end
  else Some e.

(** The decoders after those positioned at [m] have been advanced. *)
Definition advance_all (m : docid_t) (l : list decoder_entry) : list decoder_entry :=
  omap (advance_entry m) l.

(** What an advancing loop leaves: nothing when the array is empty. *)
Definition result_of {A} (l : list A) : option (list A) :=
  match l with [] => None | _ => Some l end.

(** The lowest id the decoders [l] are positioned at, [low] if none is
    lower. *)
Definition lowest_id (low : docid_t) (l : list decoder_entry) : docid_t :=
  foldl N.min low (head_id <$> l).

(** The first decoder, in the order of the array, positioned at [m]. *)
Definition first_tied (m : docid_t) (l : list decoder_entry) : option decoder_entry :=
  List.find (fun e => head_id e =? m) l.




(** The documents of one decoder that its registry does not mask. *)
Definition reencode_fold (reg : masked_documents_registry)
    (acc : N * list document) (docs : list document) : N * list document :=
  foldl (fun acc x => emit_document (registry_test reg (doc_id x)) x acc) acc docs.

(** ** The retention classifier *)

(** The classification the loop computes, with [seen] telling whether a
    generation that is not a candidate came before. *)
Fixpoint classify (candidatesGens : gset N) (seen : bool) (l : list N)
  : list (N * IndexSourceRetention.t) :=
  match l with
  | [] => []
  | g :: l' =>
      if bool_decide (g ∈ candidatesGens)
      then (g, if seen then IndexSourceRetention.RetainDocumentIDsUpdates
               else IndexSourceRetention.Delete) :: classify candidatesGens seen l'
      else (g, IndexSourceRetention.RetainAll) :: classify candidatesGens true l'
  end.

(** [g] is the generation of one of the candidates. *)
Definition candidate_generation (coll : MergeCandidatesCollection) (g : N) : Prop :=
  g ∈ gen <$> candidates coll.

(** A tracked generation older than [g] that is not a candidate. *)
Definition older_non_candidate (coll : MergeCandidatesCollection)
    (trackedSources : list N) (g : N) : Prop :=
  exists g', g' ∈ trackedSources /\ g' < g /\ ~ candidate_generation coll g'.

(** ** The head of [merge] and the masks *)

(** The preconditions the head of [merge] asserts. *)
Definition merge_preconditions (coll : MergeCandidatesCollection) : Prop :=
  N.of_nat (length (candidates coll)) < 65535 /\
  adjacent_descending (candidates coll).

(** The head of [merge], lines 51-66: the assertions and the working set. *)
Definition merge_head (coll : MergeCandidatesCollection)
  : outcome (list tracked_candidate) :=
  require (N.of_nat (length (candidates coll)) <? 65535);;
  collect_candidates 0 None (candidates coll) [].

(** [a] is of a generation at least as new as [b]. *)
Definition gen_ge (a b : merge_candidate) : Prop := gen b <= gen a.




(** ** The outer loop *)

(** After [n] writes [toAdvance[toAdvanceCnt++] = i] since the counter was
    last set to 1, slot [s] holds the write number [last_write n s], the
    last one that went to slot [s]. *)
Definition last_write (n s : N) : N :=
  if s <? n mod 256 then n - n mod 256 + s else n - n mod 256 - 256 + s.

(** [ta] holds the writes [W] made since the counter was last set to 1. *)
Definition slots_hold (ta W : list N) : Prop :=
  forall s : N, s < N.min (N.of_nat (length W)) 256 ->
    ta !! N.to_nat s = W !! N.to_nat (last_write (N.of_nat (length W)) s).

(** The slots the [do ... while] of lines 376-389 reads: as many as the
    counter says, 256 when it has wrapped to 0. *)
Definition slots_read (cnt : N) : N := if cnt =? 0 then 256 else cnt.

(** A working-set entry as the head of [merge] and the advancing loop leave
    it: its iterator is set and not exhausted, and its accessor is set. *)
Definition wf_entry (tc : tracked_candidate) : Prop :=
  is_active (candidate tc) = true.

(** The term a working-set entry is positioned at. *)
Definition cur_term (tc : tracked_candidate) : str8_t :=
  match terms (candidate tc) with
  | Some (p :: _) => p.1
  | _ => ""
  end.

Section Terms.
Variable terms_cmp : str8_t -> str8_t -> Z.

(** The writes to [toAdvance] since the counter was last set to 1, and the
    selected term, after the candidates [rest] at the positions from [i]
    on have been compared. *)
Fixpoint scan (i : N) (rest : list tracked_candidate) (W : list N) (m : str8_t)
  : list N * str8_t :=
  match rest with
  | [] => (W, m)
  | tc :: rest' =>
      if (terms_cmp (cur_term tc) m <? 0)%Z then scan (i + 1) rest' [i] (cur_term tc)
      else if (terms_cmp (cur_term tc) m =? 0)%Z then scan (i + 1) rest' (W ++ [i]) m
      else scan (i + 1) rest' W m
  end.

(** What [terms->next()] leaves of a working-set entry: nothing when the
    iterator is then exhausted. *)
Definition advance_entry_terms (tc : tracked_candidate) : list tracked_candidate :=
  match terms (candidate tc) with
  | Some (_ :: it') => if done it' then [] else [advance_candidate tc it']
  | _ => []
  end.

(** The working set after the entries at the positions [T], counted from
    [i], have been advanced. *)
Fixpoint advance_at (i : N) (T : list N) (l : list tracked_candidate)
  : list tracked_candidate :=
  match l with
  | [] => []
  | tc :: l' =>
      match T with
      | [] => l
      | t :: T' =>
          if t =? i then advance_entry_terms tc ++ advance_at (i + 1) T' l'
          else tc :: advance_at (i + 1) T l'
      end
  end.

(** A computation that ends, normally or on a failed [require]: it reads
    no array outside its bounds and needs no more iterations than the
    loops are given. *)
Definition completes {A} (m : outcome A) : Prop :=
  m = Aborted \/ exists a, m = Ret a.

(** The slots [0 .. n) of [toAdvance] name entries of the working set. *)
Definition slots_in (ta : list N) (all : list tracked_candidate) (n : nat) : Prop :=
  forall s, (s < n)%nat -> exists j, ta !! s = Some j /\ j < N.of_nat (length all).

(** The position of the entry is one of the committed collection. *)
Definition has_registry (coll : MergeCandidatesCollection)
    (tc : tracked_candidate) : Prop :=
  exists reg, scanner_registry_for coll (idx tc) = Ret reg.

(** The positions at the selected term, the selected term, and the
    positions the [do ... while] of lines 376-389 advances: the last ones
    found, as many as the 8-bit counter says. *)
Definition tied_positions (all : list tracked_candidate) : list N :=
  match all with
  | [] => []
  | tc0 :: rest => (scan 1 rest [0] (cur_term tc0)).1
  end.

Definition selected_term (all : list tracked_candidate) : str8_t :=
  match all with
  | [] => ""
  | tc0 :: rest => (scan 1 rest [0] (cur_term tc0)).2
  end.

Definition advanced_positions (all : list tracked_candidate) : list N :=
  let W := tied_positions all in
  drop (length W - N.to_nat (slots_read (N.of_nat (length W) mod 256))) W.

(** The number of working-set entries positioned at the term [t]. *)
Fixpoint tied_count (t : str8_t) (l : list tracked_candidate) : nat :=
  match l with
  | [] => 0
  | tc :: l' => (if String.eqb (cur_term tc) t then 1 else 0) + tied_count t l'
  end.

(** The strict order and the order that [terms_cmp] decides. *)
Definition term_lt (a b : str8_t) : Prop := (terms_cmp a b < 0)%Z.

Definition term_le (a b : str8_t) : Prop := (terms_cmp a b <= 0)%Z.

(** What the selection loop has found after the entries [pre]: a lower
    bound of their terms, and the positions of those at it. *)
Definition selects (pre : list tracked_candidate) (W : list N) (m : str8_t) : Prop :=
  Forall (fun tc => term_le m (cur_term tc)) pre /\
  Forall (fun w => exists tc, pre !! N.to_nat w = Some tc /\ cur_term tc = m) W /\
  length W = tied_count m pre.

(** The iterator of a working-set entry yields its terms in strictly
    ascending order. *)
Definition ascending_terms (tc : tracked_candidate) : Prop :=
  match terms (candidate tc) with
  | Some it => StronglySorted (fun p q => term_lt p.1 q.1) it
  | None => True
  end.

(** The terms [new] appended so far are in strictly ascending order and
    none is after the current term of a working-set entry; the entries
    still at one of them are a multiple of 256, the ones the 8-bit
    counter lost. *)
Definition sink_invariant (all : list tracked_candidate) (new : list str8_t) : Prop :=
  StronglySorted term_lt new /\
  forall t, t ∈ new ->
    Forall (fun tc => term_le t (cur_term tc)) all /\
    N.of_nat (tied_count t all) mod 256 = 0.

End Terms.

(** The working set after every entry at the term [m] has been advanced. *)
Fixpoint advance_tied (m : str8_t) (l : list tracked_candidate)
  : list tracked_candidate :=
  match l with
  | [] => []
  | tc :: l' =>
      (if String.eqb (cur_term tc) m then advance_entry_terms tc else [tc])
      ++ advance_tied m l'
  end.

(** ** The order of the candidates *)

(** [a] is of a strictly newer generation than [b]. *)
Definition gen_gt (a b : merge_candidate) : Prop := gen b < gen a.

(** ** One segment alone *)

(** The byte-wise copy of lines 139-149 for one term: the chunk of the
    term is appended to the index and the term is pushed to the sink with
    the number of documents it had; a term without documents is passed
    over. *)
Definition copy_term `{IndexSession Sess} (a : AccessProxy)
    (p : str8_t * term_index_ctx) (st : merge_locals) : merge_locals :=
  if documents p.2 =? 0 then st
  else
    let '(s, chunk) := append_index_chunk a p.2 (sess st) in
    {| sess := s; termHitsCapacity := termHitsCapacity st;
       terms_out := terms_out st ++
         [(p.1, {| documents := documents p.2; chunk := chunk |})] |}.

(** The copy of the terms [it], in the order of the iterator. *)
Definition copy_terms `{IndexSession Sess} (a : AccessProxy)
    (it : IndexSourceTermsView) (st : merge_locals) : merge_locals :=
  foldl (fun st p => copy_term a p st) st it.

(** The terms of an iterator that have documents, each with their number. *)
Definition terms_with_documents (it : IndexSourceTermsView) : list (str8_t * N) :=
  (fun p => (p.1, documents p.2)) <$> List.filter (fun p => negb (documents p.2 =? 0)) it.

(** ** Sequences of [set_freq] calls *)

(** A sequence of calls of [set_freq], one per document. *)
Definition set_freqs (reqs : list N) (h : term_hits) : term_hits :=
  foldl (fun h n => set_freq n h) h reqs.

(** The number of hits the buffer has room for. *)
Definition buffer_slots (h : term_hits) : N := default 0 (th_all h).

(** ** The terms the candidates offer *)

(** The terms a working-set entry has not moved past. *)
Definition remaining_terms (tc : tracked_candidate) : list str8_t :=
  match terms (candidate tc) with
  | Some it => it.*1
  | None => []
  end.

(** [t] is a term of the iterator of a candidate that has a postings
    accessor. *)
Definition offered (coll : MergeCandidatesCollection) (t : str8_t) : Prop :=
  exists c it a,
    c ∈ candidates coll /\ terms c = Some it /\ ap c = Some a /\ t ∈ it.*1.

(** ** Inputs of the examples *)


(** A candidate of generation [g] that only masks documents: it has an
    iterator over one term and no postings accessor. *)
Definition ref_mask_only (g : N) (mask : updated_documents) : merge_candidate :=
  {| gen := g;
     terms := Some [("zebra", {| documents := 1; chunk := (0, 1) |})];
     ap := None;
     maskedDocuments := mask |}.

(** [n] segments of generations [1 .. n] that all hold the term "a", each
    with one document. *)
Definition ref_many (n : nat) (codec : codec_id) : list merge_candidate :=
  (fun k => ref_candidate (N.of_nat (S k)) codec
              [("a", [ref_doc (N.of_nat k) (N.of_nat k)])] []) <$> seq 0 n.

(** The head of [merge] and the first iteration of its loop; the result is
    the number of candidates left in the working set, [None] when the loop
    is left. *)
Definition ref_first_step (codec : codec_id) (cs : list merge_candidate)
  : outcome (option nat) :=
  let coll := commit (collection_of cs) in
  all_ ← merge_head coll;
  '(_, _, r) ← merge_step lex_cmp ref_MaxDocIDValue coll codec 0 all_
                 (replicate (length all_) 0)
                 {| sess := ref_session_new codec; termHitsCapacity := 0;
                    terms_out := [] |};
  mret (option_map (length (A:=tracked_candidate)) r).

(** What the selection loop leaves for [n] segments of [ref_many], fewer
    than 256: all of them are at the term "a". *)
Definition ref_selection (n : nat) (codec : codec_id) : selection :=
  {| toAdvanceCnt := N.of_nat n; toAdvance := N.of_nat <$> seq 0 n;
     selected := ("a", {| documents := 1; chunk := (0, 0) |});
     codec := codec; sameCODEC := true |}.

(** The working set of two segments that share the term "apple". *)
Definition ref_working_set : list tracked_candidate :=
  active_entries 0
    (candidates (commit (collection_of
       [ref_candidate 1 "A" [("apple", [ref_doc 10 1]); ("fig", [ref_doc 30 1])] [];
        ref_candidate 2 "B" [("apple", [ref_doc 10 2]); ("pear", [ref_doc 20 2])] []]))).

(** * Properties *)

(** ** The outcome monad *)

Lemma bind_Ret {A B} (m : outcome A) (k : A -> outcome B) (b : B) :
  m ≫= k = Ret b <-> exists a, m = Ret a /\ k a = Ret b.
Proof.
  destruct m; simpl; split; try done.
  - eauto.
  - by intros (? & [= ->] & ?).
  - by intros (? & ? & _).
  - by intros (? & ? & _).
  - by intros (? & ? & _).
Qed.

Lemma bind_Ret_l {A B} (a : A) (k : A -> outcome B) : Ret a ≫= k = k a.
Proof. done. Qed.

Lemma defined_Some {A} (a : A) : defined (Some a) = Ret a.
Proof. done. Qed.

Lemma bind_Aborted {A B} (m : outcome A) (k : A -> outcome B) :
  m = Aborted -> m ≫= k = Aborted.
Proof. by intros ->. Qed.

Lemma require_Ret (b : bool) (u : unit) : require b = Ret u <-> b = true.
Proof. destruct b, u; simpl; split; done. Qed.

Lemma array_get_Ret {A} (a : list A) (i : N) (x : A) :
  array_get a i = Ret x <-> a !! N.to_nat i = Some x.
Proof.
  unfold array_get, defined. destruct (a !! N.to_nat i); split; congruence.
Qed.

Lemma array_set_Ret {A} (a a' : list A) (i : N) (x : A) :
  array_set a i x = Ret a' <->
  (N.to_nat i < length a)%nat /\ a' = <[N.to_nat i := x]> a.
Proof.
  unfold array_set. case_decide; split; try done.
  - by intros [= <-].
  - by intros [_ ->].
  - by intros [? _].
Qed.

(** Case analysis on the steps of a computation that returned. *)
Ltac outcome_inv :=
  repeat (simpl in *; match goal with
  | H : Ret _ = Ret _ |- _ => injection H as H; subst
  | H : Aborted = Ret _ |- _ => discriminate H
  | H : Undefined = Ret _ |- _ => discriminate H
  | H : OutOfFuel = Ret _ |- _ => discriminate H
  | H : mret _ = Ret _ |- _ => injection H as H; subst
  | H : mbind _ ?m = Ret _ |- _ =>
      let a := fresh "a" in let E := fresh "E" in
      apply bind_Ret in H as (a & E & H)
  | H : (let '(_, _) := ?x in _) = Ret _ |- _ =>
      let E := fresh "E" in destruct x eqn:E
  | H : (if ?b then _ else _) = Ret _ |- _ =>
      let E := fresh "E" in destruct b eqn:E
  | H : match ?x with _ => _ end = Ret _ |- _ =>
      let E := fresh "E" in destruct x eqn:E
  end).

Section MergeFacts.
Context {Sess : Type} `{IndexSession Sess}.
Variable terms_cmp : str8_t -> str8_t -> Z.
Variable MaxDocIDValue : docid_t.

(** ** The flush hint *)

Lemma flush_hint_id (flushFreq : N) (st : merge_locals) :
  flush_hint flushFreq st = st.
Proof. unfold flush_hint. by destruct (_ && _). Qed.

Lemma merge_step_flushFreq coll isCODEC (f1 f2 : N) all ta (st : merge_locals) :
  merge_step terms_cmp MaxDocIDValue coll isCODEC f1 all ta st =
  merge_step terms_cmp MaxDocIDValue coll isCODEC f2 all ta st.
Proof.
  unfold merge_step.
  destruct (select terms_cmp all ta) as [sel| | |]; simpl; try done.
  destruct (merge_group MaxDocIDValue coll isCODEC all sel st); simpl; try done.
  by rewrite !flush_hint_id.
Qed.

Lemma merge_loop_flushFreq fuel coll isCODEC (f1 f2 : N) all ta (st : merge_locals) :
  merge_loop terms_cmp MaxDocIDValue fuel coll isCODEC f1 all ta st =
  merge_loop terms_cmp MaxDocIDValue fuel coll isCODEC f2 all ta st.
Proof.
  revert all ta st. induction fuel as [|fuel IH]; intros all ta st; simpl; [done|].
  rewrite (merge_step_flushFreq coll isCODEC f1 f2).
  destruct (merge_step _ _ _ _ f2 _ _ _) as [[[ta' st'] [all'|]]| | |]; simpl; auto.
Qed.

(** ** Entries appended to the sink *)

Lemma appends_documents_refl out : appends_documents out out.
Proof. exists []. by rewrite app_nil_r. Qed.

Lemma appends_documents_trans out1 out2 out3 :
  appends_documents out1 out2 -> appends_documents out2 out3 ->
  appends_documents out1 out3.
Proof.
  intros (a1 & -> & F1) (a2 & -> & F2). exists (a1 ++ a2).
  split; [by rewrite app_assoc | by apply Forall_app].
Qed.

Lemma appends_documents_one out (t : str8_t) (tctx : term_index_ctx) :
  documents tctx <> 0 -> appends_documents out (out ++ [(t, tctx)]).
Proof.
  intros Hd. exists [(t, tctx)]. split; [done|].
  apply Forall_singleton. unfold has_documents; simpl. lia.
Qed.

Lemma push_term_appends (t : str8_t) (tctx : term_index_ctx) out :
  appends_documents out (push_term t tctx out).
Proof.
  unfold push_term. destruct (documents tctx =? 0) eqn:E.
  - apply appends_documents_refl.
  - apply appends_documents_one. by apply N.eqb_neq.
Qed.

Lemma merge_group_appends coll isCODEC all sel (st st' : merge_locals) :
  merge_group MaxDocIDValue coll isCODEC all sel st = Ret st' ->
  appends_documents (terms_out st) (terms_out st').
Proof.
  unfold merge_group. intros Hg.
  outcome_inv;
    try apply appends_documents_refl;
    try apply push_term_appends.
  apply appends_documents_one. by apply N.eqb_neq.
Qed.

Lemma merge_step_appends coll isCODEC flushFreq all ta (st st' : merge_locals) ta' r :
  merge_step terms_cmp MaxDocIDValue coll isCODEC flushFreq all ta st = Ret (ta', st', r) ->
  appends_documents (terms_out st) (terms_out st').
Proof.
  unfold merge_step. intros Hs. outcome_inv.
  rewrite flush_hint_id. eauto using merge_group_appends.
Qed.

Lemma merge_loop_appends fuel coll isCODEC flushFreq all ta (st st' : merge_locals) :
  merge_loop terms_cmp MaxDocIDValue fuel coll isCODEC flushFreq all ta st = Ret st' ->
  appends_documents (terms_out st) (terms_out st').
Proof.
  revert all ta st. induction fuel as [|fuel IH]; intros all ta st Hl; [done|].
  simpl in Hl. apply bind_Ret in Hl as ([[ta1 st1] r] & Hs & Hl).
  apply merge_step_appends in Hs.
  destruct r as [all1|].
  - eapply appends_documents_trans; [done|]. by eapply IH.
  - simpl in Hl. by injection Hl as <-.
Qed.

End MergeFacts.

(** ** The head of [merge] *)

Lemma collect_candidates_eq i prev cs acc :
  collect_candidates i prev cs acc =
  if descending_from prev cs then Ret (acc ++ active_entries i cs) else Aborted.
Proof.
  revert i prev acc. induction cs as [|c cs IH]; intros i prev acc; simpl.
  - by rewrite app_nil_r.
  - destruct (match prev with Some p => gen c <? gen p | None => true end); simpl; [|done].
    rewrite IH. destruct (descending_from (Some c) cs); [|done].
    by destruct (is_active c); rewrite <-?app_assoc.
Qed.

Lemma descending_from_spec prev cs :
  descending_from prev cs = true <->
  adjacent_descending cs /\
  match prev, cs with Some p, c :: _ => gen c < gen p | _, _ => True end.
Proof.
  revert prev. induction cs as [|c cs IH]; intros prev; simpl.
  - split; [|done]. intros _. split; [|by destruct prev]. by intros i c c' [=].
  - rewrite andb_true_iff, IH. split.
    + intros [Hp [Hcs Hc]]. split.
      * intros [|i] x y Hx Hy; simpl in *.
        -- injection Hx as <-. destruct cs as [|c0 cs]; [done|].
           by injection Hy as <-.
        -- eauto.
      * destruct prev; [by apply N.ltb_lt|done].
    + intros [Hcs Hp]. split; [destruct prev; [by apply N.ltb_lt|done]|]. split.
      * intros i x y Hx Hy. by apply (Hcs (S i)).
      * destruct cs as [|c' cs]; [done|]. by apply (Hcs 0%nat).
Qed.

Lemma descending_from_None cs :
  descending_from None cs = true <-> adjacent_descending cs.
Proof. rewrite descending_from_spec. split; [by intros [? _]|done]. Qed.

Lemma active_entries_idx i cs tc :
  tc ∈ active_entries i cs ->
  cs !! N.to_nat (idx tc - i) = Some (candidate tc) /\ i <= idx tc /\
  is_active (candidate tc) = true.
Proof.
  revert i. induction cs as [|c cs IH]; intros i; simpl; [by intros ?%elem_of_nil|].
  rewrite elem_of_app. intros [Hin|Hin].
  - destruct (is_active c) eqn:Ha; [|by apply elem_of_nil in Hin].
    apply list_elem_of_singleton in Hin as ->. simpl.
    by rewrite N.sub_diag.
  - apply IH in Hin as (Hl & Hle & Ha).
    split; [|split; [lia|done]].
    replace (N.to_nat (idx tc - i)) with (S (N.to_nat (idx tc - (i + 1)))) by lia.
    done.
Qed.

(** ** [commit] and the registries *)

Lemma nonempty_masks_app cs1 cs2 :
  nonempty_masks (cs1 ++ cs2) = nonempty_masks cs1 ++ nonempty_masks cs2.
Proof. unfold nonempty_masks. by rewrite fmap_app, List.filter_app. Qed.

Lemma nonempty_masks_cons c cs :
  nonempty_masks (c :: cs) =
  (if ud_bool (maskedDocuments c) then [maskedDocuments c] else []) ++ nonempty_masks cs.
Proof. unfold nonempty_masks; simpl. by destruct (ud_bool (maskedDocuments c)). Qed.

Lemma commit_fold cs map0 all0 :
  foldl commit_step (map0, all0) cs =
  (map0 ++ imap (fun k c =>
             (c, N.of_nat (length all0 + length (nonempty_masks (take k cs))))) cs,
   all0 ++ nonempty_masks cs).
Proof.
  revert map0 all0. induction cs as [|c cs IH]; intros map0 all0; simpl.
  - by rewrite !app_nil_r.
  - rewrite IH, nonempty_masks_cons. f_equal.
    + rewrite <-app_assoc. simpl. f_equal. f_equal.
      * do 2 f_equal. unfold nonempty_masks; simpl. lia.
      * apply imap_ext. intros k x _. simpl. do 2 f_equal.
        rewrite nonempty_masks_cons.
        destruct (ud_bool (maskedDocuments c)); simpl; rewrite ?length_app; simpl; lia.
    + destruct (ud_bool (maskedDocuments c)); simpl; [|done].
      by rewrite <-app_assoc.
Qed.

Lemma commit_candidates coll : candidates (commit coll) = sort_desc (candidates coll).
Proof. unfold commit. by destruct (foldl _ _ _). Qed.

Lemma commit_map coll :
  mcc_map (commit coll) =
  imap (fun k c => (c, N.of_nat (length (nonempty_masks (take k (sort_desc (candidates coll)))))))
    (sort_desc (candidates coll)).
Proof. unfold commit. by rewrite commit_fold. Qed.

Lemma commit_all coll :
  mcc_all (commit coll) = nonempty_masks (sort_desc (candidates coll)).
Proof. unfold commit. by rewrite commit_fold. Qed.

Lemma scanner_registry_for_commit coll (i : N) :
  scanner_registry_for (commit coll) i =
  if decide (N.to_nat i < length (sort_desc (candidates coll)))%nat
  then Ret (nonempty_masks (take (N.to_nat i) (sort_desc (candidates coll))))
  else Undefined.
Proof.
  unfold scanner_registry_for, array_get. rewrite commit_map, commit_all.
  rewrite list_lookup_imap.
  set (cs := sort_desc (candidates coll)).
  case_decide as Hi.
  - destruct (lookup_lt_is_Some_2 cs _ Hi) as [c Hc]. rewrite Hc. simpl.
    unfold registry_make. rewrite Nat2N.id. f_equal.
    rewrite <-(take_drop (N.to_nat i) cs) at 2.
    rewrite nonempty_masks_app. by rewrite take_app_length.
  - rewrite lookup_ge_None_2 by lia. done.
Qed.




(** ** The document-level merge over decoders *)

Lemma lowest_id_cons low e l :
  lowest_id low (e :: l) = lowest_id (N.min low (head_id e)) l.
Proof. done. Qed.

Lemma lowest_id_le low l : lowest_id low l <= low.
Proof.
  revert low. induction l as [|e l IH]; intros low; [done|].
  rewrite lowest_id_cons. etrans; [apply IH|]. lia.
Qed.


Lemma lowest_id_attained low l :
  lowest_id low l = low \/ exists e, e ∈ l /\ head_id e = lowest_id low l.
Proof.
  revert low. induction l as [|x l IH]; intros low; [by left|].
  rewrite lowest_id_cons.
  destruct (IH (N.min low (head_id x))) as [E|(e & Hin & E)].
  - rewrite E. destruct (N.min_spec low (head_id x)) as [[_ ->]|[_ ->]]; [by left|].
    right. exists x. split; [left|done].
  - right. exists e. split; [by right|done].
Qed.

Lemma tied_indices_app m i l1 l2 :
  tied_indices m i (l1 ++ l2) =
  tied_indices m i l1 ++ tied_indices m (i + N.of_nat (length l1)) l2.
Proof.
  revert i. induction l1 as [|e l1 IH]; intros i; simpl.
  - by rewrite N.add_0_r.
  - rewrite IH, <-app_assoc. do 3 f_equal. lia.
Qed.

Lemma tied_indices_length m i l : (length (tied_indices m i l) <= length l)%nat.
Proof.
  revert i. induction l as [|e l IH]; intros i; simpl; [done|].
  rewrite length_app. specialize (IH (i + 1)). destruct (_ =? _); simpl; lia.
Qed.

Lemma tied_indices_nil m i l :
  tied_indices m i l = [] <-> Forall (fun e => head_id e <> m) l.
Proof.
  revert i. induction l as [|e l IH]; intros i; simpl.
  - split; [constructor|done].
  - rewrite Forall_cons, <-(IH (i + 1)).
    destruct (N.eqb_spec (head_id e) m); simpl; [split; [done|by intros [? _]]|].
    split; [done|by intros [_ ?]].
Qed.

Lemma lowest_loop_spec rest i (T : list N) low ta :
  T <> [] -> take (length T) ta = T ->
  (length T + length rest <= length ta)%nat -> N.of_nat (length ta) < 65536 ->
  exists ta',
    lowest_loop i rest (N.of_nat (length T), ta, low) =
      Ret (N.of_nat (length ((if lowest_id low rest =? low then T else [])
                             ++ tied_indices (lowest_id low rest) i rest)),
           ta', lowest_id low rest) /\
    take (length ((if lowest_id low rest =? low then T else [])
                  ++ tied_indices (lowest_id low rest) i rest)) ta'
      = (if lowest_id low rest =? low then T else [])
        ++ tied_indices (lowest_id low rest) i rest /\
    length ta' = length ta.
Proof.
  revert i T low ta. induction rest as [|e rest IH]; intros i T low ta HT Htake Hlen Hta.
  - exists ta. change (lowest_id low []) with low. rewrite N.eqb_refl, app_nil_r. done.
  - simpl in Hlen. simpl lowest_loop. fold (head_id e).
    pose proof (lowest_id_le (N.min low (head_id e)) rest) as Hle.
    rewrite lowest_id_cons. simpl tied_indices.
    destruct (N.ltb_spec (head_id e) low) as [Hlt|Hge].
    + (* a new lowest document id *)
      assert (Hs : array_set ta 0 i = Ret (<[0%nat := i]> ta)).
      { apply array_set_Ret. split; [simpl; lia|done]. }
      rewrite Hs. simpl.
      destruct (IH (i + 1) [i] (head_id e) (<[0%nat := i]> ta)) as (ta' & Hl & Ht & Hn).
      { done. }
      { destruct ta; simpl in *; [lia|done]. }
      { rewrite length_insert. simpl. lia. }
      { by rewrite length_insert. }
      replace (N.min low (head_id e)) with (head_id e) in * by lia.
      exists ta'. rewrite length_insert in Hn.
      destruct (N.eqb_spec (lowest_id (head_id e) rest) low) as [E|_]; [lia|].
      rewrite (N.eqb_sym (head_id e)). simpl app.
      destruct (lowest_id (head_id e) rest =? head_id e); done.
    + destruct (N.eqb_spec (head_id e) low) as [Heq|Hne].
      * (* one more decoder at the lowest document id *)
        assert (Hs : array_set ta (N.of_nat (length T)) i
                     = Ret (<[length T := i]> ta)).
        { apply array_set_Ret. rewrite Nat2N.id. split; [lia|done]. }
        rewrite Hs. simpl.
        replace ((N.of_nat (length T) + 1) mod 65536) with (N.of_nat (length (T ++ [i]))).
        2:{ rewrite length_app; simpl. rewrite N.mod_small; lia. }
        destruct (IH (i + 1) (T ++ [i]) low (<[length T := i]> ta)) as (ta' & Hl & Ht & Hn).
        { by destruct T. }
        { rewrite length_app. simpl. rewrite Nat.add_1_r.
          rewrite (take_S_r _ _ i) by (apply list_lookup_insert_eq; lia).
          rewrite take_insert_ge by lia. by rewrite Htake. }
        { rewrite length_app, length_insert. simpl. lia. }
        { by rewrite length_insert. }
        replace (N.min low (head_id e)) with low in * by lia.
        exists ta'. rewrite length_insert in Hn. rewrite Heq.
        destruct (N.eqb_spec (lowest_id low rest) low) as [E|NE].
        -- rewrite E, N.eqb_refl in *. rewrite <-!app_assoc in *. done.
        -- destruct (N.eqb_spec low (lowest_id low rest)); [congruence|]. done.
      * destruct (IH (i + 1) T low ta) as (ta' & Hl & Ht & Hn); [done|done|lia|done|].
        replace (N.min low (head_id e)) with low in * by lia.
        exists ta'.
        destruct (N.eqb_spec (head_id e) (lowest_id low rest)); [lia|]. done.
Qed.

Lemma tied_indices_snoc_inv m i pre (T : list N) (t : N) :
  tied_indices m i pre = T ++ [t] ->
  exists pre1 e pre2,
    pre = pre1 ++ e :: pre2 /\ t = i + N.of_nat (length pre1) /\ head_id e = m /\
    tied_indices m i pre1 = T /\ Forall (fun e => head_id e <> m) pre2.
Proof.
  induction pre as [|x pre' IH] using rev_ind; intros HT.
  - by destruct T.
  - rewrite tied_indices_app in HT. simpl in HT. rewrite app_nil_r in HT.
    destruct (N.eqb_spec (head_id x) m) as [Hx|Hx].
    + apply app_inj_tail in HT as [HT <-].
      exists pre', x, []. split_and!; done.
    + rewrite app_nil_r in HT.
      destruct (IH HT) as (pre1 & e & pre2 & -> & -> & He & HT1 & Hpre2).
      exists pre1, e, (pre2 ++ [x]). split_and!; try done.
      * by rewrite <-app_assoc.
      * apply Forall_app. split; [done|]. by apply Forall_singleton.
Qed.

Lemma advance_all_app m l1 l2 :
  advance_all m (l1 ++ l2) = advance_all m l1 ++ advance_all m l2.
Proof. apply omap_app. Qed.

Lemma advance_all_cons m e l :
  advance_all m (e :: l) =
  match advance_entry m e with
  | Some e' => e' :: advance_all m l
  | None => advance_all m l
  end.
Proof. done. Qed.

Lemma advance_all_untied m l :
  Forall (fun e => head_id e <> m) l -> advance_all m l = l.
Proof.
  induction 1 as [|e l He _ IH]; [done|].
  rewrite advance_all_cons, IH. unfold advance_entry.
  by destruct (N.eqb_spec (head_id e) m).
Qed.

Lemma advance_decoders_unfold k ta decoders :
  advance_decoders k ta decoders =
  (i ← defined (ta !! k);
   e ← array_get decoders i;
   r ← match next e.1 with
       | Some dec' =>
           decoders' ← array_set decoders i (dec', e.2); mret (Some decoders')
       | None =>
           if decide (length decoders = 1%nat) then mret None
           else mret (Some (array_remove decoders i))
       end;
   match r, k with
   | None, _ => mret None
   | Some decoders', O => mret (Some decoders')
   | Some decoders', S k' => advance_decoders k' ta decoders'
   end).
Proof. by destruct k. Qed.

Lemma take_snoc_inv {A} (ta T : list A) (k : nat) (t : A) :
  take (S k) ta = T ++ [t] -> length T = k -> ta !! k = Some t /\ take k ta = T.
Proof.
  intros Htake HT.
  assert (Hk : ta !! k = Some t).
  { rewrite <-(lookup_take_lt ta (S k)) by lia. rewrite Htake.
    by apply list_lookup_middle. }
  split; [done|]. rewrite (take_S_r _ _ t) in Htake by done.
  by apply app_inj_tail in Htake as [-> _].
Qed.

(** The [do ... while] of lines 343-358 advances exactly the decoders
    positioned at the lowest document id and drops the exhausted ones. *)
Lemma advance_decoders_spec m k ta pre post :
  take (S k) ta = tied_indices m 0 pre ->
  length (tied_indices m 0 pre) = S k ->
  advance_decoders k ta (pre ++ post) = Ret (result_of (advance_all m pre ++ post)).
Proof.
  revert pre post. induction k as [|k IH]; intros pre post Htake Hlen.
  all: destruct (exists_last (l := tied_indices m 0 pre)) as (T & t & HT);
         [by destruct (tied_indices m 0 pre)|].
  all: destruct (tied_indices_snoc_inv _ _ _ _ _ HT)
         as (pre1 & e & pre2 & -> & Ht & He & HT1 & Hpre2).
  all: rewrite N.add_0_l in Ht; subst t.
  all: rewrite HT in Htake, Hlen.
  all: rewrite length_app in Hlen; simpl in Hlen.
  all: apply take_snoc_inv in Htake as [Hk HtakeT]; [|lia].
  all: rewrite advance_decoders_unfold, Hk; simpl.
  all: rewrite <-!app_assoc; simpl.
  all: unfold array_get; rewrite Nat2N.id, list_lookup_middle by done; simpl.
  all: rewrite advance_all_app, advance_all_cons; unfold advance_entry at 1.
  all: rewrite He, N.eqb_refl, (advance_all_untied m pre2) by done.
  all: destruct (next e.1) as [dec'|]; simpl.
  - unfold array_set. rewrite Nat2N.id.
    rewrite decide_True by (rewrite length_app; simpl; lia). simpl.
    replace (length pre1) with (length pre1 + 0)%nat at 1 by lia.
    rewrite insert_app_r. simpl.
    destruct T; [|done]. apply tied_indices_nil in HT1.
    rewrite (advance_all_untied m pre1) by done. rewrite <-app_assoc.
    by destruct pre1.
  - destruct T; [|done]. apply tied_indices_nil in HT1.
    rewrite (advance_all_untied m pre1) by done.
    case_decide as Hone.
    + rewrite length_app in Hone. simpl in Hone. rewrite length_app in Hone.
      destruct pre1, pre2, post; simpl in *; first [done|lia].
    + simpl. unfold array_remove. rewrite Nat2N.id, delete_middle.
      rewrite length_app in Hone. simpl in Hone. rewrite length_app in Hone.
      rewrite <-app_assoc.
      destruct pre1, pre2, post; simpl in *; first [done|lia].
  - unfold array_set. rewrite Nat2N.id.
    rewrite decide_True by (rewrite length_app; simpl; lia). simpl.
    replace (length pre1) with (length pre1 + 0)%nat at 1 by lia.
    rewrite insert_app_r. simpl.
    rewrite IH; [|by rewrite HT1|rewrite HT1; lia].
    by rewrite <-app_assoc.
  - case_decide as Hone.
    + rewrite length_app in Hone. simpl in Hone. rewrite length_app in Hone.
      destruct pre1, pre2, post; simpl in *; try lia.
      destruct T; simpl in *; [lia|done].
    + simpl. unfold array_remove. rewrite Nat2N.id, delete_middle.
      rewrite IH; [|by rewrite HT1|rewrite HT1; lia].
      by rewrite <-app_assoc.
Qed.

Lemma tied_indices_head m i l (t : N) (T : list N) :
  tied_indices m i l = t :: T ->
  exists e, l !! N.to_nat (t - i) = Some e /\ first_tied m l = Some e /\ i <= t.
Proof.
  revert i. induction l as [|x l IH]; intros i; simpl; [done|].
  unfold first_tied; simpl.
  destruct (N.eqb_spec (head_id x) m) as [Hx|Hx]; simpl.
  - intros [= <- _]. exists x. rewrite N.sub_diag. split_and!; [done|done|lia].
  - intros (e & Hl & Hf & Hle)%IH. exists e. split_and!; [|done|lia].
    replace (N.to_nat (t - i)) with (S (N.to_nat (t - (i + 1)))) by lia. done.
Qed.

Lemma tied_indices_lowest e0 rest :
  tied_indices (lowest_id (head_id e0) rest) 0 (e0 :: rest) <> [].
Proof.
  intros E. apply tied_indices_nil in E.
  destruct (lowest_id_attained (head_id e0) rest) as [Hm|(e & Hin & Hm)].
  - by apply Forall_cons in E as [? _].
  - apply Forall_cons in E as [_ E]. rewrite Forall_forall in E. by apply (E e).
Qed.


(** One iteration: the document of the first decoder positioned at the
    lowest id is encoded unless its registry masks it, and every decoder
    positioned at that id is advanced. *)
Lemma decoders_step_spec e0 rest ta acc :
  (length (e0 :: rest) <= length ta)%nat -> N.of_nat (length ta) < 65536 ->
  exists ta' e,
    first_tied (lowest_id (head_id e0) rest) (e0 :: rest) = Some e /\
    length ta' = length ta /\
    decoders_step (e0 :: rest) ta acc =
      Ret (ta',
           emit_document (registry_test e.2 (lowest_id (head_id e0) rest))
             {| doc_id := lowest_id (head_id e0) rest;
                doc_hits := doc_hits (curDocument e.1) |} acc,
           result_of (advance_all (lowest_id (head_id e0) rest) (e0 :: rest))).
Proof.
  intros Hlen Hta. simpl in Hlen.
  set (m := lowest_id (head_id e0) rest).
  assert (Hs : array_set ta 0 0 = Ret (<[0%nat := 0]> ta)).
  { apply array_set_Ret. split; [simpl; lia|done]. }
  destruct (lowest_loop_spec rest 1 [0] (head_id e0) (<[0%nat := 0]> ta))
    as (ta' & Hl & Htake & Hn).
  { done. }
  { destruct ta; simpl in *; [lia|done]. }
  { rewrite length_insert. simpl. lia. }
  { by rewrite length_insert. }
  fold m in Hl, Htake. rewrite length_insert in Hn.
  assert (HT : (if m =? head_id e0 then [0] else []) ++ tied_indices m 1 rest
               = tied_indices m 0 (e0 :: rest)).
  { simpl. by rewrite (N.eqb_sym m). }
  rewrite HT in Hl, Htake.
  pose proof (tied_indices_lowest e0 rest) as Hne. fold m in Hne.
  pose proof (tied_indices_length m 0 (e0 :: rest)) as HlenT.
  pose proof (advance_decoders_spec m (length (tied_indices m 0 (e0 :: rest)) - 1)
                ta' (e0 :: rest) []) as Ha.
  rewrite !app_nil_r in Ha.
  destruct (tied_indices m 0 (e0 :: rest)) as [|t T] eqn:ET; [done|].
  destruct (tied_indices_head _ _ _ _ _ ET) as (e & Hle & Hfirst & _).
  rewrite N.sub_0_r in Hle. simpl length in *.
  replace (S (length T) - 1)%nat with (length T) in Ha by lia.
  assert (Hfirst0 : array_get ta' 0 = Ret t).
  { apply array_get_Ret. rewrite <-(lookup_take_lt ta' (S (length T))) by (simpl; lia).
    by rewrite Htake. }
  assert (He : array_get (e0 :: rest) t = Ret e) by by apply array_get_Ret.
  assert (Hdec : N.to_nat (dec16 (N.of_nat (S (length T)))) = length T).
  { unfold dec16.
    replace (N.of_nat (S (length T)) + 65535) with (N.of_nat (length T) + 1 * 65536) by lia.
    rewrite N.Div0.mod_add, N.mod_small by lia. lia. }
  exists ta', e. split; [done|]. split; [done|].
  unfold decoders_step.
  apply bind_Ret. exists e0. split; [done|].
  apply bind_Ret. eexists. split; [exact Hs|].
  apply bind_Ret. eexists. split; [exact Hl|]. cbv beta iota.
  apply bind_Ret. eexists. split; [exact Hfirst0|].
  apply bind_Ret. eexists. split; [exact He|].
  apply bind_Ret. eexists. split; [rewrite Hdec; by apply Ha|]. done.
Qed.









Lemma advance_all_length m l : (length (advance_all m l) <= length l)%nat.
Proof.
  induction l as [|e l IH]; [done|]. rewrite advance_all_cons.
  destruct (advance_entry m e); simpl; lia.
Qed.

Lemma decoders_fuel_cons (e : decoder_entry) l :
  decoders_fuel (e :: l) = (length (decoder_documents e.1) + decoders_fuel l)%nat.
Proof. done. Qed.

Lemma advance_all_fuel m l :
  (decoders_fuel (advance_all m l) + length (tied_indices m 0 l)
   <= decoders_fuel l)%nat.
Proof.
  generalize 0. induction l as [|e l IH]; intros i; [done|].
  rewrite advance_all_cons, decoders_fuel_cons. simpl tied_indices.
  rewrite length_app. specialize (IH (i + 1)). unfold advance_entry.
  destruct (head_id e =? m); simpl length.
  - unfold next, decoder_documents.
    destruct (pending e.1) as [|d ds]; [simpl; lia|].
    rewrite decoders_fuel_cons. unfold decoder_documents.
    cbn [fst curDocument pending length]. lia.
  - rewrite decoders_fuel_cons. unfold decoder_documents. simpl length. lia.
Qed.






Lemma merge_decoders_step fuel decoders ta acc ta' acc' r :
  decoders_step decoders ta acc = Ret (ta', acc', r) ->
  merge_decoders (S fuel) decoders ta acc =
  match r with
  | None => Ret acc'
  | Some decoders' => merge_decoders fuel decoders' ta' acc'
  end.
Proof. intros Hs. simpl. by rewrite Hs. Qed.


(** ** Re-encoding the postings of one candidate *)

Lemma reencode_eq (MaxDocIDValue : docid_t) reg d pend acc :
  reencode MaxDocIDValue reg d pend acc =
  if existsb (fun x => doc_id x =? MaxDocIDValue) (d :: pend)
  then Aborted else Ret (reencode_fold reg acc (d :: pend)).
Proof.
  revert d acc. induction pend as [|d' pend IH]; intros d acc.
  - simpl. by destruct (doc_id d =? MaxDocIDValue).
  - change (reencode MaxDocIDValue reg d (d' :: pend) acc) with
      (require (negb (doc_id d =? MaxDocIDValue));;
       reencode MaxDocIDValue reg d' pend
         (emit_document (registry_test reg (doc_id d)) d acc)).
    rewrite IH. change (existsb ?f (d :: ?l)) with (f d || existsb f l).
    by destruct (doc_id d =? MaxDocIDValue).
Qed.


(** ** The retention classifier *)

Lemma tracked_loop_spec gens ts fuel (i last : N) (seen : bool) res :
  N.of_nat (length ts) <= UINT32_MAX ->
  (N.to_nat i <= length ts)%nat -> (length ts - N.to_nat i < fuel)%nat ->
  (last <? i) = seen -> (seen = false -> last = UINT32_MAX) ->
  tracked_loop fuel (N.of_nat (length ts)) i ts gens last res =
  Ret (res ++ classify gens seen (drop (N.to_nat i) ts)).
Proof.
  unfold UINT32_MAX.
  revert i last seen res.
  induction fuel as [|fuel IH]; intros i last seen res Hcnt Hi Hfuel Hlast Hseen; [lia|].
  simpl. destruct (N.eqb_spec i (N.of_nat (length ts))) as [E|NE].
  - rewrite drop_ge by lia. by rewrite app_nil_r.
  - assert (Hlt : (N.to_nat i < length ts)%nat) by lia.
    destruct (lookup_lt_is_Some_2 ts _ Hlt) as [g Hg].
    rewrite (drop_S _ _ _ Hg). unfold array_get. rewrite Hg. simpl.
    assert (Hi' : (i + 1) mod 4294967296 = i + 1) by (apply N.mod_small; lia).
    rewrite Hi'.
    replace (S (N.to_nat i)) with (N.to_nat (i + 1)) by lia.
    destruct (bool_decide (g ∈ gens)); simpl.
    + rewrite Hlast.
      destruct seen.
      * rewrite (IH (i + 1) last true); [by rewrite <-app_assoc|lia|lia|lia| |done].
        apply N.ltb_lt in Hlast. apply N.ltb_lt. lia.
      * rewrite (IH (i + 1) last false); [by rewrite <-app_assoc|lia|lia|lia| |done].
        rewrite Hseen by done. apply N.ltb_ge. lia.
    + rewrite (IH (i + 1) i true); [by rewrite <-app_assoc|lia|lia|lia| |done].
      apply N.ltb_lt. lia.
Qed.

Lemma classify_lookup gens seen l (k : nat) :
  classify gens seen l !! k =
  (fun g => (g,
     if bool_decide (g ∈ gens)
     then if seen || existsb (fun g' => negb (bool_decide (g' ∈ gens))) (take k l)
          then IndexSourceRetention.RetainDocumentIDsUpdates
          else IndexSourceRetention.Delete
     else IndexSourceRetention.RetainAll)) <$> l !! k.
Proof.
  revert seen k. induction l as [|g l IH]; intros seen k; [done|].
  destruct k as [|k]; simpl.
  - destruct (bool_decide (g ∈ gens)); simpl; [|done]. by rewrite orb_false_r.
  - destruct (bool_decide (g ∈ gens)); simpl; rewrite IH; [done|].
    by rewrite orb_true_r.
Qed.

Lemma insert_asc_perm g l : insert_asc g l ≡ₚ g :: l.
Proof.
  induction l as [|x l IH]; simpl; [done|].
  destruct (g <? x); [done|]. rewrite IH. apply Permutation_swap.
Qed.

Lemma sort_asc_perm l : sort_asc l ≡ₚ l.
Proof.
  induction l as [|x l IH]; simpl; [done|].
  rewrite insert_asc_perm. by f_equiv.
Qed.

Lemma insert_asc_sorted g l :
  StronglySorted N.le l -> StronglySorted N.le (insert_asc g l).
Proof.
  induction 1 as [|x l Hl IH Hx]; simpl; [repeat constructor|].
  destruct (N.ltb_spec g x).
  - constructor; [by constructor|]. constructor; [lia|].
    eapply List.Forall_impl; [|exact Hx]. simpl. intros; lia.
  - constructor; [done|].
    apply List.Forall_forall. intros y Hy.
    apply list_elem_of_In in Hy. rewrite insert_asc_perm in Hy.
    apply elem_of_cons in Hy as [->|Hy]; [done|].
    rewrite List.Forall_forall in Hx. by apply Hx, list_elem_of_In.
Qed.

Lemma sort_asc_sorted l : StronglySorted N.le (sort_asc l).
Proof.
  induction l as [|x l IH]; simpl; [constructor|]. by apply insert_asc_sorted.
Qed.

Lemma StronglySorted_le_lookup (l : list N) (j k : nat) (x y : N) :
  StronglySorted N.le l -> (j < k)%nat -> l !! j = Some x -> l !! k = Some y -> x <= y.
Proof.
  intros Hs. revert j k. induction Hs as [|a l Hl IH Ha]; intros j k Hjk Hj Hk; [done|].
  destruct k as [|k]; [lia|]. destruct j as [|j]; simpl in *.
  - injection Hj as <-. rewrite List.Forall_forall in Ha.
    apply Ha, list_elem_of_In. by eapply list_elem_of_lookup_2.
  - apply (IH j k); [lia|done|done].
Qed.

Lemma elem_of_candidatesGens_of cs (g : N) :
  g ∈ candidatesGens_of cs <-> g ∈ gen <$> cs.
Proof.
  unfold candidatesGens_of.
  assert (forall s : gset N, g ∈ foldl (fun s c => {[gen c]} ∪ s) s cs
                             <-> g ∈ s \/ g ∈ gen <$> cs) as Hgen.
  { induction cs as [|c cs IH]; intros s.
    - rewrite fmap_nil, elem_of_nil. simpl. tauto.
    - cbn [foldl].
      rewrite IH, fmap_cons, elem_of_cons, elem_of_union, elem_of_singleton. tauto. }
  rewrite Hgen. rewrite elem_of_empty. tauto.
Qed.

Lemma classify_fst gens seen l : (classify gens seen l).*1 = l.
Proof.
  revert seen. induction l as [|g l IH]; intros seen; [done|].
  simpl. destruct (bool_decide (g ∈ gens)); rewrite fmap_cons, IH; done.
Qed.

Lemma seen_before_spec coll ts (k : nat) (g : N) :
  sort_asc ts !! k = Some g -> candidate_generation coll g ->
  existsb (fun g' => negb (bool_decide (g' ∈ candidatesGens_of (candidates coll))))
    (take k (sort_asc ts)) = true
  <-> older_non_candidate coll ts g.
Proof.
  intros Hk Hg. rewrite existsb_exists. unfold older_non_candidate. split.
  - intros (g' & Hin & Hn). apply list_elem_of_In in Hin.
    apply negb_true_iff, bool_decide_eq_false in Hn.
    rewrite elem_of_candidatesGens_of in Hn.
    apply list_elem_of_lookup in Hin as [j Hj].
    apply lookup_take_Some in Hj as [Hj Hjk].
    exists g'. split_and!; [|..|done].
    + rewrite <-(sort_asc_perm ts). by eapply list_elem_of_lookup_2.
    + pose proof (StronglySorted_le_lookup _ _ _ _ _ (sort_asc_sorted ts) Hjk Hj Hk).
      assert (g' <> g) by (intros ->; done). lia.
  - intros (g' & Hin & Hlt & Hn). exists g'. split.
    + rewrite <-(sort_asc_perm ts) in Hin.
      apply list_elem_of_lookup in Hin as [j Hj].
      apply list_elem_of_In, list_elem_of_lookup. exists j.
      apply lookup_take_Some. split; [done|].
      destruct (decide (j < k)%nat) as [|Hge]; [done|].
      destruct (decide (j = k)) as [->|Hne]; [simplify_eq; lia|].
      assert (k < j)%nat as Hkj by lia.
      pose proof (StronglySorted_le_lookup _ _ _ _ _ (sort_asc_sorted ts) Hkj Hk Hj). lia.
    + apply negb_true_iff, bool_decide_eq_false.
      by rewrite elem_of_candidatesGens_of.
Qed.

(** C4: [consider_tracked_sources] walks the tracked generations in
    ascending order and classifies each generation [g]: RetainAll exactly
    when [g] is not a candidate generation; RetainDocumentIDsUpdates when
    [g] is a candidate and a strictly smaller tracked generation is not;
    Delete when [g] is a candidate and no strictly smaller tracked
    generation is a non-candidate.  The result depends on the collection
    only through the set of its candidate generations.  The tracked list
    has fewer than 2^32 entries, which the [uint32_t] loop counter needs to
    reach the end of the list. *)
Theorem consider_tracked_sources_classification
    (coll : MergeCandidatesCollection) (trackedSources : list N) :
  N.of_nat (length trackedSources) <= UINT32_MAX ->
  exists res,
    consider_tracked_sources coll trackedSources = Ret res /\
    StronglySorted N.le res.*1 /\ res.*1 ≡ₚ trackedSources /\
    (forall g r, (g, r) ∈ res ->
       (r = IndexSourceRetention.RetainAll <-> ~ candidate_generation coll g) /\
       (candidate_generation coll g -> older_non_candidate coll trackedSources g ->
        r = IndexSourceRetention.RetainDocumentIDsUpdates) /\
       (candidate_generation coll g -> ~ older_non_candidate coll trackedSources g ->
        r = IndexSourceRetention.Delete)) /\
    (forall coll',
       (forall g, candidate_generation coll' g <-> candidate_generation coll g) ->
       consider_tracked_sources coll' trackedSources =
       consider_tracked_sources coll trackedSources).
Proof.
  intros Hcnt.
  assert (Hlen : length (sort_asc trackedSources) = length trackedSources)
    by apply Permutation_length, sort_asc_perm.
  exists (classify (candidatesGens_of (candidates coll)) false (sort_asc trackedSources)).
  split_and!.
  - unfold consider_tracked_sources. rewrite <-Hlen.
    rewrite (tracked_loop_spec _ _ _ 0 UINT32_MAX false []); [done|lia|lia|lia|done|done].
  - rewrite classify_fst. apply sort_asc_sorted.
  - rewrite classify_fst. apply sort_asc_perm.
  - intros g r Hin. apply list_elem_of_lookup in Hin as [k Hk].
    rewrite classify_lookup in Hk.
    destruct (sort_asc trackedSources !! k) as [g0|] eqn:Eg; [|done].
    injection Hk as -> <-.
    pose proof (seen_before_spec coll trackedSources k g Eg) as Hseen.
    destruct (bool_decide (g ∈ candidatesGens_of (candidates coll))) eqn:Eb.
    + apply bool_decide_eq_true in Eb. rewrite elem_of_candidatesGens_of in Eb.
      specialize (Hseen Eb). simpl.
      destruct (existsb _ _).
      * split_and!; [done|done|]. intros _ Hn. destruct Hn. by apply Hseen.
      * split_and!; [done| |done]. intros _ Ho%Hseen. done.
    + apply bool_decide_eq_false in Eb. rewrite elem_of_candidatesGens_of in Eb.
      split_and!; done.
  - intros coll' Hsame. unfold consider_tracked_sources.
    replace (candidatesGens_of (candidates coll'))
      with (candidatesGens_of (candidates coll)); [done|].
    apply set_eq. intros g. rewrite !elem_of_candidatesGens_of. symmetry. apply Hsame.
Qed.

Lemma consider_tracked_sources_classification_witness :
  exists res,
    consider_tracked_sources
      (collection_of [ref_candidate 5 "A" [] []; ref_candidate 3 "A" [] []])
      [2; 3; 4; 5; 7] = Ret res /\
    (3, IndexSourceRetention.RetainDocumentIDsUpdates) ∈ res.
Proof.
  destruct (consider_tracked_sources_classification
              (collection_of [ref_candidate 5 "A" [] []; ref_candidate 3 "A" [] []])
              [2; 3; 4; 5; 7]) as (res & Hres & _).
  { vm_compute. discriminate. }
  exists res. split; [exact Hres|].
  vm_compute in Hres. injection Hres as <-.
  apply list_elem_of_In. vm_compute. tauto.
Defined.

Section MergeClaims.
Context {Sess : Type} `{IndexSession Sess}.
Variable terms_cmp : str8_t -> str8_t -> Z.
Variable MaxDocIDValue : docid_t.

Lemma merge_head_eq coll :
  merge_head coll =
  if (N.of_nat (length (candidates coll)) <? 65535)
     && descending_from None (candidates coll)
  then Ret (active_entries 0 (candidates coll)) else Aborted.
Proof.
  unfold merge_head. rewrite collect_candidates_eq.
  destruct (_ <? _); [|done]. simpl. by destruct (descending_from _ _).
Qed.

Lemma merge_unfold coll (session : Sess) terms0 flushFreq :
  merge terms_cmp MaxDocIDValue coll session terms0 flushFreq =
  (all_ ← merge_head coll;
   match all_ with
   | [] => mret (session, terms0)
   | _ =>
       st ← merge_loop terms_cmp MaxDocIDValue (S (merge_fuel all_)) coll
              (is_codec_identifier session) flushFreq all_
              (replicate (length all_) 0)
              {| sess := new_encoder session; termHitsCapacity := 0;
                 terms_out := terms0 |};
       mret (sess st, terms_out st)
   end).
Proof. unfold merge, merge_head. by destruct (require _). Qed.

(** C7: [merge] aborts with a fatal assertion unless there are fewer than
    65535 candidates and every adjacent pair of candidates has strictly
    decreasing generations; under these preconditions the assertions at
    the head of [merge] do not fire, and the head yields the working set
    of the active candidates. *)
Theorem merge_head_assertions (coll : MergeCandidatesCollection)
    (session : Sess) (terms0 : list (str8_t * term_index_ctx)) (flushFreq : N) :
  (~ merge_preconditions coll ->
   merge terms_cmp MaxDocIDValue coll session terms0 flushFreq = Aborted) /\
  (merge_preconditions coll ->
   merge_head coll = Ret (active_entries 0 (candidates coll))).
Proof.
  rewrite merge_unfold, merge_head_eq. unfold merge_preconditions.
  destruct (N.ltb_spec (N.of_nat (length (candidates coll))) 65535) as [Hn|Hn]; simpl.
  - destruct (descending_from None (candidates coll)) eqn:Ed.
    + apply descending_from_None in Ed. split; [|done]. intros Hp. by destruct Hp.
    + split; [done|]. intros [_ Hd%descending_from_None]. congruence.
  - split; [done|]. intros [? _]. lia.
Qed.

(** C9: the [flushFreq] argument does not influence [merge]: any two
    values give the same outcome, the same session state and the same
    sink. *)
Theorem merge_flushFreq_irrelevant (coll : MergeCandidatesCollection)
    (session : Sess) (terms0 : list (str8_t * term_index_ctx)) (f1 f2 : N) :
  merge terms_cmp MaxDocIDValue coll session terms0 f1 =
  merge terms_cmp MaxDocIDValue coll session terms0 f2.
Proof.
  rewrite !merge_unfold. destruct (merge_head coll) as [[|tc all_]| | |]; try done.
  rewrite !bind_Ret_l.
  by rewrite (merge_loop_flushFreq terms_cmp MaxDocIDValue _ coll _ f1 f2).
Qed.

(** A term group with one candidate whose context has no documents
    changes neither the session nor the sink. *)
Lemma merge_group_zero_documents coll isCODEC all sel (st st' : merge_locals) :
  merge_group MaxDocIDValue coll isCODEC all sel st = Ret st' ->
  toAdvanceCnt sel = 1 -> documents (selected sel).2 = 0 -> st' = st.
Proof.
  unfold merge_group. intros Hg Hcnt Hdocs. rewrite Hcnt, Hdocs in Hg.
  by outcome_inv.
Qed.

(** C5: every entry [merge] appends to the sink has [documents > 0]; a
    term group of one candidate whose input context has no documents is
    skipped without any effect, and a term for which [end_term] reports no
    documents is not pushed. *)
Theorem merge_appends_terms_with_documents (coll : MergeCandidatesCollection)
    (session session' : Sess) (terms0 out : list (str8_t * term_index_ctx))
    (flushFreq : N) :
  merge terms_cmp MaxDocIDValue coll session terms0 flushFreq = Ret (session', out) ->
  (exists appended, out = terms0 ++ appended /\
     Forall (fun e => 0 < documents e.2) appended) /\
  (forall isCODEC all sel (st st' : merge_locals),
     merge_group MaxDocIDValue coll isCODEC all sel st = Ret st' ->
     toAdvanceCnt sel = 1 -> documents (selected sel).2 = 0 -> st' = st) /\
  (forall t tctx sink, documents tctx = 0 -> push_term t tctx sink = sink).
Proof.
  intros Hm. split_and!.
  - rewrite merge_unfold in Hm. apply bind_Ret in Hm as (all_ & _ & Hm).
    destruct all_ as [|tc all_].
    + injection Hm as <- <-. exists []. by rewrite app_nil_r.
    + apply bind_Ret in Hm as (st & Hl & Hm). injection Hm as <- <-.
      by apply merge_loop_appends in Hl.
  - apply merge_group_zero_documents.
  - intros t tctx sink Hd. unfold push_term. by rewrite Hd.
Qed.

End MergeClaims.

Lemma merge_head_assertions_witness :
  merge lex_cmp ref_MaxDocIDValue
    (collection_of [ref_candidate 2 "A" [] []; ref_candidate 2 "A" [] []])
    (ref_session_new "A") [] 0 = Aborted /\
  merge_head (collection_of [ref_candidate 2 "A" [] []; ref_candidate 1 "A" [] []])
    = Ret [].
Proof.
  split.
  - apply (proj1 (merge_head_assertions lex_cmp ref_MaxDocIDValue _ _ _ _)).
    intros [_ Hd]. specialize (Hd 0%nat _ _ eq_refl eq_refl). vm_compute in Hd.
    discriminate.
  - apply (proj2 (merge_head_assertions lex_cmp ref_MaxDocIDValue
                    (collection_of [ref_candidate 2 "A" [] []; ref_candidate 1 "A" [] []])
                    (ref_session_new "A") [] 0)).
    split; [vm_compute; reflexivity|].
    intros [|[|i]] c c' Hc Hc'; vm_compute in Hc, Hc'; try discriminate.
    injection Hc as <-. injection Hc' as <-. vm_compute. reflexivity.
Defined.

Lemma merge_appends_terms_with_documents_witness :
  exists appended,
    [("apple", {| documents := 3; chunk := (0, 3) |})] = [] ++ appended /\
    Forall (fun e : str8_t * term_index_ctx => 0 < documents e.2) appended.
Proof.
  eapply (merge_appends_terms_with_documents lex_cmp ref_MaxDocIDValue
            (commit (collection_of
               [ref_candidate 1 "A" [("apple", [ref_doc 10 1; ref_doc 30 1])] [];
                ref_candidate 2 "A" [("apple", [ref_doc 10 2; ref_doc 20 2])] []]))
            (ref_session_new "A") _ [] _ 0).
  vm_compute. reflexivity.
Defined.


Lemma inner_toAdvance_length : length inner_toAdvance = 128%nat.
Proof. done. Qed.



(** ** Masks of newer candidates *)

Lemma insert_desc_perm c l : insert_desc c l ≡ₚ c :: l.
Proof.
  induction l as [|x l IH]; simpl; [done|].
  destruct (gen x <? gen c); [done|]. rewrite IH. apply Permutation_swap.
Qed.

Lemma sort_desc_perm l : sort_desc l ≡ₚ l.
Proof.
  induction l as [|x l IH]; simpl; [done|].
  rewrite insert_desc_perm. by f_equiv.
Qed.

Lemma insert_desc_sorted c l :
  StronglySorted gen_ge l -> StronglySorted gen_ge (insert_desc c l).
Proof.
  unfold gen_ge.
  induction 1 as [|x l Hl IH Hx]; simpl; [repeat constructor|].
  destruct (N.ltb_spec (gen x) (gen c)).
  - constructor; [by constructor|]. constructor; [lia|].
    eapply List.Forall_impl; [|exact Hx]. simpl. intros; lia.
  - constructor; [done|].
    apply List.Forall_forall. intros y Hy.
    apply list_elem_of_In in Hy. rewrite insert_desc_perm in Hy.
    apply elem_of_cons in Hy as [->|Hy]; [done|].
    rewrite List.Forall_forall in Hx. by apply Hx, list_elem_of_In.
Qed.

Lemma sort_desc_sorted l : StronglySorted gen_ge (sort_desc l).
Proof.
  induction l as [|x l IH]; simpl; [constructor|]. by apply insert_desc_sorted.
Qed.







(** ** Candidates outside the working set *)









Section MergeExt.
Context {Sess : Type} `{IndexSession Sess}.
Variable terms_cmp : str8_t -> str8_t -> Z.
Variable MaxDocIDValue : docid_t.
Variables coll coll' : MergeCandidatesCollection.
Hypothesis registries :
  forall k, scanner_registry_for coll' k = scanner_registry_for coll k.







End MergeExt.

Section MaskOnly.
Context {Sess : Type} `{IndexSession Sess}.
Variable terms_cmp : str8_t -> str8_t -> Z.
Variable MaxDocIDValue : docid_t.


End MaskOnly.


(** The terms of a mask-only candidate are not merged, and its mask
    removes document 30 of the older candidate. *)
Example mask_only_candidate_run :
  ref_merge "A"
    [ref_candidate 1 "A" [("apple", [ref_doc 10 1; ref_doc 30 1])] [];
     ref_mask_only 2 [30]] 0
  = Ret ([("apple", {| documents := 1; chunk := (0, 1) |})], [[ref_doc 10 1]]).
Proof. vm_compute. reflexivity. Qed.

(** ** The sentinel document id *)

(** X5: the re-encoding of a single candidate (lines 172-207) aborts when
    its decoder yields the sentinel document id, whatever the registry
    masks. *)
Lemma reencode_aborts_on_sentinel (MaxDocIDValue : docid_t) reg d pend acc :
  (exists x, x ∈ d :: pend /\ doc_id x = MaxDocIDValue) ->
  reencode MaxDocIDValue reg d pend acc = Aborted.
Proof.
  intros (x & Hin & Hx). rewrite reencode_eq.
  replace (existsb _ _) with true; [done|]. symmetry. apply existsb_exists.
  exists x. split; [by apply list_elem_of_In|by apply N.eqb_eq].
Qed.

Lemma reencode_aborts_on_sentinel_witness :
  reencode ref_MaxDocIDValue [[5]] (ref_doc 5 1) [ref_doc ref_MaxDocIDValue 1] (0, [])
  = Aborted.
Proof.
  apply reencode_aborts_on_sentinel. exists (ref_doc ref_MaxDocIDValue 1).
  split; [|reflexivity]. apply elem_of_cons. right. apply elem_of_cons. by left.
Defined.

(** C8: a single candidate whose decoder yields the sentinel document id
    makes [merge] abort, but in the mixed-codec path of several candidates
    the same decoder is merged and the sentinel is encoded as a document:
    there is no assertion at lines 293-316. *)
Theorem slow_path_encodes_sentinel :
  ref_merge "A" [ref_candidate 1 "B" [("x", [ref_doc ref_MaxDocIDValue 1])] []] 0
    = Aborted /\
  ref_merge "A"
    [ref_candidate 2 "A" [("x", [ref_doc 5 2])] [];
     ref_candidate 1 "B" [("x", [ref_doc ref_MaxDocIDValue 1])] []] 0
    = Ret ([("x", {| documents := 2; chunk := (0, 2) |})],
           [[ref_doc 5 2; ref_doc ref_MaxDocIDValue 1]]).
Proof. split; vm_compute; reflexivity. Qed.

(** ** More than 255 candidates at one term *)



Example ref_selection_run :
  select lex_cmp
    (active_entries 0 (candidates (commit (collection_of (ref_many 129 "B")))))
    (replicate 129 0)
  = Ret (ref_selection 129 "B").
Proof. vm_compute. reflexivity. Qed.

(** C10: 129 candidates of a codec other than the output's that share a
    term make [merge] abort on the bound of 128 decoders; with 256 such
    candidates the 8-bit counter [toAdvanceCnt] has wrapped to 0, no
    decoder is created, nothing aborts and the term is not written. *)
Theorem decoder_limit_missed_after_wrap :
  ref_merge "A" (ref_many 129 "B") 0 = Aborted /\
  ref_merge "A" (ref_many 256 "B") 0 = Ret ([], []).
Proof. split; vm_compute; reflexivity. Qed.

(** C3: with 257 candidates at the term "a" the first iteration advances
    one candidate only, the one [toAdvance[0]] names after the 8-bit
    counter has wrapped, and 256 candidates are left at "a"; with 256
    candidates the counter is 0, the term is not written although every
    candidate holds a document for it, and 256 candidates are advanced;
    with 255 candidates all of them are advanced and the term is written
    once. *)
Theorem advance_misses_candidates_after_wrap :
  ref_first_step "A" (ref_many 257 "A") = Ret (Some 256%nat) /\
  ref_merge "A" (ref_many 256 "A") 0 = Ret ([], []) /\
  ref_first_step "A" (ref_many 255 "A") = Ret None /\
  (r ← ref_merge "A" (ref_many 255 "A") 0; mret r.1)
    = Ret [("a", {| documents := 255; chunk := (0, 255) |})].
Proof. split_and!; vm_compute; reflexivity. Qed.

(** ** The selection loop and its 8-bit counter *)

Lemma mod_256_succ (n : N) :
  (n + 1) mod 256 = if n mod 256 =? 255 then 0 else n mod 256 + 1.
Proof.
  pose proof (N.mod_lt n 256 ltac:(done)) as Hlt.
  pose proof (N.div_mod n 256 ltac:(done)) as Hn.
  destruct (N.eqb_spec (n mod 256) 255) as [E|NE].
  - symmetry. apply (N.mod_unique _ _ (n / 256 + 1)); lia.
  - symmetry. apply (N.mod_unique _ _ (n / 256)); lia.
Qed.

Lemma last_write_succ (n s : N) :
  s < N.min (n + 1) 256 ->
  last_write (n + 1) s = if s =? n mod 256 then n else last_write n s.
Proof.
  intros Hs. unfold last_write. rewrite mod_256_succ.
  pose proof (N.mod_lt n 256 ltac:(done)) as Hlt.
  pose proof (N.div_mod n 256 ltac:(done)) as Hn.
  assert (n mod 256 <= n) by (apply N.Div0.mod_le).
  destruct (N.eqb_spec (n mod 256) 255) as [E|NE].
  - rewrite E. destruct (N.ltb_spec s 0) as [|_]; [lia|].
    destruct (N.eqb_spec s 255) as [->|Hne]; [lia|].
    destruct (N.ltb_spec s 255); lia.
  - destruct (N.eqb_spec s (n mod 256)) as [->|Hne].
    + destruct (N.ltb_spec (n mod 256) (n mod 256 + 1)); lia.
    + destruct (N.ltb_spec s (n mod 256 + 1)), (N.ltb_spec s (n mod 256)); lia.
Qed.

Lemma last_write_lt (n s : N) :
  s < N.min n 256 -> last_write n s < n.
Proof.
  intros Hs. unfold last_write.
  pose proof (N.mod_lt n 256 ltac:(done)) as Hlt.
  assert (n mod 256 <= n) by (apply N.Div0.mod_le).
  destruct (N.ltb_spec s (n mod 256)); [lia|].
  destruct (N.leb_spec 256 n) as [Hbig|Hsmall].
  - pose proof (N.div_mod n 256 ltac:(done)) as Hn.
    assert (1 <= n / 256) by (apply N.div_le_lower_bound; lia).
    set (q := n / 256) in *. set (c := n mod 256) in *. clearbody q c. lia.
  - rewrite N.mod_small in * by done. lia.
Qed.

Lemma slots_hold_one ta (i : N) :
  (0 < length ta)%nat -> slots_hold (<[0%nat := i]> ta) [i].
Proof.
  intros Hta s Hs. simpl in Hs. assert (s = 0) as -> by lia.
  by rewrite list_lookup_insert_eq.
Qed.

Lemma slots_hold_snoc ta W (i : N) :
  slots_hold ta W ->
  (N.to_nat (N.of_nat (length W) mod 256) < length ta)%nat ->
  slots_hold (<[N.to_nat (N.of_nat (length W) mod 256) := i]> ta) (W ++ [i]).
Proof.
  intros Hold Hta s Hs. rewrite length_app in *. simpl length in *.
  replace (N.of_nat (length W + 1)) with (N.of_nat (length W) + 1) in * by lia.
  set (n := N.of_nat (length W)) in *.
  rewrite last_write_succ by done.
  destruct (N.eqb_spec s (n mod 256)) as [->|Hne].
  - rewrite list_lookup_insert_eq by done. unfold n. rewrite Nat2N.id.
    symmetry. by apply list_lookup_middle.
  - rewrite list_lookup_insert_ne by lia.
    assert (Hs' : s < N.min n 256).
    { destruct (N.eq_dec s n) as [->|]; [|lia].
      destruct (N.leb_spec 256 n); [lia|]. rewrite N.mod_small in Hne by done. done. }
    rewrite Hold by done. pose proof (last_write_lt n s Hs').
    rewrite lookup_app_l by lia. done.
Qed.

Lemma dec8_slots_read (cnt : N) : cnt < 256 -> dec8 cnt = slots_read cnt - 1.
Proof.
  intros Hc. unfold dec8, slots_read. destruct (N.eqb_spec cnt 0) as [->|Hne]; [done|].
  replace (cnt + 255) with (cnt - 1 + 1 * 256) by lia.
  rewrite N.Div0.mod_add. apply N.mod_small. lia.
Qed.

(** The slots that are read hold the last writes, in the order in which
    they were made. *)
Lemma slots_hold_take ta W :
  slots_hold ta W -> W <> [] ->
  (N.to_nat (slots_read (N.of_nat (length W) mod 256)) <= length ta)%nat ->
  take (N.to_nat (slots_read (N.of_nat (length W) mod 256))) ta =
  drop (length W - N.to_nat (slots_read (N.of_nat (length W) mod 256))) W /\
  (N.to_nat (slots_read (N.of_nat (length W) mod 256)) <= length W)%nat.
Proof.
  intros Hold HW Hta. unfold slots_hold in Hold.
  remember (N.of_nat (length W)) as n eqn:En.
  assert (0 < n) by (destruct W; simpl in *; [done|lia]).
  pose proof (N.mod_lt n 256 ltac:(done)) as Hlt.
  assert (Hmod : n mod 256 <= n) by (apply N.Div0.mod_le).
  assert (Hzero : n mod 256 = 0 -> 256 <= n).
  { intros E. destruct (N.leb_spec 256 n); [done|].
    rewrite N.mod_small in E by done. lia. }
  unfold last_write in Hold. unfold slots_read in *.
  set (c := n mod 256) in *. clearbody c.
  assert (Hread : (if c =? 0 then 256 else c) <= N.min n 256).
  { destruct (N.eqb_spec c 0) as [E|NE]; [specialize (Hzero E)|]; lia. }
  remember (if c =? 0 then 256 else c) as r eqn:Hr.
  split; [|lia].
  apply list_eq. intros k.
  destruct (decide (k < N.to_nat r)%nat) as [Hk|Hk].
  - rewrite lookup_take_lt, lookup_drop by done.
    specialize (Hold (N.of_nat k)). rewrite Nat2N.id in Hold. rewrite Hold by lia.
    f_equal.
    destruct (N.eqb_spec c 0) as [E|NE].
    + specialize (Hzero E). subst c.
      destruct (N.ltb_spec (N.of_nat k) 0) as [|_]; lia.
    + destruct (N.ltb_spec (N.of_nat k) c); lia.
  - rewrite lookup_take_ge by lia. symmetry. apply lookup_ge_None.
    rewrite length_drop. lia.
Qed.

Lemma wf_entry_inv tc :
  wf_entry tc ->
  exists p it a,
    terms (candidate tc) = Some (p :: it) /\ ap (candidate tc) = Some a /\
    candidate_cur tc = Ret p /\ candidate_ap tc = Ret a /\ cur_term tc = p.1.
Proof.
  unfold wf_entry, is_active, candidate_cur, candidate_ap, cur_term.
  destruct (terms (candidate tc)) as [[|p it]|], (ap (candidate tc)) as [a|];
    try done.
  intros _. by exists p, it, a.
Qed.

Section Selection.
Variable terms_cmp : str8_t -> str8_t -> Z.

Lemma scan_nonempty i rest W m : W <> [] -> (scan terms_cmp i rest W m).1 <> [].
Proof.
  revert i W m. induction rest as [|tc rest IH]; intros i W m HW; simpl; [done|].
  destruct (_ <? _)%Z; [by apply IH|].
  destruct (_ =? _)%Z; apply IH; [by destruct W|done].
Qed.

Lemma scan_positions i rest W m :
  StronglySorted N.lt W -> Forall (fun w => w < i) W ->
  StronglySorted N.lt (scan terms_cmp i rest W m).1 /\
  Forall (fun w => w < i + N.of_nat (length rest)) (scan terms_cmp i rest W m).1.
Proof.
  revert i W m. induction rest as [|tc rest IH]; intros i W m Hs Hlt; simpl.
  - split; [done|]. eapply Forall_impl; [done|]. simpl. intros; lia.
  - replace (i + N.of_nat (S (length rest)))
      with (i + 1 + N.of_nat (length rest)) by lia.
    destruct (_ <? _)%Z; [|destruct (_ =? _)%Z]; apply IH.
    + repeat constructor.
    + constructor; [lia|constructor].
    + clear IH. induction Hs as [|w W HW IHW Hw]; simpl.
      * repeat constructor.
      * apply Forall_cons in Hlt as [Hwi Hlt]. constructor; [by apply IHW|].
        apply List.Forall_app. split; [done|]. constructor; [done|constructor].
    + apply Forall_app. split.
      * eapply Forall_impl; [done|]. simpl. intros; lia.
      * constructor; [lia|constructor].
    + done.
    + eapply Forall_impl; [done|]. simpl. intros; lia.
Qed.

Lemma select_loop_scan rest i (W : list N) sel :
  Forall wf_entry rest -> W <> [] ->
  toAdvanceCnt sel = N.of_nat (length W) mod 256 ->
  slots_hold (toAdvance sel) W ->
  (length W + length rest <= length (toAdvance sel))%nat
  \/ (256 <= length (toAdvance sel))%nat ->
  exists sel',
    select_loop terms_cmp i rest sel = Ret sel' /\
    (selected sel').1 = (scan terms_cmp i rest W (selected sel).1).2 /\
    toAdvanceCnt sel'
      = N.of_nat (length (scan terms_cmp i rest W (selected sel).1).1) mod 256 /\
    slots_hold (toAdvance sel') (scan terms_cmp i rest W (selected sel).1).1 /\
    length (toAdvance sel') = length (toAdvance sel).
Proof.
  revert i W sel.
  induction rest as [|tc rest IH]; intros i W sel Hwf HW Hcnt Hold Hlen.
  - exists sel. by split_and!.
  - apply Forall_cons in Hwf as [Htc Hwf].
    destruct (wf_entry_inv tc Htc) as (p & it & a & _ & _ & Hcur & Hap & Hterm).
    assert (Hslot : (N.to_nat (N.of_nat (length W) mod 256) < length (toAdvance sel))%nat).
    { pose proof (N.mod_lt (N.of_nat (length W)) 256 ltac:(done)).
      pose proof (N.Div0.mod_le (N.of_nat (length W)) 256).
      simpl in Hlen. lia. }
    assert (Hpos : (0 < length (toAdvance sel))%nat) by lia.
    simpl select_loop. unfold select_step. rewrite Hcur, bind_Ret_l.
    simpl scan. rewrite Hterm.
    destruct (terms_cmp p.1 (selected sel).1 <? 0)%Z.
    + (* a new selected term *)
      rewrite Hap, bind_Ret_l.
      assert (Hs : array_set (toAdvance sel) 0 i = Ret (<[0%nat := i]> (toAdvance sel))).
      { apply array_set_Ret. split; [simpl; lia|done]. }
      rewrite Hs, !bind_Ret_l.
      edestruct (IH (i + 1) [i]) as (sel' & Hrun & Hsel & Hc & Hh & Hl);
        [done|done| | | |exists sel'; split_and!; [exact Hrun|exact Hsel|exact Hc|exact Hh|]].
      * done.
      * simpl. by apply slots_hold_one.
      * simpl. rewrite length_insert. simpl in Hlen. destruct W; [done|].
        simpl in Hlen. lia.
      * simpl in Hl. by rewrite length_insert in Hl.
    + destruct (terms_cmp p.1 (selected sel).1 =? 0)%Z.
      * (* one more candidate at the selected term *)
        assert (Hsame : exists same,
                  (if sameCODEC sel
                   then a0 ← candidate_ap tc;
                        mret (String.eqb (codec_identifier a0) (codec sel))
                   else mret false) = Ret same).
        { destruct (sameCODEC sel); [rewrite Hap|]; eauto. }
        destruct Hsame as [same ->]. rewrite bind_Ret_l.
        assert (Hs : array_set (toAdvance sel) (toAdvanceCnt sel) i
                     = Ret (<[N.to_nat (toAdvanceCnt sel) := i]> (toAdvance sel))).
        { apply array_set_Ret. rewrite Hcnt. done. }
        rewrite Hs, !bind_Ret_l.
        edestruct (IH (i + 1) (W ++ [i])) as (sel' & Hrun & Hsel & Hc & Hh & Hl);
          [done|by destruct W| | |
          |exists sel'; split_and!; [exact Hrun|exact Hsel|exact Hc|exact Hh|]].
        -- simpl. rewrite length_app, Hcnt. simpl.
           rewrite N.Div0.add_mod_idemp_l. f_equal. lia.
        -- simpl. rewrite Hcnt. by apply slots_hold_snoc.
        -- simpl. rewrite length_insert, length_app. simpl in *. lia.
        -- simpl in Hl. by rewrite length_insert in Hl.
      * rewrite bind_Ret_l.
        destruct (IH (i + 1) W sel) as (sel' & Hrun & Hsel & Hc & Hh & Hl);
          [done|done|done|done|simpl in Hlen; lia|].
        by exists sel'.
Qed.

End Selection.

(** ** Advancing the selected candidates *)

Lemma advance_at_nil i l : advance_at i [] l = l.
Proof. by destruct l. Qed.

Lemma StronglySorted_snoc_lt (T : list N) (t : N) :
  StronglySorted N.lt (T ++ [t]) -> Forall (fun x => x < t) T.
Proof.
  induction T as [|x T IH]; simpl; [constructor|].
  intros Hs. apply StronglySorted_inv in Hs as [Hs Hx]. constructor; [|by apply IH].
  rewrite List.Forall_forall in Hx. apply Hx, in_or_app. right. by left.
Qed.

Lemma StronglySorted_app_l (T1 T2 : list N) :
  StronglySorted N.lt (T1 ++ T2) -> StronglySorted N.lt T1.
Proof.
  induction T1 as [|x T1 IH]; simpl; [constructor|].
  intros Hs. apply StronglySorted_inv in Hs as [Hs Hx]. constructor; [by apply IH|].
  rewrite List.Forall_forall in *. intros y Hy. apply Hx, in_or_app. by left.
Qed.

Lemma advance_at_snoc i (T : list N) pre1 tc pre2 :
  StronglySorted N.lt (T ++ [i + N.of_nat (length pre1)]) ->
  Forall (fun x => i <= x) T ->
  advance_at i (T ++ [i + N.of_nat (length pre1)]) (pre1 ++ tc :: pre2) =
  advance_at i T pre1 ++ advance_entry_terms tc ++ pre2.
Proof.
  revert i T. induction pre1 as [|x pre1 IH]; intros i T Hs Hge.
  - simpl in *. rewrite N.add_0_r in *.
    pose proof (StronglySorted_snoc_lt _ _ Hs) as Hlt.
    destruct T as [|t T].
    + simpl. by rewrite N.eqb_refl, advance_at_nil.
    + apply Forall_cons in Hlt as [? _]. apply Forall_cons in Hge as [? _]. lia.
  - simpl length in *.
    replace (i + N.of_nat (S (length pre1))) with (i + 1 + N.of_nat (length pre1))
      in * by lia.
    destruct T as [|t T].
    + simpl. destruct (N.eqb_spec (i + 1 + N.of_nat (length pre1)) i); [lia|].
      specialize (IH (i + 1) []). simpl in IH. rewrite IH; [|done|done].
      by rewrite advance_at_nil.
    + simpl in Hs. apply StronglySorted_inv in Hs as [Hs Ht].
      apply Forall_cons in Hge as [Hti Hge]. simpl.
      destruct (N.eqb_spec t i) as [->|Hne].
      * rewrite IH; [by rewrite <-app_assoc|done|].
        apply List.Forall_app in Ht as [Ht _].
        apply Forall_forall. rewrite List.Forall_forall in Ht.
        intros y Hy%list_elem_of_In%Ht. lia.
      * rewrite (app_comm_cons T). rewrite IH; [done| |].
        -- simpl. by constructor.
        -- constructor; [lia|].
           apply List.Forall_app in Ht as [Ht _].
           apply Forall_forall. rewrite List.Forall_forall in Ht.
           intros y Hy%list_elem_of_In%Ht. lia.
Qed.

Lemma advance_terms_unfold k ta all :
  advance_terms k ta all =
  (i ← defined (ta !! k);
   tc ← array_get all i;
   it ← defined (terms (candidate tc));
   r ← match it with
       | [] => Undefined
       | _ :: it' =>
           if done it' then
             if decide (length all = 1%nat) then mret None
             else mret (Some (array_remove all i))
           else
             all' ← array_set all i (advance_candidate tc it'); mret (Some all')
       end;
   match r, k with
   | None, _ => mret None
   | Some all', O => mret (Some all')
   | Some all', S k' => advance_terms k' ta all'
   end).
Proof. by destruct k. Qed.

(** The [do ... while] of lines 376-389 advances the candidates at the
    positions that the slots [0 .. k] of [toAdvance] name, and removes
    those whose iterator is then exhausted. *)
Lemma advance_terms_spec k ta (T : list N) pre post :
  take (S k) ta = T -> length T = S k -> StronglySorted N.lt T ->
  Forall (fun t => t < N.of_nat (length pre)) T -> Forall wf_entry pre ->
  advance_terms k ta (pre ++ post) = Ret (result_of (advance_at 0 T pre ++ post)).
Proof.
  revert T pre post. induction k as [|k IH]; intros T pre post Htake Hlen Hs Hlt Hwf.
  all: destruct (exists_last (l := T)) as (T' & t & ->); [by destruct T|].
  all: rewrite length_app in Hlen; simpl in Hlen.
  all: apply take_snoc_inv in Htake as [Hk HtakeT]; [|lia].
  all: pose proof (StronglySorted_snoc_lt _ _ Hs) as HltT.
  all: pose proof (StronglySorted_app_l _ _ Hs) as HsT.
  all: apply Forall_app in Hlt as [Hlt' Ht]; rewrite Forall_singleton in Ht.
  all: destruct (lookup_lt_is_Some_2 pre (N.to_nat t)) as [tc Htc]; [lia|].
  all: destruct (list_elem_of_split_length _ _ _ Htc) as (pre1 & pre2 & -> & Hpre1).
  all: assert (t = 0 + N.of_nat (length pre1)) as -> by lia.
  all: rewrite advance_at_snoc; [|done|apply Forall_forall; intros; lia].
  all: apply Forall_app in Hwf as [Hwf1 Hwf2]; apply Forall_cons in Hwf2 as [Hwtc Hwf2].
  all: destruct (wf_entry_inv tc Hwtc) as (p & it & a & Hterms & _ & _ & _ & _).
  all: rewrite advance_terms_unfold, Hk, defined_Some, bind_Ret_l.
  all: rewrite <-!app_assoc; simpl app.
  all: unfold array_get; rewrite N.add_0_l, Nat2N.id, list_lookup_middle by done.
  all: rewrite defined_Some, bind_Ret_l, Hterms, defined_Some, bind_Ret_l.
  all: unfold advance_entry_terms; rewrite Hterms.
  all: destruct (done it) eqn:Edone.
  - destruct T'; [|done]. rewrite advance_at_nil.
    case_decide as Hone.
    + rewrite length_app in Hone. simpl in Hone. rewrite length_app in Hone.
      destruct pre1, pre2, post; simpl in *; first [done|lia].
    + rewrite !bind_Ret_l. unfold array_remove. rewrite Nat2N.id, delete_middle.
      rewrite length_app in Hone. simpl in Hone. rewrite length_app in Hone.
      destruct pre1, pre2, post; simpl in *; first [done|lia].
  - destruct T'; [|done]. rewrite advance_at_nil.
    unfold array_set. rewrite Nat2N.id.
    rewrite decide_True by (rewrite length_app; simpl; lia).
    rewrite !bind_Ret_l.
    replace (length pre1) with (length pre1 + 0)%nat at 1 by lia.
    rewrite insert_app_r. simpl. by destruct pre1.
  - case_decide as Hone.
    + rewrite length_app in Hone. simpl in Hone. rewrite length_app in Hone.
      destruct pre1, pre2, post; simpl in *; try lia.
      destruct T'; simpl in *; [lia|]. apply Forall_cons in HltT as [? _]. lia.
    + rewrite !bind_Ret_l. unfold array_remove. rewrite Nat2N.id, delete_middle.
      rewrite IH with (T := T'); [done|done|lia|done| |done].
      eapply Forall_impl; [exact HltT|]. simpl. intros; lia.
  - unfold array_set. rewrite Nat2N.id.
    rewrite decide_True by (rewrite length_app; simpl; lia).
    rewrite !bind_Ret_l.
    replace (length pre1) with (length pre1 + 0)%nat at 1 by lia.
    rewrite insert_app_r. simpl.
    rewrite IH with (T := T'); [done|done|lia|done| |done].
    eapply Forall_impl; [exact HltT|]. simpl. intros; lia.
Qed.

(** ** The outer loop runs to completion *)

Lemma completes_Ret {A} (a : A) : completes (Ret a).
Proof. right. by exists a. Qed.

Lemma completes_bind {A B} (m : outcome A) (k : A -> outcome B) :
  completes m -> (forall a, m = Ret a -> completes (k a)) -> completes (m ≫= k).
Proof. intros [->|[a ->]] Hk; [by left|]. by apply Hk. Qed.

Lemma reencode_completes (MaxDocIDValue : docid_t) reg d pend acc :
  completes (reencode MaxDocIDValue reg d pend acc).
Proof.
  rewrite reencode_eq. destruct (existsb _ _); [by left|apply completes_Ret].
Qed.

Lemma merge_decoders_returns fuel decoders ta acc :
  decoders <> [] -> (length decoders <= length ta)%nat ->
  N.of_nat (length ta) < 65536 -> (decoders_fuel decoders < fuel)%nat ->
  exists r, merge_decoders fuel decoders ta acc = Ret r.
Proof.
  revert decoders ta acc.
  induction fuel as [|fuel IH]; intros decoders ta acc Hne Hlen Hta Hfuel; [lia|].
  destruct decoders as [|e0 rest]; [done|]. clear Hne.
  destruct (decoders_step_spec e0 rest ta acc Hlen Hta) as (ta' & e & _ & Hn & Hstep).
  set (m := lowest_id (head_id e0) rest) in *.
  rewrite (merge_decoders_step _ _ _ _ _ _ _ Hstep). clear Hstep.
  destruct (advance_all m (e0 :: rest)) as [|d1 ds] eqn:Eadv; cbn [result_of]; [eauto|].
  rewrite <-Eadv.
  pose proof (advance_all_fuel m (e0 :: rest)) as Hf.
  pose proof (tied_indices_lowest e0 rest) as Htied. fold m in Htied.
  pose proof (advance_all_length m (e0 :: rest)) as Hl'.
  apply IH; [by rewrite Eadv|lia|by rewrite Hn|].
  destruct (tied_indices m 0 (e0 :: rest)); [done|]. simpl length in Hf. lia.
Qed.

(** X4: the document-level merge of the mixed-codec path (lines 291-359)
    has no assertion: over at most 128 decoders it returns normally
    whatever document ids the decoders yield, in any order and the
    sentinel included. *)
Theorem slow_path_never_aborts (decoders : list decoder_entry)
    (acc : N * list document) :
  decoders <> [] -> N.of_nat (length decoders) <= 128 ->
  exists r,
    merge_decoders (S (decoders_fuel decoders)) decoders inner_toAdvance acc = Ret r.
Proof.
  intros Hne Hlen. apply merge_decoders_returns;
    [done|rewrite inner_toAdvance_length; lia|by rewrite inner_toAdvance_length|lia].
Qed.

(** Two decoders that yield the sentinel, the second one after a lower
    id it yields again. *)
Lemma slow_path_never_aborts_witness :
  exists r,
    merge_decoders 5
      [({| curDocument := ref_doc ref_MaxDocIDValue 2; pending := [] |}, []);
       ({| curDocument := ref_doc 7 1;
           pending := [ref_doc ref_MaxDocIDValue 1; ref_doc 7 1] |}, [])]
      inner_toAdvance (0, [])
    = Ret r.
Proof.
  apply (slow_path_never_aborts
           [({| curDocument := ref_doc ref_MaxDocIDValue 2; pending := [] |}, []);
            ({| curDocument := ref_doc 7 1;
                pending := [ref_doc ref_MaxDocIDValue 1; ref_doc 7 1] |}, [])]
           (0, [])).
  - discriminate.
  - vm_compute. discriminate.
Defined.

(** *** The working set after an advance *)

Lemma advance_entry_terms_wf tc :
  wf_entry tc -> Forall wf_entry (advance_entry_terms tc).
Proof.
  intros Hwf. destruct (wf_entry_inv tc Hwf) as (p & it & a & Ht & Ha & _).
  unfold advance_entry_terms. rewrite Ht.
  destruct (done it) eqn:E; repeat constructor.
  unfold wf_entry, is_active. simpl. by rewrite Ha, E.
Qed.

Lemma advance_entry_terms_idx tc tc' :
  tc' ∈ advance_entry_terms tc -> idx tc' = idx tc.
Proof.
  unfold advance_entry_terms.
  destruct (terms (candidate tc)) as [[|p it]|]; try by intros ?%elem_of_nil.
  destruct (done it); [by intros ?%elem_of_nil|].
  by intros ->%list_elem_of_singleton.
Qed.

Lemma advance_at_Forall (P : tracked_candidate -> Prop) i T l :
  (forall tc, P tc -> Forall P (advance_entry_terms tc)) ->
  Forall P l -> Forall P (advance_at i T l).
Proof.
  intros HP. revert i T. induction l as [|tc l IH]; intros i T Hl; [done|].
  apply Forall_cons in Hl as [Htc Hl]. simpl.
  destruct T as [|t T]; [by constructor|].
  destruct (t =? i).
  - apply Forall_app. split; [by apply HP|by apply IH].
  - constructor; [done|by apply IH].
Qed.

Lemma advance_at_length i T l : (length (advance_at i T l) <= length l)%nat.
Proof.
  revert i T. induction l as [|tc l IH]; intros i T; [done|]. simpl.
  destruct T as [|t T]; [done|].
  destruct (t =? i).
  - rewrite length_app. specialize (IH (i + 1) T).
    assert (length (advance_entry_terms tc) <= 1)%nat; [|simpl; lia].
    unfold advance_entry_terms.
    destruct (terms (candidate tc)) as [[|p it]|]; simpl; try lia.
    destruct (done it); simpl; lia.
  - specialize (IH (i + 1) (t :: T)). simpl. lia.
Qed.

Lemma merge_fuel_app l1 l2 :
  merge_fuel (l1 ++ l2) = (merge_fuel l1 + merge_fuel l2)%nat.
Proof.
  unfold merge_fuel. rewrite map_app. induction (map terms_left l1) as [|x xs IH]; simpl; lia.
Qed.

Lemma advance_entry_terms_fuel tc :
  wf_entry tc -> (merge_fuel (advance_entry_terms tc) + 1 <= terms_left tc)%nat.
Proof.
  intros Hwf. destruct (wf_entry_inv tc Hwf) as (p & it & a & Ht & _).
  unfold advance_entry_terms, terms_left. rewrite Ht.
  destruct (done it); unfold merge_fuel, terms_left; simpl; lia.
Qed.

(** Every advance passes one term of each advanced iterator. *)
Lemma advance_at_fuel i (T : list N) l :
  StronglySorted N.lt T ->
  Forall (fun t => i <= t < i + N.of_nat (length l)) T -> Forall wf_entry l ->
  (merge_fuel (advance_at i T l) + length T <= merge_fuel l)%nat.
Proof.
  revert i T. induction l as [|tc l IH]; intros i T Hs Hin Hwf.
  - destruct T as [|t T]; [simpl; lia|].
    apply Forall_cons in Hin as [Ht _]. simpl in Ht. lia.
  - apply Forall_cons in Hwf as [Htc Hwf]. simpl advance_at.
    destruct T as [|t T]; [simpl; lia|].
    apply StronglySorted_inv in Hs as [Hs Hlt].
    apply Forall_cons in Hin as [Ht Hin]. simpl length in *.
    change (merge_fuel (tc :: l)) with (terms_left tc + merge_fuel l)%nat.
    pose proof (advance_entry_terms_fuel tc Htc).
    destruct (N.eqb_spec t i) as [->|Hne].
    + rewrite merge_fuel_app. specialize (IH (i + 1) T Hs).
      enough (merge_fuel (advance_at (i + 1) T l) + length T <= merge_fuel l)%nat by lia.
      apply IH; [|done].
      apply Forall_forall. rewrite Forall_forall in Hin. rewrite List.Forall_forall in Hlt.
      intros x Hx. specialize (Hin x Hx). apply list_elem_of_In, Hlt in Hx. lia.
    + change (merge_fuel (tc :: ?l')) with (terms_left tc + merge_fuel l')%nat.
      enough (merge_fuel (advance_at (i + 1) (t :: T) l) + length (t :: T)
              <= merge_fuel l)%nat by (simpl in *; lia).
      apply IH; [by constructor| |done].
      constructor; [lia|].
      apply Forall_forall. rewrite Forall_forall in Hin. rewrite List.Forall_forall in Hlt.
      intros x Hx. specialize (Hin x Hx). apply list_elem_of_In, Hlt in Hx. lia.
Qed.

(** *** One iteration *)

Lemma select_spec (terms_cmp : str8_t -> str8_t -> Z) tc0 rest ta :
  Forall wf_entry (tc0 :: rest) -> (length (tc0 :: rest) <= length ta)%nat ->
  exists sel,
    select terms_cmp (tc0 :: rest) ta = Ret sel /\
    (selected sel).1 = (scan terms_cmp 1 rest [0] (cur_term tc0)).2 /\
    toAdvanceCnt sel
      = N.of_nat (length (scan terms_cmp 1 rest [0] (cur_term tc0)).1) mod 256 /\
    slots_hold (toAdvance sel) (scan terms_cmp 1 rest [0] (cur_term tc0)).1 /\
    length (toAdvance sel) = length ta.
Proof.
  intros Hwf Hlen. apply Forall_cons in Hwf as [Htc Hwf]. simpl in Hlen.
  destruct (wf_entry_inv tc0 Htc) as (p & it & a & _ & _ & Hcur & Hap & Hterm).
  assert (Hs : array_set ta 0 0 = Ret (<[0%nat := 0]> ta)).
  { apply array_set_Ret. split; [simpl; lia|done]. }
  set (sel0 := {| toAdvanceCnt := 1; toAdvance := <[0%nat := 0]> ta; selected := p;
                  codec := codec_identifier a; sameCODEC := true |}).
  assert (Hsel0 : select terms_cmp (tc0 :: rest) ta = select_loop terms_cmp 1 rest sel0).
  { unfold select. change (array_get (tc0 :: rest) 0) with (Ret tc0).
    by rewrite bind_Ret_l, Hcur, bind_Ret_l, Hap, bind_Ret_l, Hs, bind_Ret_l. }
  rewrite Hsel0, Hterm.
  destruct (select_loop_scan terms_cmp rest 1 [0] sel0)
    as (sel & Hrun & Hsel & Hc & Hh & Hl); [done|done|done| | |].
  - apply slots_hold_one. lia.
  - left. simpl. rewrite length_insert. lia.
  - exists sel. split_and!; try done. simpl in Hl. by rewrite length_insert in Hl.
Qed.

(** The positions written since the counter was last set to 1 are in
    ascending order and name entries of the working set, and at least
    one is written. *)
Lemma scan_selected (terms_cmp : str8_t -> str8_t -> Z) tc0 rest :
  (scan terms_cmp 1 rest [0] (cur_term tc0)).1 <> [] /\
  StronglySorted N.lt (scan terms_cmp 1 rest [0] (cur_term tc0)).1 /\
  Forall (fun w => w < N.of_nat (length (tc0 :: rest)))
    (scan terms_cmp 1 rest [0] (cur_term tc0)).1.
Proof.
  split; [by apply scan_nonempty|].
  destruct (scan_positions terms_cmp 1 rest [0] (cur_term tc0)) as [Hs Hlt].
  - repeat constructor.
  - by repeat constructor.
  - split; [done|]. eapply Forall_impl; [exact Hlt|]. simpl. intros; lia.
Qed.

Lemma slots_hold_lookup ta W (L s : N) :
  slots_hold ta W -> Forall (fun w => w < L) W ->
  s < N.min (N.of_nat (length W)) 256 ->
  exists j, ta !! N.to_nat s = Some j /\ j ∈ W /\ j < L.
Proof.
  intros Hold HW Hs. rewrite (Hold s Hs).
  pose proof (last_write_lt _ _ Hs).
  destruct (lookup_lt_is_Some_2 W (N.to_nat (last_write (N.of_nat (length W)) s)))
    as [j Hj]; [lia|].
  exists j. split; [done|]. apply list_elem_of_lookup_2 in Hj. split; [done|].
  rewrite Forall_forall in HW. by apply HW.
Qed.

Lemma slots_hold_in ta W all :
  slots_hold ta W -> Forall (fun w => w < N.of_nat (length all)) W ->
  slots_in ta all (N.to_nat (N.of_nat (length W) mod 256)).
Proof.
  intros Hold HW s Hs.
  pose proof (N.mod_lt (N.of_nat (length W)) 256 ltac:(done)).
  pose proof (N.Div0.mod_le (N.of_nat (length W)) 256).
  destruct (slots_hold_lookup _ _ _ (N.of_nat s) Hold HW) as (j & Hj & _ & Hlt); [lia|].
  rewrite Nat2N.id in Hj. eauto.
Qed.

Section Completion.
Context {Sess : Type} `{IndexSession Sess}.
Variable terms_cmp : str8_t -> str8_t -> Z.
Variable MaxDocIDValue : docid_t.
Variable coll : MergeCandidatesCollection.

Lemma merge_participants_returns all ta i n acc :
  Forall wf_entry all -> Forall (has_registry coll) all -> slots_in ta all (i + n) ->
  exists ps, merge_participants coll all ta i n acc = Ret ps.
Proof.
  intros Hwf Hreg. revert i acc. induction n as [|n IH]; intros i acc Hs; simpl; [eauto|].
  destruct (Hs i) as (j & Hj & Hlt); [lia|]. rewrite Hj, defined_Some, bind_Ret_l.
  destruct (lookup_lt_is_Some_2 all (N.to_nat j)) as [tc Htc]; [lia|].
  unfold array_get. rewrite Htc, defined_Some, bind_Ret_l.
  apply list_elem_of_lookup_2 in Htc.
  rewrite Forall_forall in Hwf, Hreg.
  destruct (wf_entry_inv tc (Hwf _ Htc)) as (p & it & a & _ & _ & Hcur & Hap & _).
  destruct (Hreg _ Htc) as [reg Hr].
  rewrite Hcur, bind_Ret_l.
  assert (Hs' : slots_in ta all (S i + n)) by (intros s ?; apply Hs; lia).
  destruct (documents p.2 =? 0); [by apply IH|].
  rewrite Hap, bind_Ret_l, Hr, bind_Ret_l. by apply IH.
Qed.

Lemma new_decoders_returns all ta i n acc :
  Forall wf_entry all -> Forall (has_registry coll) all -> slots_in ta all (i + n) ->
  exists ds, new_decoders coll all ta i n acc = Ret ds.
Proof.
  intros Hwf Hreg. revert i acc. induction n as [|n IH]; intros i acc Hs; simpl; [eauto|].
  destruct (Hs i) as (j & Hj & Hlt); [lia|]. rewrite Hj, defined_Some, bind_Ret_l.
  destruct (lookup_lt_is_Some_2 all (N.to_nat j)) as [tc Htc]; [lia|].
  unfold array_get. rewrite Htc, defined_Some, bind_Ret_l.
  apply list_elem_of_lookup_2 in Htc.
  rewrite Forall_forall in Hwf, Hreg.
  destruct (wf_entry_inv tc (Hwf _ Htc)) as (p & it & a & _ & _ & Hcur & Hap & _).
  destruct (Hreg _ Htc) as [reg Hr].
  rewrite Hcur, bind_Ret_l.
  assert (Hs' : slots_in ta all (S i + n)) by (intros s ?; apply Hs; lia).
  destruct (documents p.2 =? 0); [by apply IH|].
  rewrite Hap, bind_Ret_l, Hr, bind_Ret_l. by apply IH.
Qed.

Lemma merge_group_completes isCODEC all sel (st : merge_locals) :
  Forall wf_entry all -> Forall (has_registry coll) all ->
  slots_in (toAdvance sel) all (N.to_nat (toAdvanceCnt sel)) ->
  completes (merge_group MaxDocIDValue coll isCODEC all sel st).
Proof.
  intros Hwf Hreg Hslots. unfold merge_group.
  destruct (N.eqb_spec (toAdvanceCnt sel) 1) as [E1|NE1].
  - destruct (Hslots 0%nat) as (j & Hj & Hlt); [lia|].
    destruct (lookup_lt_is_Some_2 all (N.to_nat j)) as [tc Htc]; [lia|].
    unfold array_get. change (N.to_nat 0) with 0%nat.
    rewrite Hj, defined_Some, bind_Ret_l.
    rewrite Htc, defined_Some, bind_Ret_l.
    apply list_elem_of_lookup_2 in Htc.
    rewrite Forall_forall in Hwf, Hreg.
    destruct (wf_entry_inv tc (Hwf _ Htc)) as (p & it & a & _ & _ & _ & Hap & _).
    destruct (Hreg _ Htc) as [reg Hr]. rewrite Hr, bind_Ret_l.
    destruct (_ && registry_empty reg).
    + destruct (_ =? 0); [apply completes_Ret|].
      rewrite Hap, bind_Ret_l. destruct (append_index_chunk _ _ _). apply completes_Ret.
    + destruct (_ =? 0); [apply completes_Ret|].
      rewrite Hap, bind_Ret_l. apply completes_bind; [apply reencode_completes|].
      intros [cap docs] _. destruct (end_term _). apply completes_Ret.
  - destruct (sameCODEC sel && _).
    + destruct (merge_participants_returns all (toAdvance sel) 0
                  (N.to_nat (toAdvanceCnt sel)) [] Hwf Hreg Hslots) as [ps ->].
      rewrite bind_Ret_l. destruct ps; [apply completes_Ret|].
      destruct (end_term _). apply completes_Ret.
    + destruct (new_decoders_returns all (toAdvance sel) 0
                  (N.to_nat (toAdvanceCnt sel)) [] Hwf Hreg Hslots) as [ds ->].
      rewrite bind_Ret_l. destruct ds as [|d ds]; [apply completes_Ret|].
      apply completes_bind.
      { unfold require. destruct (_ <=? 128); [apply completes_Ret|by left]. }
      intros [] Hle%require_Ret%N.leb_le.
      apply completes_bind.
      { right. apply merge_decoders_returns;
          [done|rewrite inner_toAdvance_length; lia
          |by rewrite inner_toAdvance_length|lia]. }
      intros [cap docs] _. destruct (end_term _). apply completes_Ret.
Qed.

End Completion.

Lemma scan_length (terms_cmp : str8_t -> str8_t -> Z) i rest W m :
  (length (scan terms_cmp i rest W m).1 <= length W + length rest)%nat.
Proof.
  revert i W m. induction rest as [|tc rest IH]; intros i W m; simpl; [lia|].
  destruct (_ <? _)%Z; [|destruct (_ =? _)%Z].
  - specialize (IH (i + 1) [i] (cur_term tc)). simpl in IH. lia.
  - specialize (IH (i + 1) (W ++ [i]) m). rewrite length_app in IH. simpl in IH. lia.
  - specialize (IH (i + 1) W m). lia.
Qed.

Lemma slots_read_le (n : N) : 0 < n -> 0 < slots_read (n mod 256) <= N.min n 256.
Proof.
  intros Hn. unfold slots_read.
  pose proof (N.mod_lt n 256 ltac:(done)).
  pose proof (N.Div0.mod_le n 256).
  assert (Hzero : n mod 256 = 0 -> 256 <= n).
  { intros E. destruct (N.leb_spec 256 n); [done|].
    rewrite N.mod_small in E by done. lia. }
  set (c := n mod 256) in *. clearbody c.
  destruct (N.eqb_spec c 0) as [E|NE]; [specialize (Hzero E)|]; lia.
Qed.

Lemma StronglySorted_app_r (T1 T2 : list N) :
  StronglySorted N.lt (T1 ++ T2) -> StronglySorted N.lt T2.
Proof.
  induction T1 as [|x T1 IH]; simpl; [done|].
  intros Hs. apply StronglySorted_inv in Hs as [Hs _]. by apply IH.
Qed.

Section Step.
Variable terms_cmp : str8_t -> str8_t -> Z.

Lemma tied_positions_spec all :
  all <> [] ->
  tied_positions terms_cmp all <> [] /\
  StronglySorted N.lt (tied_positions terms_cmp all) /\
  Forall (fun w => w < N.of_nat (length all)) (tied_positions terms_cmp all) /\
  (length (tied_positions terms_cmp all) <= length all)%nat.
Proof.
  destruct all as [|tc0 rest]; [done|]. intros _.
  destruct (scan_selected terms_cmp tc0 rest) as (Hne & Hs & Hlt).
  split_and!; try done.
  pose proof (scan_length terms_cmp 1 rest [0] (cur_term tc0)). simpl in *. lia.
Qed.

Lemma advanced_positions_spec all :
  all <> [] ->
  length (advanced_positions terms_cmp all)
    = N.to_nat (slots_read (N.of_nat (length (tied_positions terms_cmp all)) mod 256)) /\
  advanced_positions terms_cmp all <> [] /\
  StronglySorted N.lt (advanced_positions terms_cmp all) /\
  Forall (fun w => w < N.of_nat (length all)) (advanced_positions terms_cmp all) /\
  advanced_positions terms_cmp all ⊆ tied_positions terms_cmp all.
Proof.
  intros Hall. destruct (tied_positions_spec all Hall) as (Hne & Hs & Hlt & Hlen).
  unfold advanced_positions. set (W := tied_positions terms_cmp all) in *.
  assert (0 < N.of_nat (length W)) as Hpos by (destruct W; simpl; [done|lia]).
  pose proof (slots_read_le _ Hpos) as Hr.
  set (r := slots_read (N.of_nat (length W) mod 256)) in *.
  assert (Hl : length (drop (length W - N.to_nat r) W) = N.to_nat r)
    by (rewrite length_drop; lia).
  split_and!.
  - done.
  - intros E. rewrite E in Hl. simpl in Hl. lia.
  - rewrite <-(take_drop (length W - N.to_nat r) W) in Hs.
    by apply StronglySorted_app_r in Hs.
  - by apply Forall_drop.
  - apply subseteq_drop.
Qed.

End Step.

Section Loop.
Context {Sess : Type} `{IndexSession Sess}.
Variable terms_cmp : str8_t -> str8_t -> Z.
Variable MaxDocIDValue : docid_t.
Variable coll : MergeCandidatesCollection.

(** A term group appends at most one entry to the sink, for the selected
    term, and none when the 8-bit counter has wrapped to 0. *)
Lemma merge_group_terms_out isCODEC all sel (st st' : merge_locals) :
  merge_group MaxDocIDValue coll isCODEC all sel st = Ret st' ->
  terms_out st' = terms_out st \/
  (toAdvanceCnt sel <> 0 /\
   exists tctx, terms_out st' = terms_out st ++ [((selected sel).1, tctx)]).
Proof.
  destruct (N.eq_dec (toAdvanceCnt sel) 0) as [E0|NE0].
  - unfold merge_group. rewrite E0. simpl.
    destruct (sameCODEC sel && _); simpl; intros [= <-]; by left.
  - unfold merge_group, push_term. intros Hg.
    outcome_inv; simpl;
      try match goal with |- context [if ?b then _ else _] => destruct b end;
      eauto.
Qed.

Lemma has_registry_advance tc :
  has_registry coll tc -> Forall (has_registry coll) (advance_entry_terms tc).
Proof.
  intros Hreg. apply Forall_forall. intros tc' Hin%advance_entry_terms_idx.
  unfold has_registry. by rewrite Hin.
Qed.

(** One iteration of the outer loop ends, and leaves the working set with
    the entries at the advanced positions moved on. *)
Lemma merge_step_spec isCODEC flushFreq all ta (st : merge_locals) :
  all <> [] -> Forall wf_entry all -> Forall (has_registry coll) all ->
  (length all <= length ta)%nat ->
  merge_step terms_cmp MaxDocIDValue coll isCODEC flushFreq all ta st = Aborted \/
  exists ta' st',
    merge_step terms_cmp MaxDocIDValue coll isCODEC flushFreq all ta st
      = Ret (ta', st',
             result_of (advance_at 0 (advanced_positions terms_cmp all) all)) /\
    length ta' = length ta /\
    (terms_out st' = terms_out st \/
     (N.of_nat (length (tied_positions terms_cmp all)) mod 256 <> 0 /\
      exists tctx,
        terms_out st' = terms_out st ++ [(selected_term terms_cmp all, tctx)])).
Proof.
  intros Hall Hwf Hreg Hlen.
  destruct (tied_positions_spec terms_cmp all Hall) as (HW & HsW & HltW & HlenW).
  destruct (advanced_positions_spec terms_cmp all Hall) as (HlT & HT & HsT & HltT & _).
  destruct all as [|tc0 rest]; [done|]. clear Hall.
  destruct (select_spec terms_cmp tc0 rest ta Hwf Hlen)
    as (sel & Hsel & Hterm & Hcnt & Hold & Hta).
  change (scan terms_cmp 1 rest [0] (cur_term tc0)).1
    with (tied_positions terms_cmp (tc0 :: rest)) in *.
  change (scan terms_cmp 1 rest [0] (cur_term tc0)).2
    with (selected_term terms_cmp (tc0 :: rest)) in *.
  set (all := tc0 :: rest) in *. set (W := tied_positions terms_cmp all) in *.
  unfold merge_step. rewrite Hsel, bind_Ret_l.
  destruct (merge_group_completes MaxDocIDValue coll isCODEC all sel st Hwf Hreg)
    as [->|[st' Hg]]; [|by left|].
  { rewrite Hcnt. by apply slots_hold_in. }
  right. rewrite Hg, bind_Ret_l, flush_hint_id.
  assert (0 < N.of_nat (length W)) as Hpos by (destruct W; simpl; [done|lia]).
  pose proof (slots_read_le _ Hpos) as Hr.
  pose proof (N.mod_lt (N.of_nat (length W)) 256 ltac:(done)) as Hc.
  assert (Hk : S (N.to_nat (dec8 (toAdvanceCnt sel)))
               = N.to_nat (slots_read (N.of_nat (length W) mod 256))).
  { rewrite Hcnt, dec8_slots_read by done.
    destruct Hr as [Hr _]. revert Hr.
    generalize (slots_read (N.of_nat (length W) mod 256)). intros; lia. }
  destruct (slots_hold_take _ _ Hold HW) as [Htake _].
  { rewrite Hta. destruct Hr as [_ Hr]. revert Hr.
    generalize (slots_read (N.of_nat (length W) mod 256)). intros; lia. }
  assert (Htake' : take (S (N.to_nat (dec8 (toAdvanceCnt sel)))) (toAdvance sel)
                   = advanced_positions terms_cmp all) by (by rewrite Hk).
  pose proof (advance_terms_spec _ _ _ all [] Htake') as Ha.
  rewrite !app_nil_r in Ha. rewrite Ha; [|by rewrite Hk|done|done|done].
  rewrite bind_Ret_l. exists (toAdvance sel), st'. split_and!; [done|done|].
  apply merge_group_terms_out in Hg as [Hg|(Hnz & tctx & Hg)]; [by left|right].
  split; [by rewrite <-Hcnt|]. exists tctx. by rewrite <-Hterm.
Qed.

Lemma merge_loop_completes fuel isCODEC flushFreq all ta (st : merge_locals) :
  all <> [] -> Forall wf_entry all -> Forall (has_registry coll) all ->
  (length all <= length ta)%nat -> (merge_fuel all < fuel)%nat ->
  completes (merge_loop terms_cmp MaxDocIDValue fuel coll isCODEC flushFreq all ta st).
Proof.
  revert all ta st.
  induction fuel as [|fuel IH]; intros all ta st Hall Hwf Hreg Hlen Hfuel; [lia|].
  simpl.
  destruct (merge_step_spec isCODEC flushFreq all ta st Hall Hwf Hreg Hlen)
    as [->|(ta' & st' & -> & Hta & _)]; [by left|].
  rewrite bind_Ret_l.
  destruct (advanced_positions_spec terms_cmp all Hall) as (_ & HT & HsT & HltT & _).
  pose proof (advance_at_length 0 (advanced_positions terms_cmp all) all) as Hl.
  pose proof (advance_at_fuel 0 (advanced_positions terms_cmp all) all HsT) as Hf.
  destruct (advance_at 0 (advanced_positions terms_cmp all) all) as [|tc all'] eqn:Ea;
    cbn [result_of]; [apply completes_Ret|].
  rewrite <-Ea in *. apply IH.
  - by rewrite Ea.
  - apply advance_at_Forall; [apply advance_entry_terms_wf|done].
  - apply advance_at_Forall; [apply has_registry_advance|done].
  - lia.
  - destruct (advanced_positions terms_cmp all); [done|]. simpl length in Hf.
    enough (merge_fuel (advance_at 0 (n :: l) all) + S (length l) <= merge_fuel all)%nat
      by lia.
    apply Hf; [|done]. eapply Forall_impl; [exact HltT|]. simpl. intros; lia.
Qed.

End Loop.

Lemma active_entries_wf i cs : Forall wf_entry (active_entries i cs).
Proof.
  apply Forall_forall. intros tc Hin. by apply active_entries_idx in Hin as (_ & _ & ?).
Qed.

Lemma active_entries_has_registry coll :
  Forall (has_registry (commit coll)) (active_entries 0 (candidates (commit coll))).
Proof.
  apply Forall_forall. intros tc Hin.
  apply active_entries_idx in Hin as (Hc & _ & _).
  apply lookup_lt_Some in Hc. rewrite commit_candidates in Hc.
  unfold has_registry. rewrite scanner_registry_for_commit.
  rewrite decide_True by lia. eauto.
Qed.

(** X1: on a committed collection [merge] ends, normally or on a failed
    [require], for every session, comparison function and candidate set:
    no array is accessed outside its bounds, also after the 8-bit
    counter has wrapped, and the outer loop ends after at most as many
    iterations as the iterators hold terms. *)
Theorem merge_completes `{IndexSession Sess} (terms_cmp : str8_t -> str8_t -> Z)
    (MaxDocIDValue : docid_t) (coll : MergeCandidatesCollection)
    (session : Sess) (terms0 : list (str8_t * term_index_ctx)) (flushFreq : N) :
  completes (merge terms_cmp MaxDocIDValue (commit coll) session terms0 flushFreq).
Proof.
  rewrite merge_unfold, merge_head_eq.
  destruct (_ && _); [|by left]. rewrite bind_Ret_l.
  pose proof (active_entries_wf 0 (candidates (commit coll))) as Hwf.
  pose proof (active_entries_has_registry coll) as Hreg.
  destruct (active_entries 0 (candidates (commit coll))) as [|tc all] eqn:Ea;
    [apply completes_Ret|].
  rewrite <-Ea in *. apply completes_bind; [|intros; apply completes_Ret].
  apply merge_loop_completes; try done.
  - by rewrite Ea.
  - by rewrite length_replicate.
  - lia.
Qed.

(** ** The order of the terms appended to the sink *)

Lemma tied_count_app t l1 l2 :
  tied_count t (l1 ++ l2) = (tied_count t l1 + tied_count t l2)%nat.
Proof. induction l1 as [|tc l1 IH]; simpl; lia. Qed.

Lemma tied_count_none t l :
  Forall (fun tc => cur_term tc <> t) l -> tied_count t l = 0%nat.
Proof.
  induction 1 as [|tc l Htc _ IH]; simpl; [done|].
  apply String.eqb_neq in Htc. by rewrite Htc, IH.
Qed.

Section Order.
Variable terms_cmp : str8_t -> str8_t -> Z.

(** [terms_cmp] is a three-way comparison for a strict total order. *)
Hypothesis terms_cmp_eq : forall a b, terms_cmp a b = 0%Z <-> a = b.
Hypothesis terms_cmp_antisym :
  forall a b, (terms_cmp a b < 0)%Z <-> (0 < terms_cmp b a)%Z.
Hypothesis terms_cmp_trans :
  forall a b c, (terms_cmp a b < 0)%Z -> (terms_cmp b c < 0)%Z -> (terms_cmp a c < 0)%Z.

Lemma term_le_refl a : term_le terms_cmp a a.
Proof. unfold term_le. by rewrite (proj2 (terms_cmp_eq a a)). Qed.

Lemma term_le_inv a b : term_le terms_cmp a b -> term_lt terms_cmp a b \/ a = b.
Proof.
  unfold term_le, term_lt. intros Hle.
  destruct (Z.eq_dec (terms_cmp a b) 0%Z) as [E|NE];
    [right; by apply terms_cmp_eq|left; lia].
Qed.

Lemma term_lt_le a b : term_lt terms_cmp a b -> term_le terms_cmp a b.
Proof. unfold term_le, term_lt. lia. Qed.

Lemma term_lt_ne a b : term_lt terms_cmp a b -> a <> b.
Proof.
  unfold term_lt. intros Hlt ->. rewrite (proj2 (terms_cmp_eq b b)) in Hlt; [lia|done].
Qed.

Lemma term_lt_le_trans a b c :
  term_lt terms_cmp a b -> term_le terms_cmp b c -> term_lt terms_cmp a c.
Proof.
  intros Hab [Hbc| ->]%term_le_inv; [|done]. by eapply terms_cmp_trans.
Qed.

Lemma term_le_lt_trans a b c :
  term_le terms_cmp a b -> term_lt terms_cmp b c -> term_lt terms_cmp a c.
Proof.
  intros [Hab| ->]%term_le_inv Hbc; [|done]. by eapply terms_cmp_trans.
Qed.

Lemma term_le_trans a b c :
  term_le terms_cmp a b -> term_le terms_cmp b c -> term_le terms_cmp a c.
Proof.
  intros [Hab| ->]%term_le_inv Hbc; [|done].
  apply term_lt_le. by eapply term_lt_le_trans.
Qed.

Lemma term_gt_lt a b : (0 < terms_cmp a b)%Z -> term_lt terms_cmp b a.
Proof. intros Hgt. by apply terms_cmp_antisym. Qed.

Lemma scan_selects pre rest (W : list N) (m : str8_t) :
  selects terms_cmp pre W m ->
  selects terms_cmp (pre ++ rest) (scan terms_cmp (N.of_nat (length pre)) rest W m).1
    (scan terms_cmp (N.of_nat (length pre)) rest W m).2.
Proof.
  revert pre W m. induction rest as [|tc rest IH]; intros pre W m (Hle & Hpos & Hcnt).
  - by rewrite app_nil_r.
  - simpl scan. rewrite (cons_middle tc pre rest), app_assoc.
    replace (N.of_nat (length pre) + 1) with (N.of_nat (length (pre ++ [tc])))
      by (rewrite length_app; simpl; lia).
    destruct (Z.ltb_spec (terms_cmp (cur_term tc) m) 0%Z) as [Hlt|Hge];
      [|destruct (Z.eqb_spec (terms_cmp (cur_term tc) m) 0%Z) as [Heq|Hne]];
      apply IH; split_and!.
    + apply Forall_app. split; [|repeat constructor; apply term_le_refl].
      eapply Forall_impl; [exact Hle|]. simpl. intros x Hx.
      apply term_lt_le. by eapply term_lt_le_trans.
    + repeat constructor. exists tc. split; [|done].
      rewrite Nat2N.id. by apply list_lookup_middle.
    + rewrite tied_count_app, tied_count_none; [by simpl; rewrite String.eqb_refl|].
      eapply Forall_impl; [exact Hle|]. simpl. intros x Hx.
      apply not_eq_sym, term_lt_ne. by eapply term_lt_le_trans.
    + apply terms_cmp_eq in Heq. rewrite <-Heq.
      apply Forall_app. split; [by rewrite Heq|repeat constructor; apply term_le_refl].
    + apply terms_cmp_eq in Heq. apply Forall_app. split.
      * eapply Forall_impl; [exact Hpos|]. simpl. intros w (x & Hx & Hm).
        exists x. split; [|done]. by apply lookup_app_l_Some.
      * repeat constructor. exists tc. split; [|done].
        rewrite Nat2N.id. by apply list_lookup_middle.
    + apply terms_cmp_eq in Heq.
      rewrite length_app, tied_count_app, Hcnt. simpl.
      by rewrite Heq, String.eqb_refl.
    + apply Forall_app. split; [done|]. repeat constructor.
      apply term_lt_le, term_gt_lt. lia.
    + eapply Forall_impl; [exact Hpos|]. simpl. intros w (x & Hx & Hm).
      exists x. split; [|done]. by apply lookup_app_l_Some.
    + rewrite tied_count_app, Hcnt. simpl.
      assert (cur_term tc <> m) as Hm%String.eqb_neq by (by intros E%terms_cmp_eq).
      rewrite Hm. lia.
Qed.

(** The selected term is the least current term of the working set, and
    the positions found are those of the entries at it. *)
Lemma selected_term_spec all :
  all <> [] ->
  selects terms_cmp all (tied_positions terms_cmp all) (selected_term terms_cmp all).
Proof.
  destruct all as [|tc0 rest]; [done|]. intros _.
  apply (scan_selects [tc0] rest [0] (cur_term tc0)). split_and!.
  - repeat constructor. apply term_le_refl.
  - repeat constructor. by exists tc0.
  - simpl. by rewrite String.eqb_refl.
Qed.

Lemma advance_entry_terms_spec tc :
  wf_entry tc -> ascending_terms terms_cmp tc ->
  advance_entry_terms tc = [] \/
  exists tc', advance_entry_terms tc = [tc'] /\ wf_entry tc' /\
    ascending_terms terms_cmp tc' /\
    term_lt terms_cmp (cur_term tc) (cur_term tc').
Proof.
  intros Hwf Hasc.
  pose proof (advance_entry_terms_wf tc Hwf) as Hwf'.
  destruct (wf_entry_inv tc Hwf) as (p & it & a & Ht & _ & _ & _ & Hcur).
  unfold advance_entry_terms in *. rewrite Ht in *.
  unfold ascending_terms in Hasc. rewrite Ht in Hasc.
  apply StronglySorted_inv in Hasc as [Hs Hlt].
  destruct it as [|q it]; simpl in *; [by left|right].
  eexists. split; [done|]. rewrite Forall_singleton in Hwf'.
  split; [done|]. split; [done|].
  rewrite Hcur. by apply List.Forall_inv in Hlt.
Qed.

(** Advancing keeps the entries well formed, their iterators ascending
    and their terms above any bound they were above. *)
Lemma advance_at_above (t : str8_t) i T l :
  Forall wf_entry l -> Forall (ascending_terms terms_cmp) l ->
  Forall (fun tc => term_le terms_cmp t (cur_term tc)) l ->
  Forall wf_entry (advance_at i T l) /\
  Forall (ascending_terms terms_cmp) (advance_at i T l) /\
  Forall (fun tc => term_le terms_cmp t (cur_term tc)) (advance_at i T l).
Proof.
  intros Hwf Hasc Hle.
  assert (HP : Forall (fun tc => wf_entry tc /\ ascending_terms terms_cmp tc /\
                                 term_le terms_cmp t (cur_term tc)) (advance_at i T l)).
  { apply advance_at_Forall.
    - intros tc (Hw & Ha & Hl).
      destruct (advance_entry_terms_spec tc Hw Ha) as [->|(tc' & -> & ? & ? & Hlt)];
        [constructor|].
      repeat constructor; try done.
      apply term_lt_le. by eapply term_le_lt_trans.
    - rewrite Forall_forall in *. intros tc Hin. split_and!; eauto. }
  rewrite Forall_forall in HP. split_and!; apply Forall_forall; intros tc Hin;
    by destruct (HP tc Hin) as (? & ? & ?).
Qed.

Lemma positions_shift (P : tracked_candidate -> Prop) i tc l (T : list N) :
  Forall (fun t => i <= t /\ exists x, (tc :: l) !! N.to_nat (t - i) = Some x /\ P x) T ->
  Forall (fun t => i < t) T ->
  Forall (fun t => i + 1 <= t /\ exists x, l !! N.to_nat (t - (i + 1)) = Some x /\ P x) T.
Proof.
  intros Hpos Hlt. apply Forall_forall. rewrite Forall_forall in Hpos, Hlt.
  intros t Hin. destruct (Hpos t Hin) as (_ & x & Hx & HPx). specialize (Hlt t Hin).
  split; [lia|]. exists x. split; [|done].
  replace (N.to_nat (t - i)) with (S (N.to_nat (t - (i + 1)))) in Hx by lia. done.
Qed.

(** Every advanced entry leaves the term it was at. *)
Lemma advance_at_tied_count (m : str8_t) i (T : list N) l :
  StronglySorted N.lt T ->
  Forall (fun t => i <= t /\
            exists x, l !! N.to_nat (t - i) = Some x /\ cur_term x = m) T ->
  Forall wf_entry l -> Forall (ascending_terms terms_cmp) l ->
  (tied_count m (advance_at i T l) + length T = tied_count m l)%nat.
Proof.
  revert i T. induction l as [|tc l IH]; intros i T Hs Hpos Hwf Hasc.
  - destruct T as [|t T]; [done|]. by apply Forall_cons in Hpos as [(_ & x & Hx & _) _].
  - apply Forall_cons in Hwf as [Hwtc Hwf]. apply Forall_cons in Hasc as [Hatc Hasc].
    simpl advance_at. destruct T as [|t T]; [simpl; lia|].
    pose proof Hpos as Hpos0. apply Forall_cons in Hpos0 as [(Hit & x & Hx & Hm) Hpos'].
    pose proof Hs as Hs0. apply StronglySorted_inv in Hs0 as [Hs' Hlt].
    assert (Hlt' : Forall (fun y => t < y) T).
    { apply Forall_forall. rewrite List.Forall_forall in Hlt.
      intros y Hy. by apply Hlt, list_elem_of_In. }
    destruct (N.eqb_spec t i) as [->|Hne].
    + rewrite N.sub_diag in Hx. injection Hx as <-.
      rewrite tied_count_app. cbn [tied_count length].
      rewrite Hm, String.eqb_refl.
      specialize (IH (i + 1) T Hs' (positions_shift _ _ _ _ _ Hpos' Hlt') Hwf Hasc).
      enough (tied_count m (advance_entry_terms tc) = 0)%nat by lia.
      destruct (advance_entry_terms_spec tc Hwtc Hatc) as [->|(tc' & -> & _ & _ & Hlt2)];
        [done|].
      apply tied_count_none. repeat constructor.
      rewrite Hm in Hlt2. by apply not_eq_sym, term_lt_ne.
    + cbn [tied_count].
      enough (tied_count m (advance_at (i + 1) (t :: T) l) + length (t :: T)
              = tied_count m l)%nat by lia.
      apply IH; [done| |done|done].
      apply (positions_shift _ i tc l); [done|].
      constructor; [lia|]. eapply Forall_impl; [exact Hlt'|]. simpl. intros; lia.
Qed.

Lemma slots_read_sub (n : N) :
  0 < n -> (n - slots_read (n mod 256)) mod 256 = 0.
Proof.
  intros Hn. unfold slots_read.
  pose proof (N.mod_lt n 256 ltac:(done)) as Hlt.
  pose proof (N.div_mod n 256 ltac:(done)) as Hd.
  destruct (N.eqb_spec (n mod 256) 0) as [E|NE].
  - assert (1 <= n / 256).
    { destruct (N.leb_spec 256 n); [by apply N.div_le_lower_bound|].
      rewrite N.mod_small in E by done. lia. }
    replace (n - 256) with (0 + (n / 256 - 1) * 256) by lia.
    by rewrite N.Div0.mod_add.
  - replace (n - n mod 256) with (0 + (n / 256) * 256) by lia.
    by rewrite N.Div0.mod_add.
Qed.

Lemma StronglySorted_snoc {A} (R : A -> A -> Prop) (l : list A) (a : A) :
  StronglySorted R l -> Forall (fun x => R x a) l -> StronglySorted R (l ++ [a]).
Proof.
  induction 1 as [|x l Hs IH Hx]; intros Ha; simpl; [repeat constructor|].
  apply Forall_cons in Ha as [Hxa Ha]. constructor; [by apply IH|].
  apply List.Forall_app. split; [done|]. by repeat constructor.
Qed.

(** One iteration keeps the invariant, whether the selected term is
    appended or not; it may be appended when the counter is not 0. *)
Lemma sink_invariant_step all (new : list str8_t) :
  all <> [] -> Forall wf_entry all -> Forall (ascending_terms terms_cmp) all ->
  sink_invariant terms_cmp all new ->
  sink_invariant terms_cmp (advance_at 0 (advanced_positions terms_cmp all) all) new /\
  (N.of_nat (length (tied_positions terms_cmp all)) mod 256 <> 0 ->
   sink_invariant terms_cmp (advance_at 0 (advanced_positions terms_cmp all) all)
     (new ++ [selected_term terms_cmp all])).
Proof.
  intros Hall Hwf Hasc [Hsorted Hinv].
  destruct (selected_term_spec all Hall) as (Hle & Hpos & Hcnt).
  destruct (tied_positions_spec terms_cmp all Hall) as (HW & _ & _ & _).
  destruct (advanced_positions_spec terms_cmp all Hall) as (HlT & _ & HsT & _ & Hsub).
  set (m := selected_term terms_cmp all) in *.
  set (W := tied_positions terms_cmp all) in *.
  set (T := advanced_positions terms_cmp all) in *.
  set (all' := advance_at 0 T all).
  destruct (advance_at_above m 0 T all Hwf Hasc Hle) as (_ & _ & Hle').
  fold all' in Hle'.
  (* the selected term is the current term of an entry *)
  assert (Hm : exists tc, tc ∈ all /\ cur_term tc = m).
  { destruct W as [|w W']; [done|].
    apply Forall_cons in Hpos as [(tc & Htc & Hcur) _].
    exists tc. split; [by eapply list_elem_of_lookup_2|done]. }
  destruct Hm as (tcm & Hin & Hcur).
  (* the entries left at it are a multiple of 256 *)
  assert (Hleft : N.of_nat (tied_count m all') mod 256 = 0).
  { assert (HposT : Forall (fun t => 0 <= t /\
               exists x, all !! N.to_nat (t - 0) = Some x /\ cur_term x = m) T).
    { apply Forall_forall. rewrite Forall_forall in Hpos.
      intros t Ht. split; [lia|]. rewrite N.sub_0_r. by apply Hpos, Hsub. }
    pose proof (advance_at_tied_count m 0 T all HsT HposT Hwf Hasc) as Hc.
    fold all' in Hc. rewrite <-Hcnt, HlT in Hc.
    assert (0 < N.of_nat (length W)) as Hpos0 by (destruct W; simpl; [done|lia]).
    pose proof (slots_read_sub _ Hpos0) as Hsub0.
    pose proof (slots_read_le _ Hpos0) as Hr.
    revert Hc Hsub0 Hr. generalize (slots_read (N.of_nat (length W) mod 256)).
    intros r Hc Hsub0 Hr.
    replace (N.of_nat (tied_count m all')) with (N.of_nat (length W) - r) by lia.
    done. }
  (* no entry is left at a term before it *)
  assert (Hbefore : forall t, term_lt terms_cmp t m ->
            Forall (fun tc => term_le terms_cmp t (cur_term tc)) all' /\
            N.of_nat (tied_count t all') mod 256 = 0).
  { intros t Hlt. split.
    - eapply Forall_impl; [exact Hle'|]. simpl. intros tc Htc.
      apply term_lt_le. by eapply term_lt_le_trans.
    - rewrite tied_count_none; [done|].
      eapply Forall_impl; [exact Hle'|]. simpl. intros tc Htc.
      apply not_eq_sym, term_lt_ne. by eapply term_lt_le_trans. }
  assert (Hold : forall t, t ∈ new -> term_le terms_cmp t m).
  { intros t Ht. destruct (Hinv t Ht) as [Hall_le _].
    rewrite Forall_forall in Hall_le. rewrite <-Hcur. by apply Hall_le. }
  split.
  - split; [done|]. intros t Ht.
    destruct (term_le_inv _ _ (Hold t Ht)) as [Hlt| ->]; [by apply Hbefore|done].
  - intros Hnz.
    assert (Hnew : forall t, t ∈ new -> term_lt terms_cmp t m).
    { intros t Ht. destruct (term_le_inv _ _ (Hold t Ht)) as [Hlt| ->]; [done|].
      destruct (Hinv m Ht) as [_ Hz]. by rewrite <-Hcnt in Hz. }
    split.
    + apply StronglySorted_snoc; [done|]. by apply Forall_forall.
    + intros t [Ht| ->%list_elem_of_singleton]%elem_of_app; [|done].
      by apply Hbefore, Hnew.
Qed.

(** *** One iteration advances the entries at the least term *)

Lemma scan_cons i tc rest (W : list N) (m : str8_t) :
  scan terms_cmp i (tc :: rest) W m =
  scan terms_cmp (i + 1) rest (scan terms_cmp i [tc] W m).1 (scan terms_cmp i [tc] W m).2.
Proof. simpl. by destruct (_ <? _)%Z; [|destruct (_ =? _)%Z]. Qed.

(** The selection loop misses no entry at the selected term. *)
Lemma scan_finds pre rest (W : list N) (m : str8_t) :
  selects terms_cmp pre W m ->
  (forall k tc, pre !! k = Some tc -> cur_term tc = m -> N.of_nat k ∈ W) ->
  forall k tc, (pre ++ rest) !! k = Some tc ->
    cur_term tc = (scan terms_cmp (N.of_nat (length pre)) rest W m).2 ->
    N.of_nat k ∈ (scan terms_cmp (N.of_nat (length pre)) rest W m).1.
Proof.
  revert pre W m. induction rest as [|tc rest IH]; intros pre W m Hsel Hfound.
  - rewrite app_nil_r. apply Hfound.
  - rewrite scan_cons, (cons_middle tc pre rest), app_assoc.
    replace (N.of_nat (length pre) + 1) with (N.of_nat (length (pre ++ [tc])))
      by (rewrite length_app; simpl; lia).
    apply IH; [by apply scan_selects|].
    destruct Hsel as (Hle & _ & _). rewrite Forall_forall in Hle.
    intros k x Hx. simpl.
    apply lookup_app_Some in Hx as [Hx|[Hk Hx]].
    + (* an entry seen before *)
      pose proof (list_elem_of_lookup_2 _ _ _ Hx) as Hin. specialize (Hle x Hin).
      destruct (Z.ltb_spec (terms_cmp (cur_term tc) m) 0%Z) as [Hlt|Hge];
        [|destruct (Z.eqb_spec (terms_cmp (cur_term tc) m) 0%Z) as [Heq|Hne]]; simpl.
      * intros E. rewrite E in Hle.
        by destruct (term_lt_ne _ _ (term_lt_le_trans _ _ _ Hlt Hle)).
      * intros E. apply elem_of_app. left. by eapply Hfound.
      * intros E. by eapply Hfound.
    + (* the entry just compared *)
      apply list_lookup_singleton_Some in Hx as [Hk0 <-].
      assert (N.of_nat k = N.of_nat (length pre)) as -> by lia.
      destruct (Z.ltb_spec (terms_cmp (cur_term tc) m) 0%Z) as [Hlt|Hge];
        [|destruct (Z.eqb_spec (terms_cmp (cur_term tc) m) 0%Z) as [Heq|Hne]]; simpl.
      * intros _. apply list_elem_of_singleton. done.
      * intros _. apply elem_of_app. right. by apply list_elem_of_singleton.
      * intros E%terms_cmp_eq. done.
Qed.

(** The positions found are exactly those of the entries at the selected
    term. *)
Lemma tied_positions_exact all (k : nat) tc :
  all !! k = Some tc ->
  N.of_nat k ∈ tied_positions terms_cmp all <->
  cur_term tc = selected_term terms_cmp all.
Proof.
  intros Hk. assert (Hall : all <> []) by (by intros ->).
  destruct (selected_term_spec all Hall) as (_ & Hpos & _). split.
  - intros Hin. rewrite Forall_forall in Hpos.
    destruct (Hpos _ Hin) as (x & Hx & Hm). rewrite Nat2N.id in Hx. congruence.
  - destruct all as [|tc0 rest]; [done|].
    apply (scan_finds [tc0] rest [0] (cur_term tc0)); [| |done].
    + split_and!.
      * repeat constructor. apply term_le_refl.
      * repeat constructor. by exists tc0.
      * simpl. by rewrite String.eqb_refl.
    + intros [|j] x Hx _; [apply list_elem_of_singleton; done|done].
Qed.

Lemma advance_at_tied (m : str8_t) i (T : list N) l :
  StronglySorted N.lt T -> Forall (fun t => i <= t) T ->
  (forall (k : nat) tc, l !! k = Some tc -> i + N.of_nat k ∈ T <-> cur_term tc = m) ->
  advance_at i T l = advance_tied m l.
Proof.
  revert i T. induction l as [|tc l IH]; intros i T Hs Hge Hiff; [done|].
  assert (Hshift : forall T' : list N, (forall x, x ∈ T' <-> x ∈ T /\ x <> i) ->
            forall (k : nat) x, l !! k = Some x ->
              i + 1 + N.of_nat k ∈ T' <-> cur_term x = m).
  { intros T' HT' k x Hx. rewrite <-(Hiff (S k) x Hx), HT'.
    replace (i + N.of_nat (S k)) with (i + 1 + N.of_nat k) by lia.
    split; [by intros [? _]|]. intros ?. split; [done|lia]. }
  pose proof (Hiff 0%nat tc eq_refl) as H0. rewrite N.add_0_r in H0.
  simpl. destruct T as [|t T].
  - assert (cur_term tc <> m) as Hm%String.eqb_neq
      by (intros E; by apply H0, elem_of_nil in E).
    rewrite Hm. simpl. f_equal. rewrite <-(IH (i + 1) []); [by rewrite advance_at_nil|done|done|].
    apply Hshift. intros x. split; [by intros ?%elem_of_nil|by intros [?%elem_of_nil _]].
  - apply StronglySorted_inv in Hs as [Hs Hlt].
    apply Forall_cons in Hge as [Hit Hge].
    assert (Hlt' : Forall (fun y => t < y) T).
    { apply Forall_forall. rewrite List.Forall_forall in Hlt.
      intros y Hy. by apply Hlt, list_elem_of_In. }
    destruct (N.eqb_spec t i) as [->|Hne].
    + assert (cur_term tc = m) as Hm by (apply H0; by left).
      rewrite Hm, String.eqb_refl. f_equal. apply IH; [done| |].
      * eapply Forall_impl; [exact Hlt'|]. simpl. intros; lia.
      * apply Hshift. intros x. rewrite elem_of_cons. split.
        -- intros Hx. split; [by right|]. rewrite Forall_forall in Hlt'.
           specialize (Hlt' x Hx). lia.
        -- by intros [[->|?] ?].
    + assert (cur_term tc <> m) as Hm%String.eqb_neq.
      { intros E. apply H0, elem_of_cons in E as [->|E]; [done|].
        rewrite Forall_forall in Hlt'. specialize (Hlt' i E). lia. }
      rewrite Hm. simpl. f_equal. apply IH; [by constructor| |].
      * constructor; [lia|]. eapply Forall_impl; [exact Hlt'|]. simpl. intros; lia.
      * apply Hshift. intros x. split; [|by intros [? _]].
        intros Hx. split; [done|]. intros ->.
        apply elem_of_cons in Hx as [->|Hx]; [done|].
        rewrite Forall_forall in Hlt'. specialize (Hlt' i Hx). lia.
Qed.

(** With fewer than 256 entries at the selected term the counter has not
    wrapped, and the entries advanced are all those at the selected
    term. *)
Lemma advance_at_advanced_positions all :
  all <> [] -> (tied_count (selected_term terms_cmp all) all < 256)%nat ->
  advance_at 0 (advanced_positions terms_cmp all) all
  = advance_tied (selected_term terms_cmp all) all.
Proof.
  intros Hall Hlt.
  destruct (selected_term_spec all Hall) as (_ & _ & Hcnt).
  destruct (tied_positions_spec terms_cmp all Hall) as (HW & HsW & _ & _).
  assert (HT : advanced_positions terms_cmp all = tied_positions terms_cmp all).
  { unfold advanced_positions. cbv zeta.
    set (W := tied_positions terms_cmp all) in *.
    assert (0 < N.of_nat (length W) < 256) as Hn by (destruct W; simpl in *; [done|lia]).
    rewrite N.mod_small by lia. unfold slots_read.
    destruct (N.eqb_spec (N.of_nat (length W)) 0) as [E|_]; [lia|].
    replace (length W - N.to_nat (N.of_nat (length W)))%nat with 0%nat by lia. done. }
  rewrite HT. apply advance_at_tied; [done|apply Forall_forall; intros; lia|].
  intros k tc Hk. rewrite N.add_0_l. by apply tied_positions_exact.
Qed.
Context {Sess : Type} `{IndexSession Sess}.
Variable MaxDocIDValue : docid_t.
Variable coll : MergeCandidatesCollection.

Lemma merge_loop_ascending fuel isCODEC flushFreq all ta (st st' : merge_locals)
    (terms0 new : list (str8_t * term_index_ctx)) :
  all <> [] -> Forall wf_entry all -> Forall (has_registry coll) all ->
  Forall (ascending_terms terms_cmp) all -> (length all <= length ta)%nat ->
  terms_out st = terms0 ++ new -> sink_invariant terms_cmp all new.*1 ->
  merge_loop terms_cmp MaxDocIDValue fuel coll isCODEC flushFreq all ta st = Ret st' ->
  exists new',
    terms_out st' = terms0 ++ new' /\ StronglySorted (term_lt terms_cmp) new'.*1.
Proof.
  revert all ta st new.
  induction fuel as [|fuel IH]; intros all ta st new Hall Hwf Hreg Hasc Hlen Hout Hinv Hrun;
    [done|].
  simpl in Hrun.
  destruct (merge_step_spec terms_cmp MaxDocIDValue coll isCODEC flushFreq all ta st
              Hall Hwf Hreg Hlen) as [Hab|(ta' & st1 & Hstep & Hta & Hout1)];
    [by rewrite Hab in Hrun|].
  rewrite Hstep, bind_Ret_l in Hrun.
  destruct (sink_invariant_step all new.*1 Hall Hwf Hasc Hinv) as [Hsame Happ].
  set (all' := advance_at 0 (advanced_positions terms_cmp all) all) in *.
  assert (Hnew1 : exists new1, terms_out st1 = terms0 ++ new1 /\
                               sink_invariant terms_cmp all' new1.*1).
  { destruct Hout1 as [Hout1|(Hnz & tctx & Hout1)].
    - exists new. split; [congruence|done].
    - exists (new ++ [(selected_term terms_cmp all, tctx)]). split.
      + by rewrite Hout1, Hout, <-app_assoc.
      + rewrite fmap_app. by apply Happ. }
  destruct Hnew1 as (new1 & Hout1' & Hinv1).
  destruct (advance_at_above (selected_term terms_cmp all) 0
              (advanced_positions terms_cmp all) all Hwf Hasc) as (Hwf' & Hasc' & _).
  { by destruct (selected_term_spec all Hall) as (Hle & _). }
  fold all' in Hwf', Hasc'.
  pose proof (advance_at_length 0 (advanced_positions terms_cmp all) all) as Hl.
  fold all' in Hl.
  assert (Hreg' : Forall (has_registry coll) all').
  { apply advance_at_Forall; [apply has_registry_advance|done]. }
  destruct all' as [|tc all''] eqn:Ea; cbn [result_of] in Hrun.
  - injection Hrun as <-. exists new1. split; [done|]. by destruct Hinv1.
  - eapply (IH (tc :: all'') ta' st1 new1); try done. lia.
Qed.

(** X3: every iteration of the outer loop selects the least current term
    of the working set, and when fewer than 256 entries are at it, the
    iteration ends and advances exactly the entries at that term,
    removing those whose iterator is then exhausted. *)
Theorem merge_step_advances_least isCODEC flushFreq all ta (st : merge_locals) :
  all <> [] -> Forall wf_entry all -> Forall (has_registry coll) all ->
  (length all <= length ta)%nat ->
  (exists tc, tc ∈ all /\ cur_term tc = selected_term terms_cmp all) /\
  Forall (fun tc => term_le terms_cmp (selected_term terms_cmp all) (cur_term tc)) all /\
  ((tied_count (selected_term terms_cmp all) all < 256)%nat ->
   merge_step terms_cmp MaxDocIDValue coll isCODEC flushFreq all ta st = Aborted \/
   exists ta' st',
     merge_step terms_cmp MaxDocIDValue coll isCODEC flushFreq all ta st
     = Ret (ta', st', result_of (advance_tied (selected_term terms_cmp all) all))).
Proof.
  intros Hall Hwf Hreg Hlen.
  destruct (selected_term_spec all Hall) as (Hle & Hpos & _).
  destruct (tied_positions_spec terms_cmp all Hall) as (HW & _ & _ & _).
  split_and!; [|done|].
  - destruct (tied_positions terms_cmp all) as [|w W]; [done|].
    apply Forall_cons in Hpos as [(tc & Htc & Hcur) _].
    exists tc. split; [by eapply list_elem_of_lookup_2|done].
  - intros Hlt.
    destruct (merge_step_spec terms_cmp MaxDocIDValue coll isCODEC flushFreq all ta st
                Hall Hwf Hreg Hlen) as [Hab|(ta' & st' & Hstep & _)]; [by left|right].
    exists ta', st'. by rewrite Hstep, advance_at_advanced_positions.
Qed.

End Order.

Lemma active_entries_ascending (terms_cmp : str8_t -> str8_t -> Z) coll :
  (forall c it, c ∈ candidates coll -> terms c = Some it ->
     StronglySorted (fun p q => term_lt terms_cmp p.1 q.1) it) ->
  Forall (ascending_terms terms_cmp) (active_entries 0 (candidates (commit coll))).
Proof.
  intros Hasc. apply Forall_forall. intros tc Hin.
  apply active_entries_idx in Hin as (Hc & _ & _).
  apply list_elem_of_lookup_2 in Hc. rewrite commit_candidates, sort_desc_perm in Hc.
  unfold ascending_terms. destruct (terms (candidate tc)) eqn:E; [|done]. eauto.
Qed.

(** X2: on a committed collection whose term iterators each yield their
    terms in strictly ascending order of [terms_cmp], a three-way comparison
    for a strict total order, the terms that [merge] appends to the sink
    are in strictly ascending order, whatever the number of candidates:
    the entries that the wrapped 8-bit counter leaves at a selected term
    are a multiple of 256, and an iteration that finds a multiple of 256
    entries at its term appends nothing. *)
Theorem merge_terms_ascending `{IndexSession Sess} (terms_cmp : str8_t -> str8_t -> Z)
    (MaxDocIDValue : docid_t) (coll : MergeCandidatesCollection) (session s : Sess)
    (terms0 out : list (str8_t * term_index_ctx)) (flushFreq : N) :
  (forall a b, terms_cmp a b = 0%Z <-> a = b) ->
  (forall a b, (terms_cmp a b < 0)%Z <-> (0 < terms_cmp b a)%Z) ->
  (forall a b c,
     (terms_cmp a b < 0)%Z -> (terms_cmp b c < 0)%Z -> (terms_cmp a c < 0)%Z) ->
  (forall c it, c ∈ candidates coll -> terms c = Some it ->
     StronglySorted (fun p q => term_lt terms_cmp p.1 q.1) it) ->
  merge terms_cmp MaxDocIDValue (commit coll) session terms0 flushFreq = Ret (s, out) ->
  exists new, out = terms0 ++ new /\ StronglySorted (term_lt terms_cmp) new.*1.
Proof.
  intros Heq Hanti Htrans Hasc Hrun.
  rewrite merge_unfold, merge_head_eq in Hrun.
  destruct (_ && _); [|done]. rewrite bind_Ret_l in Hrun.
  pose proof (active_entries_wf 0 (candidates (commit coll))) as Hwf.
  pose proof (active_entries_has_registry coll) as Hreg.
  pose proof (active_entries_ascending terms_cmp coll Hasc) as Hasc'.
  destruct (active_entries 0 (candidates (commit coll))) as [|tc all] eqn:Ea.
  - injection Hrun as <- <-. exists []. split; [by rewrite app_nil_r|constructor].
  - apply bind_Ret in Hrun as (st' & Hloop & [= <- <-]).
    eapply (merge_loop_ascending terms_cmp Heq Hanti Htrans MaxDocIDValue (commit coll)
              _ _ _ _ _ _ _ terms0 []); [| | | | | | |exact Hloop]; try done.
    + by rewrite length_replicate.
    + simpl. by rewrite app_nil_r.
    + split; [constructor|]. by intros t ?%elem_of_nil.
Qed.

Lemma lex_cmp_eq (a b : str8_t) : lex_cmp a b = 0%Z <-> a = b.
Proof.
  unfold lex_cmp. rewrite <-OrderedTypeEx.String_as_OT.cmp_eq.
  unfold OrderedTypeEx.String_as_OT.cmp. by destruct (String.compare a b).
Qed.

Lemma lex_cmp_antisym (a b : str8_t) : (lex_cmp a b < 0)%Z <-> (0 < lex_cmp b a)%Z.
Proof.
  unfold lex_cmp. rewrite (String.compare_antisym a b).
  by destruct (String.compare b a).
Qed.

Lemma lex_cmp_lt (a b : str8_t) :
  (lex_cmp a b < 0)%Z <-> OrderedTypeEx.String_as_OT.lt a b.
Proof.
  rewrite <-OrderedTypeEx.String_as_OT.cmp_lt.
  unfold lex_cmp, OrderedTypeEx.String_as_OT.cmp. by destruct (String.compare a b).
Qed.

Lemma lex_cmp_trans (a b c : str8_t) :
  (lex_cmp a b < 0)%Z -> (lex_cmp b c < 0)%Z -> (lex_cmp a c < 0)%Z.
Proof. rewrite !lex_cmp_lt. apply OrderedTypeEx.String_as_OT.lt_trans. Qed.

(** Two segments with different codecs that share the term "apple". *)
Lemma merge_terms_ascending_witness :
  exists new,
    [("apple", {| documents := 1; chunk := (0, 1) |});
     ("fig", {| documents := 1; chunk := (1, 1) |});
     ("pear", {| documents := 1; chunk := (2, 1) |})] = [] ++ new /\
    StronglySorted (term_lt lex_cmp) new.*1.
Proof.
  eapply (merge_terms_ascending lex_cmp ref_MaxDocIDValue
            (collection_of
               [ref_candidate 1 "A" [("apple", [ref_doc 10 1]); ("fig", [ref_doc 30 1])] [];
                ref_candidate 2 "B" [("apple", [ref_doc 10 2]); ("pear", [ref_doc 20 2])] []])
            (ref_session_new "A") _ [] _ 0
            lex_cmp_eq lex_cmp_antisym lex_cmp_trans).
  - intros c it Hc Hit.
    apply elem_of_cons in Hc as [->|Hc];
      [|apply elem_of_cons in Hc as [->|Hc%elem_of_nil]; [|done]];
      vm_compute in Hit; injection Hit as <-;
      repeat (constructor; try (vm_compute; reflexivity)).
  - vm_compute. reflexivity.
Defined.

Lemma merge_step_advances_least_witness :
  merge_step lex_cmp ref_MaxDocIDValue
    (commit (collection_of
       [ref_candidate 1 "A" [("apple", [ref_doc 10 1]); ("fig", [ref_doc 30 1])] [];
        ref_candidate 2 "B" [("apple", [ref_doc 10 2]); ("pear", [ref_doc 20 2])] []]))
    "A" 0 ref_working_set [0; 0]
    {| sess := ref_session_new "A"; termHitsCapacity := 0; terms_out := [] |}
  = Aborted \/
  exists ta' st',
    merge_step lex_cmp ref_MaxDocIDValue
      (commit (collection_of
         [ref_candidate 1 "A" [("apple", [ref_doc 10 1]); ("fig", [ref_doc 30 1])] [];
          ref_candidate 2 "B" [("apple", [ref_doc 10 2]); ("pear", [ref_doc 20 2])] []]))
      "A" 0 ref_working_set [0; 0]
      {| sess := ref_session_new "A"; termHitsCapacity := 0; terms_out := [] |}
    = Ret (ta', st',
           result_of (advance_tied (selected_term lex_cmp ref_working_set)
                        ref_working_set)).
Proof.
  apply (proj2 (proj2 (merge_step_advances_least lex_cmp
           lex_cmp_eq lex_cmp_antisym lex_cmp_trans ref_MaxDocIDValue _ "A" 0
           ref_working_set [0; 0] _
           ltac:(discriminate) (active_entries_wf _ _) (active_entries_has_registry _)
           ltac:(vm_compute; lia)))).
  vm_compute. lia.
Defined.

(** In that iteration both entries are at "apple" and both move on. *)
Example merge_step_advances_least_run :
  selected_term lex_cmp ref_working_set = "apple" /\
  cur_term <$> ref_working_set = ["apple"; "apple"] /\
  cur_term <$> advance_tied "apple" ref_working_set = ["pear"; "fig"].
Proof. split_and!; vm_compute; reflexivity. Qed.

(** ** [commit]: the order of the candidates *)

Lemma gen_gt_sorted (l : list merge_candidate) :
  StronglySorted gen_ge l -> NoDup (gen <$> l) -> StronglySorted gen_gt l.
Proof.
  induction 1 as [|c l Hs IH Hc]; intros Hnd; [constructor|].
  rewrite fmap_cons in Hnd. apply NoDup_cons in Hnd as [Hnotin Hnd].
  constructor; [by apply IH|].
  apply List.Forall_forall. rewrite List.Forall_forall in Hc.
  intros x Hx. specialize (Hc x Hx). unfold gen_ge, gen_gt in *.
  assert (gen x <> gen c); [|lia].
  intros E. apply Hnotin. rewrite <-E. apply list_elem_of_fmap. exists x.
  split; [done|by apply list_elem_of_In].
Qed.

Lemma gen_gt_NoDup (l : list merge_candidate) :
  StronglySorted gen_gt l -> NoDup (gen <$> l).
Proof.
  induction 1 as [|c l Hs IH Hc]; [constructor|].
  rewrite fmap_cons. apply NoDup_cons. split; [|done].
  intros (x & E & Hx)%list_elem_of_fmap. rewrite List.Forall_forall in Hc.
  apply list_elem_of_In, Hc in Hx. unfold gen_gt in Hx. lia.
Qed.

(** Two sequences of the same candidates in strictly descending order of
    generation are the same sequence. *)
Lemma gen_gt_sorted_unique (l l' : list merge_candidate) :
  StronglySorted gen_gt l -> StronglySorted gen_gt l' -> l ≡ₚ l' -> l = l'.
Proof.
  intros Hs. revert l'. induction Hs as [|a l Hs IH Ha]; intros l' Hs' Hp.
  - by apply Permutation_nil_l in Hp.
  - destruct Hs' as [|b l' Hs' Hb].
    + by apply Permutation_nil_r in Hp.
    + assert (a = b) as <-.
      { assert (Hin : a ∈ b :: l') by (rewrite <-Hp; by left).
        assert (Hin' : b ∈ a :: l) by (rewrite Hp; by left).
        apply elem_of_cons in Hin as [?|Hin]; [done|].
        apply elem_of_cons in Hin' as [?|Hin']; [done|].
        rewrite List.Forall_forall in Ha, Hb.
        apply list_elem_of_In, Hb in Hin. apply list_elem_of_In, Ha in Hin'.
        unfold gen_gt in *. lia. }
      f_equal. apply IH; [done|]. by apply Permutation_cons_inv in Hp.
Qed.

Lemma descending_from_sorted prev cs :
  descending_from prev cs = true -> StronglySorted gen_gt cs.
Proof.
  intros Hd. apply descending_from_spec in Hd as [Hadj _]. clear prev.
  induction cs as [|c cs IH]; [constructor|].
  assert (Hcs : adjacent_descending cs) by (intros i x y Hx Hy; by apply (Hadj (S i))).
  specialize (IH Hcs). constructor; [done|].
  destruct cs as [|c' cs]; [constructor|].
  pose proof (Hadj 0%nat c c' eq_refl eq_refl) as Hcc'.
  apply StronglySorted_inv in IH as [_ Hc'].
  constructor; [done|]. eapply List.Forall_impl; [|exact Hc'].
  unfold gen_gt. intros; lia.
Qed.

Lemma sorted_descending_from cs :
  StronglySorted gen_gt cs -> descending_from None cs = true.
Proof.
  intros Hs. apply descending_from_None. intros i c c' Hc Hc'.
  revert i Hc Hc'. induction Hs as [|x l Hs IH Hx]; intros i Hc Hc'; [done|].
  destruct i as [|i]; simpl in *.
  - injection Hc as <-. rewrite List.Forall_forall in Hx.
    apply Hx, list_elem_of_In. by eapply list_elem_of_lookup_2.
  - by eapply IH.
Qed.

Lemma commit_sort_desc coll coll' :
  sort_desc (candidates coll) = sort_desc (candidates coll') -> commit coll = commit coll'.
Proof. unfold commit. by intros ->. Qed.

Lemma sort_desc_unique l l' :
  l ≡ₚ l' -> NoDup (gen <$> l) -> sort_desc l = sort_desc l'.
Proof.
  intros Hp Hnd.
  assert (Hpp : sort_desc l ≡ₚ sort_desc l') by (by rewrite !sort_desc_perm).
  apply gen_gt_sorted_unique; [| |done].
  - apply gen_gt_sorted; [apply sort_desc_sorted|]. by rewrite sort_desc_perm.
  - apply gen_gt_sorted; [apply sort_desc_sorted|]. by rewrite sort_desc_perm, <-Hp.
Qed.

(** X7: [commit] keeps every candidate and puts them in non-increasing
    order of generation; [map] pairs the candidate at each position with
    the number of non-empty masks of the candidates before it, and [all]
    holds those masks in the order of the candidates; what [map] and [all]
    held before is discarded. *)
Theorem commit_spec (coll : MergeCandidatesCollection) :
  candidates (commit coll) ≡ₚ candidates coll /\
  StronglySorted gen_ge (candidates (commit coll)) /\
  length (mcc_map (commit coll)) = length (candidates coll) /\
  (forall (i : nat) c, candidates (commit coll) !! i = Some c ->
     mcc_map (commit coll) !! i
     = Some (c, N.of_nat (length (nonempty_masks (take i (candidates (commit coll))))))) /\
  mcc_all (commit coll) = nonempty_masks (candidates (commit coll)) /\
  (forall coll', candidates coll' = candidates coll -> commit coll' = commit coll).
Proof.
  rewrite commit_candidates, commit_map, commit_all. split_and!.
  - apply sort_desc_perm.
  - apply sort_desc_sorted.
  - rewrite length_imap. apply Permutation_length, sort_desc_perm.
  - intros i c Hc. by rewrite list_lookup_imap, Hc.
  - done.
  - intros coll' E. apply commit_sort_desc. by rewrite E.
Qed.

(** X8: when the generations are distinct, [commit] gives the same
    collection whatever the order in which the candidates were added, and
    committing a committed collection changes nothing. *)
Theorem commit_order_independent (coll coll' : MergeCandidatesCollection) :
  NoDup (gen <$> candidates coll) ->
  (candidates coll ≡ₚ candidates coll' -> commit coll = commit coll') /\
  commit (commit coll) = commit coll.
Proof.
  intros Hnd. split.
  - intros Hp. by apply commit_sort_desc, sort_desc_unique.
  - apply commit_sort_desc. rewrite commit_candidates. symmetry.
    apply sort_desc_unique; [|done]. symmetry. apply sort_desc_perm.
Qed.

(** X9: [merge] after [commit] does not depend on the order in which the
    candidates were added to the collection: two collections with the
    same candidates give the same outcome, session and sink, also when
    two candidates have the same generation (both merges abort). *)
Theorem merge_order_independent `{IndexSession Sess}
    (terms_cmp : str8_t -> str8_t -> Z) (MaxDocIDValue : docid_t)
    (coll coll' : MergeCandidatesCollection) (session : Sess)
    (terms0 : list (str8_t * term_index_ctx)) (flushFreq : N) :
  candidates coll ≡ₚ candidates coll' ->
  merge terms_cmp MaxDocIDValue (commit coll) session terms0 flushFreq =
  merge terms_cmp MaxDocIDValue (commit coll') session terms0 flushFreq.
Proof.
  intros Hp.
  destruct (descending_from None (sort_desc (candidates coll))) eqn:Ed;
    [|destruct (descending_from None (sort_desc (candidates coll'))) eqn:Ed'].
  - (* distinct generations *)
    f_equal. apply commit_sort_desc, sort_desc_unique; [done|].
    rewrite <-(sort_desc_perm (candidates coll)).
    by apply gen_gt_NoDup, (descending_from_sorted None).
  - f_equal. symmetry. apply commit_sort_desc, sort_desc_unique; [done|].
    rewrite <-(sort_desc_perm (candidates coll')).
    by apply gen_gt_NoDup, (descending_from_sorted None).
  - rewrite !merge_unfold, !merge_head_eq, !commit_candidates, Ed, Ed'.
    by rewrite !andb_false_r.
Qed.

Lemma active_entries_none i cs :
  Forall (fun c => is_active c = false) cs -> active_entries i cs = [].
Proof.
  intros Hcs. revert i. induction Hcs as [|c cs Hc _ IH]; intros i; simpl; [done|].
  by rewrite Hc, IH.
Qed.

Lemma active_entries_nil_inv i cs :
  active_entries i cs = [] -> Forall (fun c => is_active c = false) cs.
Proof.
  revert i. induction cs as [|c cs IH]; intros i; simpl; [constructor|].
  destruct (is_active c) eqn:E; [done|]. intros Ha. constructor; [done|by eapply IH].
Qed.

(** X10: when no candidate is active (none has an accessor and an
    iterator with a term left; in particular when there is no candidate),
    [merge] returns the session and the sink as they are, provided the
    assertions of its head hold; it needs no [commit] for that. *)
Theorem merge_nothing_active `{IndexSession Sess}
    (terms_cmp : str8_t -> str8_t -> Z) (MaxDocIDValue : docid_t)
    (coll : MergeCandidatesCollection) (session : Sess)
    (terms0 : list (str8_t * term_index_ctx)) (flushFreq : N) :
  merge_preconditions coll ->
  Forall (fun c => is_active c = false) (candidates coll) ->
  merge terms_cmp MaxDocIDValue coll session terms0 flushFreq = Ret (session, terms0).
Proof.
  intros [Hn Hd] Hin. rewrite merge_unfold, merge_head_eq.
  rewrite (proj2 (N.ltb_lt _ _) Hn), (proj2 (descending_from_None _) Hd).
  simpl. by rewrite active_entries_none.
Qed.

Lemma merge_nothing_active_witness :
  merge lex_cmp ref_MaxDocIDValue
    (collection_of [ref_mask_only 2 [7]; ref_candidate 1 "A" [] []])
    (ref_session_new "A") [("kept", {| documents := 1; chunk := (0, 1) |})] 0
  = Ret (ref_session_new "A", [("kept", {| documents := 1; chunk := (0, 1) |})]).
Proof.
  apply merge_nothing_active.
  - split; [vm_compute; reflexivity|].
    intros [|[|i]] c c' Hc Hc'; vm_compute in Hc, Hc'; try discriminate.
    injection Hc as <-. injection Hc' as <-. vm_compute. reflexivity.
  - repeat constructor.
Defined.

Lemma commit_order_independent_witness :
  commit (collection_of [ref_candidate 1 "A" [] [3]; ref_candidate 2 "B" [] [4]])
  = commit (collection_of [ref_candidate 2 "B" [] [4]; ref_candidate 1 "A" [] [3]]).
Proof.
  assert (Hnd : NoDup (gen <$> candidates
            (collection_of [ref_candidate 1 "A" [] [3]; ref_candidate 2 "B" [] [4]]))).
  { apply NoDup_cons. split; [|apply NoDup_singleton].
    intros Hin%list_elem_of_singleton. discriminate Hin. }
  apply (proj1 (commit_order_independent
           (collection_of [ref_candidate 1 "A" [] [3]; ref_candidate 2 "B" [] [4]])
           (collection_of [ref_candidate 2 "B" [] [4]; ref_candidate 1 "A" [] [3]])
           Hnd)).
  apply Permutation_swap.
Defined.

Lemma merge_order_independent_witness :
  merge lex_cmp ref_MaxDocIDValue
    (commit (collection_of
       [ref_candidate 1 "A" [("apple", [ref_doc 10 1])] [];
        ref_candidate 2 "B" [("apple", [ref_doc 10 2])] []]))
    (ref_session_new "A") [] 0
  = merge lex_cmp ref_MaxDocIDValue
      (commit (collection_of
         [ref_candidate 2 "B" [("apple", [ref_doc 10 2])] [];
          ref_candidate 1 "A" [("apple", [ref_doc 10 1])] []]))
      (ref_session_new "A") [] 0.
Proof.
  apply (merge_order_independent lex_cmp ref_MaxDocIDValue
           (collection_of
              [ref_candidate 1 "A" [("apple", [ref_doc 10 1])] [];
               ref_candidate 2 "B" [("apple", [ref_doc 10 2])] []])
           (collection_of
              [ref_candidate 2 "B" [("apple", [ref_doc 10 2])] [];
               ref_candidate 1 "A" [("apple", [ref_doc 10 1])] []])).
  apply Permutation_swap.
Defined.

(** ** [merge] on a collection that was not committed *)

Section NoCommit.
Context {Sess : Type} `{IndexSession Sess}.
Variable terms_cmp : str8_t -> str8_t -> Z.
Variable MaxDocIDValue : docid_t.
Variable coll : MergeCandidatesCollection.
Hypothesis no_map : mcc_map coll = [].

Lemma scanner_registry_for_no_map (i : N) : scanner_registry_for coll i = Undefined.
Proof. unfold scanner_registry_for, array_get. by rewrite no_map. Qed.

Lemma merge_participants_no_map all ta i n acc ps :
  merge_participants coll all ta i n acc = Ret ps -> ps = acc.
Proof.
  revert i acc. induction n as [|n IH]; intros i acc Hn; simpl in Hn.
  - by injection Hn as <-.
  - apply bind_Ret in Hn as (j & _ & Hn). apply bind_Ret in Hn as (tc & _ & Hn).
    apply bind_Ret in Hn as (pair & _ & Hn).
    destruct (documents pair.2 =? 0); [by eapply IH|].
    apply bind_Ret in Hn as (a & _ & Hn).
    by rewrite scanner_registry_for_no_map in Hn.
Qed.

Lemma new_decoders_no_map all ta i n acc ds :
  new_decoders coll all ta i n acc = Ret ds -> ds = acc.
Proof.
  revert i acc. induction n as [|n IH]; intros i acc Hn; simpl in Hn.
  - by injection Hn as <-.
  - apply bind_Ret in Hn as (j & _ & Hn). apply bind_Ret in Hn as (tc & _ & Hn).
    apply bind_Ret in Hn as (pair & _ & Hn).
    destruct (documents pair.2 =? 0); [by eapply IH|].
    apply bind_Ret in Hn as (a & _ & Hn).
    by rewrite scanner_registry_for_no_map in Hn.
Qed.

Lemma merge_group_no_map isCODEC all sel (st st' : merge_locals) :
  merge_group MaxDocIDValue coll isCODEC all sel st = Ret st' -> st' = st.
Proof.
  unfold merge_group. destruct (toAdvanceCnt sel =? 1).
  - intros Hg. apply bind_Ret in Hg as (i0 & _ & Hg).
    apply bind_Ret in Hg as (tc & _ & Hg).
    by rewrite scanner_registry_for_no_map in Hg.
  - destruct (sameCODEC sel && _).
    + intros Hg. apply bind_Ret in Hg as (ps & ->%merge_participants_no_map & Hg).
      by injection Hg as <-.
    + intros Hg. apply bind_Ret in Hg as (ds & ->%new_decoders_no_map & Hg).
      by injection Hg as <-.
Qed.

Lemma merge_loop_no_map fuel isCODEC flushFreq all ta (st st' : merge_locals) :
  merge_loop terms_cmp MaxDocIDValue fuel coll isCODEC flushFreq all ta st = Ret st' ->
  st' = st.
Proof.
  revert all ta st. induction fuel as [|fuel IH]; intros all ta st Hl; [done|].
  simpl in Hl. apply bind_Ret in Hl as ([[ta1 st1] r] & Hs & Hl).
  unfold merge_step in Hs. apply bind_Ret in Hs as (sel & _ & Hs).
  apply bind_Ret in Hs as (st2 & ->%merge_group_no_map & Hs).
  apply bind_Ret in Hs as (r' & _ & Hs). rewrite flush_hint_id in Hs.
  injection Hs as <- <- <-.
  destruct r' as [all'|]; [by eapply IH|]. by injection Hl as <-.
Qed.

End NoCommit.

(** X11: [merge] reads [map], which [commit] fills.  On a collection
    whose [map] is empty, [merge] appends nothing to the sink, whatever it
    returns; and when exactly one candidate is active it reads [map]
    outside its bounds in the first iteration. *)
Theorem merge_needs_commit `{IndexSession Sess} (terms_cmp : str8_t -> str8_t -> Z)
    (MaxDocIDValue : docid_t) (coll : MergeCandidatesCollection) (session : Sess)
    (terms0 : list (str8_t * term_index_ctx)) (flushFreq : N) :
  mcc_map coll = [] ->
  (forall s out,
     merge terms_cmp MaxDocIDValue coll session terms0 flushFreq = Ret (s, out) ->
     out = terms0) /\
  (forall tc,
     merge_head coll = Ret [tc] ->
     merge terms_cmp MaxDocIDValue coll session terms0 flushFreq = Undefined).
Proof.
  intros Hmap. split.
  - intros s out Hm. rewrite merge_unfold in Hm.
    apply bind_Ret in Hm as (all_ & _ & Hm). destruct all_ as [|tc all_].
    + by injection Hm as _ <-.
    + apply bind_Ret in Hm as (st & Hl & Hm). injection Hm as _ <-.
      by apply merge_loop_no_map in Hl as ->.
  - intros tc Hhead. rewrite merge_unfold, Hhead, bind_Ret_l.
    assert (Hwf : Forall wf_entry [tc]).
    { rewrite merge_head_eq in Hhead. destruct (_ && _); [|done].
      injection Hhead as <-. apply active_entries_wf. }
    destruct (select_spec terms_cmp tc [] (replicate (length [tc]) 0) Hwf)
      as (sel & Hsel & _ & Hcnt & Hold & _); [done|].
    change (toAdvanceCnt sel = 1) in Hcnt. simpl in Hold.
    assert (H0 : toAdvance sel !! 0%nat = Some 0) by (by apply (Hold 0)).
    cbn [merge_fuel merge_loop]. unfold merge_step. rewrite Hsel, bind_Ret_l.
    unfold merge_group. rewrite Hcnt. change (1 =? 1) with true. cbv iota.
    unfold array_get. change (N.to_nat 0) with 0%nat.
    rewrite H0, defined_Some, bind_Ret_l.
    change ([tc] !! N.to_nat 0) with (Some tc). rewrite defined_Some, bind_Ret_l.
    by rewrite scanner_registry_for_no_map.
Qed.

Lemma merge_needs_commit_witness :
  merge lex_cmp ref_MaxDocIDValue
    (collection_of [ref_candidate 1 "A" [("apple", [ref_doc 10 1])] []])
    (ref_session_new "A") [] 0
  = Undefined.
Proof.
  apply (proj2 (merge_needs_commit lex_cmp ref_MaxDocIDValue
                  (collection_of [ref_candidate 1 "A" [("apple", [ref_doc 10 1])] []])
                  (ref_session_new "A") [] 0 eq_refl)
           {| idx := 0;
              candidate := ref_candidate 1 "A" [("apple", [ref_doc 10 1])] [] |}).
  vm_compute. reflexivity.
Defined.

(** ** One segment alone *)

Section Single.
Context {Sess : Type} `{IndexSession Sess}.
Variable terms_cmp : str8_t -> str8_t -> Z.
Variable MaxDocIDValue : docid_t.
Variable coll : MergeCandidatesCollection.

Lemma merge_step_single isCODEC flushFreq tc a p it' ta (st : merge_locals) reg :
  terms (candidate tc) = Some (p :: it') -> ap (candidate tc) = Some a ->
  codec_identifier a = isCODEC ->
  scanner_registry_for coll (idx tc) = Ret reg -> registry_empty reg = true ->
  (0 < length ta)%nat ->
  merge_step terms_cmp MaxDocIDValue coll isCODEC flushFreq [tc] ta st =
  Ret (<[0%nat := 0]> ta, copy_term a p st,
       if done it' then None else Some [advance_candidate tc it']).
Proof.
  intros Hterms Hap Hcodec Hreg Hempty Hta.
  assert (Hcur : candidate_cur tc = Ret p).
  { unfold candidate_cur. by rewrite Hterms. }
  assert (Hap' : candidate_ap tc = Ret a).
  { unfold candidate_ap. by rewrite Hap. }
  assert (Hs : array_set ta 0 0 = Ret (<[0%nat := 0]> ta)).
  { apply array_set_Ret. split; [simpl; lia|done]. }
  assert (H0 : array_get (<[0%nat := 0]> ta) 0 = Ret 0).
  { apply array_get_Ret. by apply list_lookup_insert_eq. }
  unfold merge_step, select.
  change (array_get [tc] 0) with (Ret tc).
  rewrite bind_Ret_l, Hcur, bind_Ret_l, Hap', bind_Ret_l, Hs, bind_Ret_l.
  cbn [drop select_loop mret outcome_ret]. rewrite bind_Ret_l.
  unfold merge_group.
  cbn [toAdvanceCnt toAdvance selected codec sameCODEC].
  change (1 =? 1) with true. cbv iota.
  rewrite H0, bind_Ret_l. change (array_get [tc] 0) with (Ret tc).
  rewrite bind_Ret_l, Hreg, bind_Ret_l, Hcodec, String.eqb_refl, Hempty.
  cbn [andb]. cbv iota.
  assert (Hadv : advance_terms (N.to_nat (dec8 1)) (<[0%nat := 0]> ta) [tc]
                 = Ret (if done it' then None else Some [advance_candidate tc it'])).
  { change (N.to_nat (dec8 1)) with 0%nat. rewrite advance_terms_unfold.
    rewrite list_lookup_insert_eq by done.
    rewrite defined_Some, bind_Ret_l. change (array_get [tc] 0) with (Ret tc).
    rewrite bind_Ret_l, Hterms, defined_Some, bind_Ret_l.
    destruct (done it'); [by rewrite decide_True|]. done. }
  unfold copy_term. destruct (documents p.2 =? 0).
  - rewrite bind_Ret_l, flush_hint_id, Hadv. done.
  - rewrite Hap', bind_Ret_l. destruct (append_index_chunk a p.2 (sess st)) as [s chunk0].
    rewrite bind_Ret_l, flush_hint_id, Hadv. done.
Qed.

Lemma merge_loop_single fuel isCODEC flushFreq tc a it ta (st : merge_locals) reg :
  terms (candidate tc) = Some it -> it <> [] -> ap (candidate tc) = Some a ->
  codec_identifier a = isCODEC ->
  scanner_registry_for coll (idx tc) = Ret reg -> registry_empty reg = true ->
  (0 < length ta)%nat -> (length it <= fuel)%nat ->
  merge_loop terms_cmp MaxDocIDValue fuel coll isCODEC flushFreq [tc] ta st =
  Ret (copy_terms a it st).
Proof.
  revert tc it ta st.
  induction fuel as [|fuel IH]; intros tc it ta st Hterms Hne Hap Hcodec Hreg Hempty Hta Hfuel.
  { destruct it; [done|simpl in Hfuel; lia]. }
  destruct it as [|p it']; [done|]. simpl in Hfuel.
  cbn [merge_loop].
  rewrite (merge_step_single isCODEC flushFreq tc a p it' ta st reg) by done.
  rewrite bind_Ret_l.
  change (copy_terms a (p :: it') st) with (copy_terms a it' (copy_term a p st)).
  destruct it' as [|q it'']; [done|]. cbn [done].
  apply (IH (advance_candidate tc (q :: it'')) (q :: it'')); try done.
  - by rewrite length_insert.
  - simpl in *. lia.
Qed.

End Single.

Lemma copy_terms_terms_out `{IndexSession Sess} (a : AccessProxy)
    (it : IndexSourceTermsView) (st : merge_locals) :
  exists new,
    terms_out (copy_terms a it st) = terms_out st ++ new /\
    (fun e : str8_t * term_index_ctx => (e.1, documents e.2)) <$> new
    = terms_with_documents it.
Proof.
  revert st. induction it as [|p it IH]; intros st.
  - exists []. by rewrite app_nil_r.
  - unfold copy_terms, terms_with_documents. cbn [foldl List.filter].
    fold (copy_terms a it (copy_term a p st)).
    destruct (IH (copy_term a p st)) as (new & -> & Hnew).
    unfold copy_term. destruct (documents p.2 =? 0) eqn:E; cbn [negb].
    + by exists new.
    + destruct (append_index_chunk a p.2 (sess st)) as [s chunk0]. cbn [terms_out].
      eexists (_ :: new). split; [by rewrite <-app_assoc|].
      rewrite !fmap_cons. by rewrite Hnew.
Qed.

(** X12: when exactly one candidate is active, its codec is the output's
    and no candidate before it has a mask, [merge] copies the segment: it
    appends the chunk of each of its terms that has documents, in the
    order of the iterator, and pushes these terms to the sink with the
    numbers of documents they had; no decoder is made and no term is
    compared. *)
Theorem merge_single_segment_copy `{IndexSession Sess}
    (terms_cmp : str8_t -> str8_t -> Z) (MaxDocIDValue : docid_t)
    (coll : MergeCandidatesCollection) (session : Sess)
    (terms0 : list (str8_t * term_index_ctx)) (flushFreq : N)
    (tc : tracked_candidate) (a : AccessProxy) (it : IndexSourceTermsView)
    (reg : masked_documents_registry) :
  merge_head coll = Ret [tc] ->
  terms (candidate tc) = Some it -> ap (candidate tc) = Some a ->
  codec_identifier a = is_codec_identifier session ->
  scanner_registry_for coll (idx tc) = Ret reg -> registry_empty reg = true ->
  merge terms_cmp MaxDocIDValue coll session terms0 flushFreq =
    Ret (sess (copy_terms a it
                 {| sess := new_encoder session; termHitsCapacity := 0;
                    terms_out := terms0 |}),
         terms_out (copy_terms a it
                      {| sess := new_encoder session; termHitsCapacity := 0;
                         terms_out := terms0 |})) /\
  exists new,
    terms_out (copy_terms a it
                 {| sess := new_encoder session; termHitsCapacity := 0;
                    terms_out := terms0 |}) = terms0 ++ new /\
    (fun e : str8_t * term_index_ctx => (e.1, documents e.2)) <$> new
    = terms_with_documents it.
Proof.
  intros Hhead Hterms Hap Hcodec Hreg Hempty. split.
  - rewrite merge_unfold, Hhead, bind_Ret_l.
    assert (Hne : it <> []).
    { rewrite merge_head_eq in Hhead. destruct (_ && _); [|done].
      injection Hhead as Hhead.
      pose proof (active_entries_wf 0 (candidates coll)) as Hwf.
      rewrite Hhead, Forall_singleton in Hwf.
      destruct (wf_entry_inv tc Hwf) as (p & it1 & _ & Ht & _). congruence. }
    rewrite (merge_loop_single terms_cmp MaxDocIDValue coll _ _ flushFreq tc a it _ _ reg);
      try done.
    + simpl. lia.
    + unfold merge_fuel. cbn [map sum_list]. unfold terms_left. rewrite Hterms.
      unfold id. lia.
  - apply (copy_terms_terms_out a it
             {| sess := new_encoder session; termHitsCapacity := 0;
                terms_out := terms0 |}).
Qed.

(** A segment with three terms, one of them without documents, behind a
    candidate that has neither postings nor a mask. *)
Lemma merge_single_segment_copy_witness :
  exists s out,
    merge lex_cmp ref_MaxDocIDValue
      (commit (collection_of
         [ref_mask_only 2 [];
          ref_candidate 1 "A"
            [("apple", [ref_doc 10 1]); ("bare", []); ("fig", [ref_doc 30 1])] []]))
      (ref_session_new "A") [] 0
    = Ret (s, out) /\
    (fun e : str8_t * term_index_ctx => (e.1, documents e.2)) <$> out
    = [("apple", 1); ("fig", 1)].
Proof.
  destruct (merge_single_segment_copy lex_cmp ref_MaxDocIDValue
              (commit (collection_of
                 [ref_mask_only 2 [];
                  ref_candidate 1 "A"
                    [("apple", [ref_doc 10 1]); ("bare", []); ("fig", [ref_doc 30 1])]
                    []]))
              (ref_session_new "A") [] 0
              {| idx := 1;
                 candidate := ref_candidate 1 "A"
                   [("apple", [ref_doc 10 1]); ("bare", []); ("fig", [ref_doc 30 1])] [] |}
              (ref_ap "A" [[ref_doc 10 1]; []; [ref_doc 30 1]])
              [("apple", {| documents := 1; chunk := (0, 0) |});
               ("bare", {| documents := 0; chunk := (1, 0) |});
               ("fig", {| documents := 1; chunk := (2, 0) |})]
              [])
    as [Hrun (new & Hout & Hnew)]; try (vm_compute; reflexivity).
  eexists _, _. split; [exact Hrun|]. rewrite Hout, app_nil_l, Hnew. reflexivity.
Defined.

(** ** [consider_tracked_sources]: order of the tracked list, and what is deleted *)

(** Two ascending sequences of the same generations are the same
    sequence. *)
Lemma sorted_le_unique (l l' : list N) :
  StronglySorted N.le l -> StronglySorted N.le l' -> l ≡ₚ l' -> l = l'.
Proof.
  intros Hs. revert l'. induction Hs as [|a l Hs IH Ha]; intros l' Hs' Hp.
  - by apply Permutation_nil_l in Hp.
  - destruct Hs' as [|b l' Hs' Hb].
    + by apply Permutation_nil_r in Hp.
    + assert (a = b) as <-.
      { assert (Hin : a ∈ b :: l') by (rewrite <-Hp; by left).
        assert (Hin' : b ∈ a :: l) by (rewrite Hp; by left).
        apply elem_of_cons in Hin as [?|Hin]; [done|].
        apply elem_of_cons in Hin' as [?|Hin']; [done|].
        rewrite List.Forall_forall in Ha, Hb.
        apply list_elem_of_In, Hb in Hin. apply list_elem_of_In, Ha in Hin'. lia. }
      f_equal. apply IH; [done|]. by apply Permutation_cons_inv in Hp.
Qed.

Lemma sort_asc_unique (l l' : list N) : l ≡ₚ l' -> sort_asc l = sort_asc l'.
Proof.
  intros Hp. apply sorted_le_unique; [apply sort_asc_sorted..|].
  by rewrite !sort_asc_perm.
Qed.

Lemma consider_tracked_sources_classify coll ts :
  N.of_nat (length ts) <= UINT32_MAX ->
  consider_tracked_sources coll ts
  = Ret (classify (candidatesGens_of (candidates coll)) false (sort_asc ts)).
Proof.
  intros Hcnt.
  assert (Hlen : length (sort_asc ts) = length ts)
    by apply Permutation_length, sort_asc_perm.
  unfold consider_tracked_sources. rewrite <-Hlen.
  rewrite (tracked_loop_spec _ _ _ 0 UINT32_MAX false []); [done|lia|lia|lia|done|done].
Qed.

(** X13: the classification does not depend on the order in which the
    caller lists the tracked generations: the function sorts its own copy
    of the list.  This holds for a list of any length. *)
Theorem consider_tracked_sources_order_independent
    (coll : MergeCandidatesCollection) (trackedSources trackedSources' : list N) :
  trackedSources ≡ₚ trackedSources' ->
  consider_tracked_sources coll trackedSources =
  consider_tracked_sources coll trackedSources'.
Proof.
  intros Hp. unfold consider_tracked_sources.
  by rewrite (sort_asc_unique _ _ Hp), (Permutation_length Hp).
Qed.

Lemma consider_tracked_sources_order_independent_witness :
  consider_tracked_sources
    (collection_of [ref_candidate 5 "A" [] []; ref_candidate 3 "A" [] []]) [7; 3; 5]
  = consider_tracked_sources
      (collection_of [ref_candidate 5 "A" [] []; ref_candidate 3 "A" [] []]) [3; 7; 5].
Proof.
  apply consider_tracked_sources_order_independent. apply Permutation_swap.
Defined.

(** X14: what [consider_tracked_sources] deletes is an initial stretch of
    the tracked generations: when a generation is classified Delete, every
    entry before it in the result, and every tracked generation not above
    it, is classified Delete as well.  So a tracked source that is no
    candidate protects every newer one from deletion. *)
Theorem consider_tracked_sources_deletes_oldest
    (coll : MergeCandidatesCollection) (trackedSources : list N) :
  N.of_nat (length trackedSources) <= UINT32_MAX ->
  exists res,
    consider_tracked_sources coll trackedSources = Ret res /\
    (forall (i j : nat) g g' r,
       res !! i = Some (g, IndexSourceRetention.Delete) -> (j <= i)%nat ->
       res !! j = Some (g', r) -> r = IndexSourceRetention.Delete) /\
    (forall g g' r,
       (g, IndexSourceRetention.Delete) ∈ res -> (g', r) ∈ res -> g' <= g ->
       r = IndexSourceRetention.Delete).
Proof.
  intros Hcnt. eexists. split; [by apply consider_tracked_sources_classify|].
  set (gens := candidatesGens_of (candidates coll)).
  set (l := sort_asc trackedSources).
  assert (Hdel : forall (k : nat) g r, classify gens false l !! k = Some (g, r) ->
            (r = IndexSourceRetention.Delete <->
             g ∈ gens /\ existsb (fun g' => negb (bool_decide (g' ∈ gens))) (take k l) = false)).
  { intros k g r Hk. rewrite classify_lookup in Hk.
    destruct (l !! k) as [g0|]; [|done]. injection Hk as -> <-. simpl.
    destruct (bool_decide (g ∈ gens)) eqn:Eb.
    - apply bool_decide_eq_true in Eb. destruct (existsb _ _); split; try done.
      by intros [_ ?].
    - apply bool_decide_eq_false in Eb. split; [done|]. by intros [? _]. }
  assert (Hfst : forall (k : nat) g r, classify gens false l !! k = Some (g, r) ->
            l !! k = Some g).
  { intros k g r Hk. rewrite <-(classify_fst gens false l), list_lookup_fmap, Hk. done. }
  assert (Hno : forall (i j : nat) g', l !! j = Some g' -> (j < i)%nat ->
            existsb (fun g' => negb (bool_decide (g' ∈ gens))) (take i l) = false ->
            g' ∈ gens /\
            existsb (fun g' => negb (bool_decide (g' ∈ gens))) (take j l) = false).
  { intros i j g' Hj Hji Hex.
    assert (Hall : forall x, x ∈ take i l -> x ∈ gens).
    { intros x Hx. destruct (decide (x ∈ gens)) as [|Hn]; [done|].
      assert (existsb (fun g' => negb (bool_decide (g' ∈ gens))) (take i l) = true);
        [|congruence].
      apply existsb_exists. exists x. split; [by apply list_elem_of_In|].
      by apply negb_true_iff, bool_decide_eq_false. }
    split.
    - apply Hall. apply list_elem_of_lookup. exists j. by apply lookup_take_Some.
    - destruct (existsb _ (take j l)) eqn:Ej; [|done].
      apply existsb_exists in Ej as (x & Hx & Hn).
      apply negb_true_iff, bool_decide_eq_false in Hn. destruct Hn. apply Hall.
      apply list_elem_of_In in Hx. apply list_elem_of_lookup in Hx as [k Hk].
      apply lookup_take_Some in Hk as [Hk Hkj].
      apply list_elem_of_lookup. exists k. apply lookup_take_Some. split; [done|lia]. }
  assert (Hprefix : forall (i j : nat) g g' r,
            classify gens false l !! i = Some (g, IndexSourceRetention.Delete) ->
            (j <= i)%nat -> classify gens false l !! j = Some (g', r) ->
            r = IndexSourceRetention.Delete).
  { intros i j g g' r Hi Hji Hj.
    destruct (decide (j = i)) as [->|Hne]; [congruence|].
    apply (Hdel j g' r Hj). apply (Hno i); [by eapply Hfst|lia|].
    by apply (Hdel i g _ Hi). }
  split; [exact Hprefix|].
  intros g g' r Hg Hg' Hle.
  apply list_elem_of_lookup in Hg as [i Hi]. apply list_elem_of_lookup in Hg' as [j Hj].
  destruct (decide (j <= i)%nat) as [Hji|Hji]; [by eapply Hprefix|].
  (* [j] comes after [i]: the entries from [i] to [j] all hold [g] *)
  assert (Hij : (i < j)%nat) by lia.
  pose proof (proj1 (Hdel i g _ Hi) eq_refl) as [Hgin Hex].
  assert (Hsame : forall (k : nat) x, (i <= k)%nat -> (k <= j)%nat -> l !! k = Some x -> x = g).
  { intros k x Hik Hkj Hk.
    assert (g <= x).
    { destruct (decide (k = i)) as [->|]; [apply Hfst in Hi; simplify_eq; lia|].
      apply (StronglySorted_le_lookup l i k); [apply sort_asc_sorted|lia|by eapply Hfst|done]. }
    assert (x <= g'); [|lia].
    destruct (decide (k = j)) as [->|]; [apply Hfst in Hj; simplify_eq; lia|].
    apply (StronglySorted_le_lookup l k j); [apply sort_asc_sorted|lia|done|by eapply Hfst]. }
  apply (Hdel j g' r Hj). split.
  - rewrite (Hsame j g'); [done|lia|lia|by eapply Hfst].
  - destruct (existsb _ (take j l)) eqn:Ej; [|done].
    apply existsb_exists in Ej as (x & Hx & Hn).
    apply negb_true_iff, bool_decide_eq_false in Hn. destruct Hn.
    apply list_elem_of_In in Hx. apply list_elem_of_lookup in Hx as [k Hk].
    apply lookup_take_Some in Hk as [Hk Hkj].
    destruct (decide (k < i)%nat) as [Hki|Hki].
    + by apply (Hno i k x Hk Hki Hex).
    + rewrite (Hsame k x); [done|lia|lia|done].
Qed.

Lemma consider_tracked_sources_deletes_oldest_witness :
  exists res,
    consider_tracked_sources
      (collection_of [ref_candidate 5 "A" [] []; ref_candidate 3 "A" [] [];
                      ref_candidate 2 "A" [] []])
      [5; 3; 4; 2] = Ret res /\
    res !! 1%nat = Some (3, IndexSourceRetention.Delete) /\
    res !! 3%nat = Some (5, IndexSourceRetention.RetainDocumentIDsUpdates) /\
    (forall g' r, res !! 0%nat = Some (g', r) -> r = IndexSourceRetention.Delete).
Proof.
  destruct (consider_tracked_sources_deletes_oldest
              (collection_of [ref_candidate 5 "A" [] []; ref_candidate 3 "A" [] [];
                              ref_candidate 2 "A" [] []])
              [5; 3; 4; 2]) as (res & Hres & Hpre & _).
  { vm_compute. discriminate. }
  exists res. split; [exact Hres|].
  vm_compute in Hres. injection Hres as <-.
  split_and!; [reflexivity..|].
  intros g' r H0. by apply (Hpre 1%nat 0%nat 3 g' r eq_refl ltac:(lia)).
Defined.

(** ** [term_hits::set_freq] *)

Lemma set_freq_small (n : N) (h : term_hits) :
  n <= 65503 -> allCapacity h < 65536 -> buffer_slots h = allCapacity h ->
  th_freq (set_freq n h) = n /\
  n <= allCapacity (set_freq n h) /\
  allCapacity h <= allCapacity (set_freq n h) /\
  allCapacity (set_freq n h) < 65536 /\
  buffer_slots (set_freq n h) = allCapacity (set_freq n h) /\
  (allCapacity (set_freq n h) = allCapacity h \/ allCapacity (set_freq n h) = n + 32) /\
  docSeq (set_freq n h) = docSeq h.
Proof.
  intros Hn Hcap Hbuf. unfold set_freq.
  destruct (N.ltb_spec (allCapacity h) n); cbn [th_freq allCapacity docSeq].
  - unfold buffer_slots. cbn [th_all default]. rewrite N.mod_small by lia.
    split_and!; try done; try lia; by right.
  - unfold buffer_slots in *. cbn [th_all]. split_and!; try done; try lia; by left.
Qed.

(** X15: the buffer of a [term_hits] over a sequence of [set_freq] calls
    that each ask for at most 65503 hits: after the calls [freq] is the
    last request, the buffer has [allCapacity] slots, every request made
    fits in it, the capacity has not shrunk, and it is the capacity before
    the calls or 32 more than one of the requests. *)
Theorem set_freq_capacity (reqs : list N) (h : term_hits) :
  Forall (fun n => n <= 65503) reqs ->
  allCapacity h < 65536 -> buffer_slots h = allCapacity h ->
  th_freq (set_freqs reqs h) = default (th_freq h) (last reqs) /\
  buffer_slots (set_freqs reqs h) = allCapacity (set_freqs reqs h) /\
  Forall (fun n => n <= allCapacity (set_freqs reqs h)) reqs /\
  allCapacity h <= allCapacity (set_freqs reqs h) /\
  (allCapacity (set_freqs reqs h) = allCapacity h \/
   exists n, n ∈ reqs /\ allCapacity (set_freqs reqs h) = n + 32) /\
  docSeq (set_freqs reqs h) = docSeq h.
Proof.
  intros Hreqs. revert h. induction Hreqs as [|n reqs Hn _ IH]; intros h Hcap Hbuf.
  - split_and!; try done. by left.
  - destruct (set_freq_small n h Hn Hcap Hbuf)
      as (Hf & Hfit & Hmono & Hcap' & Hbuf' & Hor & Hseq).
    destruct (IH (set_freq n h) Hcap' Hbuf') as (Hf1 & Hbuf1 & Hfit1 & Hmono1 & Hor1 & Hseq1).
    change (set_freqs (n :: reqs) h) with (set_freqs reqs (set_freq n h)).
    split_and!.
    + rewrite Hf1, Hf. destruct reqs as [|m reqs']; [done|].
      change (last (n :: m :: reqs')) with (last (m :: reqs')).
      destruct (last (m :: reqs')) eqn:E; [done|]. by apply last_None in E.
    + done.
    + constructor; [lia|done].
    + lia.
    + destruct Hor1 as [E|(m & Hm & E)].
      * rewrite E. destruct Hor as [E'|E']; [by left|].
        right. exists n. split; [by left|done].
      * right. exists m. split; [by right|done].
    + congruence.
Qed.

Lemma set_freq_capacity_witness :
  th_freq (set_freqs [3; 40; 7] (term_hits_new 0 0)) = 7 /\
  allCapacity (set_freqs [3; 40; 7] (term_hits_new 0 0)) = 72.
Proof.
  destruct (set_freq_capacity [3; 40; 7] (term_hits_new 0 0))
    as (Hf & _); [repeat constructor; lia|vm_compute; reflexivity|reflexivity|].
  split; [exact Hf|vm_compute; reflexivity].
Defined.

(** X16: after [set_freq] the buffer has room for [freq] hits exactly when
    the request is at most 65503 or at most the capacity there was: a
    larger request makes [newFreq + 32] wrap in the 16 bits of
    [allCapacity], and the new buffer is then smaller than the request by
    65504 slots or more. *)
Theorem set_freq_fits (newFreq : N) (h : term_hits) :
  allCapacity h < 65536 -> buffer_slots h = allCapacity h ->
  (th_freq (set_freq newFreq h) <= buffer_slots (set_freq newFreq h)
   <-> newFreq <= 65503 \/ newFreq <= allCapacity h) /\
  (65503 < newFreq -> allCapacity h < newFreq ->
   buffer_slots (set_freq newFreq h) + 65504 <= th_freq (set_freq newFreq h)).
Proof.
  intros Hcap Hbuf. unfold set_freq.
  destruct (N.ltb_spec (allCapacity h) newFreq) as [Hlt|Hge];
    unfold buffer_slots in *; cbn [th_freq th_all allCapacity].
  - change (default 0 (Some ?x)) with x.
    assert (Hmod : (newFreq + 32) mod 65536 < 65536) by (by apply N.mod_lt).
    destruct (N.le_gt_cases newFreq 65503) as [Hs|Hl].
    + rewrite N.mod_small by lia. split; [|lia]. split; [by left|lia].
    + assert (Hw : (newFreq + 32) mod 65536 + 65504 <= newFreq).
      { pose proof (N.Div0.div_mod (newFreq + 32) 65536) as Hdm.
        assert (1 <= (newFreq + 32) / 65536) by (apply N.div_le_lower_bound; lia).
        generalize dependent ((newFreq + 32) mod 65536).
        generalize dependent ((newFreq + 32) / 65536). intros; lia. }
      split; [|done]. split; [lia|]. intros [?|?]; lia.
  - split; [|lia]. rewrite Hbuf. split; [by right|lia].
Qed.

Lemma set_freq_fits_witness :
  buffer_slots (set_freq 65535 (term_hits_new 0 0)) + 65504
  <= th_freq (set_freq 65535 (term_hits_new 0 0)).
Proof.
  apply (proj2 (set_freq_fits 65535 (term_hits_new 0 0) ltac:(vm_compute; reflexivity)
                  eq_refl)); vm_compute; reflexivity.
Defined.

(** ** [scanner_registry_for] over the positions of a committed collection *)

(** X17: on a committed collection [scanner_registry_for] returns for the
    positions of the candidates and reads [map] outside its bounds for any
    other; the registry of the first (newest) candidate is empty, and the
    registry of a position begins with the registry of every position
    before it, so a document masked for a candidate is masked for every
    older one. *)
Theorem scanner_registry_for_positions (coll : MergeCandidatesCollection) :
  (forall i, N.of_nat (length (candidates coll)) <= i ->
     scanner_registry_for (commit coll) i = Undefined) /\
  (candidates coll <> [] -> scanner_registry_for (commit coll) 0 = Ret []) /\
  (forall i j, i <= j -> j < N.of_nat (length (candidates coll)) ->
     exists reg more,
       scanner_registry_for (commit coll) i = Ret reg /\
       scanner_registry_for (commit coll) j = Ret (reg ++ more) /\
       forall d, registry_test reg d = true -> registry_test (reg ++ more) d = true).
Proof.
  assert (Hlen : length (sort_desc (candidates coll)) = length (candidates coll))
    by apply Permutation_length, sort_desc_perm.
  split_and!.
  - intros i Hi. rewrite scanner_registry_for_commit. case_decide; [lia|done].
  - intros Hne. rewrite scanner_registry_for_commit. case_decide as Hd; [done|].
    destruct (candidates coll); [done|]. simpl in *. lia.
  - intros i j Hij Hj. rewrite !scanner_registry_for_commit.
    set (cs := sort_desc (candidates coll)) in *.
    exists (nonempty_masks (take (N.to_nat i) cs)),
           (nonempty_masks (take (N.to_nat j - N.to_nat i) (drop (N.to_nat i) cs))).
    rewrite !decide_True by lia. split_and!; [done| |].
    + f_equal. rewrite <-nonempty_masks_app. f_equal.
      rewrite <-(take_drop (N.to_nat i) (take (N.to_nat j) cs)).
      rewrite take_take, skipn_firstn_comm. f_equal. f_equal. lia.
    + intros d. unfold registry_test. rewrite existsb_app. by intros ->.
Qed.

(** ** The terms [merge] appends are terms of the candidates *)

Lemma scan_term terms_cmp i rest W m :
  (scan terms_cmp i rest W m).2 = m \/
  exists tc, tc ∈ rest /\ cur_term tc = (scan terms_cmp i rest W m).2.
Proof.
  revert i W m. induction rest as [|tc rest IH]; intros i W m; [by left|].
  simpl. destruct (_ <? _)%Z; [|destruct (_ =? _)%Z].
  - destruct (IH (i + 1) [i] (cur_term tc)) as [E|(x & Hx & E)].
    + right. exists tc. split; [by left|by rewrite E].
    + right. exists x. split; [by right|done].
  - destruct (IH (i + 1) (W ++ [i]) m) as [E|(x & Hx & E)]; [by left|].
    right. exists x. split; [by right|done].
  - destruct (IH (i + 1) W m) as [E|(x & Hx & E)]; [by left|].
    right. exists x. split; [by right|done].
Qed.

Lemma selected_term_elem terms_cmp all :
  all <> [] -> exists tc, tc ∈ all /\ cur_term tc = selected_term terms_cmp all.
Proof.
  destruct all as [|tc0 rest]; [done|]. intros _. unfold selected_term.
  destruct (scan_term terms_cmp 1 rest [0] (cur_term tc0)) as [E|(x & Hx & E)].
  - exists tc0. split; [by left|by rewrite E].
  - exists x. split; [by right|done].
Qed.

Lemma cur_term_remaining tc : wf_entry tc -> cur_term tc ∈ remaining_terms tc.
Proof.
  intros (p & it & a & Hit & _ & _ & _ & Hcur)%wf_entry_inv.
  unfold remaining_terms. rewrite Hit, Hcur, fmap_cons. by left.
Qed.

Lemma advance_entry_terms_remaining (P : str8_t -> Prop) tc :
  Forall P (remaining_terms tc) ->
  Forall (fun tc' => Forall P (remaining_terms tc')) (advance_entry_terms tc).
Proof.
  unfold advance_entry_terms, remaining_terms. intros HP.
  destruct (terms (candidate tc)) as [[|p it']|]; [done| |done].
  destruct (done it'); [done|]. constructor; [|done].
  simpl. rewrite fmap_cons in HP. by apply Forall_cons in HP as [_ ?].
Qed.

Section Offered.
Context {Sess : Type} `{IndexSession Sess}.
Variable terms_cmp : str8_t -> str8_t -> Z.
Variable MaxDocIDValue : docid_t.
Variable coll : MergeCandidatesCollection.
Variable P : str8_t -> Prop.

Lemma merge_loop_offered fuel isCODEC flushFreq all ta (st st' : merge_locals)
    (terms0 new : list (str8_t * term_index_ctx)) :
  all <> [] -> Forall wf_entry all -> Forall (has_registry coll) all ->
  Forall (fun tc => Forall P (remaining_terms tc)) all -> (length all <= length ta)%nat ->
  terms_out st = terms0 ++ new -> Forall P new.*1 ->
  merge_loop terms_cmp MaxDocIDValue fuel coll isCODEC flushFreq all ta st = Ret st' ->
  exists new', terms_out st' = terms0 ++ new' /\ Forall P new'.*1.
Proof.
  revert all ta st new.
  induction fuel as [|fuel IH]; intros all ta st new Hall Hwf Hreg Hrem Hlen Hout Hnew Hrun;
    [done|].
  simpl in Hrun.
  destruct (merge_step_spec terms_cmp MaxDocIDValue coll isCODEC flushFreq all ta st
              Hall Hwf Hreg Hlen) as [Hab|(ta' & st1 & Hstep & Hta & Hout1)];
    [by rewrite Hab in Hrun|].
  rewrite Hstep, bind_Ret_l in Hrun.
  set (all' := advance_at 0 (advanced_positions terms_cmp all) all) in *.
  assert (Hsel : P (selected_term terms_cmp all)).
  { destruct (selected_term_elem terms_cmp all Hall) as (tc & Hin & <-).
    rewrite Forall_forall in Hrem, Hwf.
    specialize (Hrem tc Hin). rewrite Forall_forall in Hrem.
    by apply Hrem, cur_term_remaining, Hwf. }
  assert (Hnew1 : exists new1, terms_out st1 = terms0 ++ new1 /\ Forall P new1.*1).
  { destruct Hout1 as [Hout1|(_ & tctx & Hout1)].
    - exists new. split; [congruence|done].
    - exists (new ++ [(selected_term terms_cmp all, tctx)]). split.
      + by rewrite Hout1, Hout, <-app_assoc.
      + rewrite fmap_app. apply Forall_app. split; [done|]. by constructor. }
  destruct Hnew1 as (new1 & Hout1' & Hnew1).
  assert (Hwf' : Forall wf_entry all')
    by (apply advance_at_Forall; [apply advance_entry_terms_wf|done]).
  assert (Hreg' : Forall (has_registry coll) all')
    by (apply advance_at_Forall; [apply has_registry_advance|done]).
  assert (Hrem' : Forall (fun tc => Forall P (remaining_terms tc)) all')
    by (apply advance_at_Forall; [apply advance_entry_terms_remaining|done]).
  pose proof (advance_at_length 0 (advanced_positions terms_cmp all) all) as Hl.
  fold all' in Hl.
  destruct all' as [|tc all''] eqn:Ea; cbn [result_of] in Hrun.
  - injection Hrun as <-. by exists new1.
  - eapply (IH (tc :: all'') ta' st1 new1); try done. lia.
Qed.

End Offered.

(** X18: [merge] appends no term of its own making: on a committed
    collection every term it appends to the sink is a term of the iterator
    of one of the candidates that has a postings accessor, whatever the
    order of the iterators and the number of candidates. *)
Theorem merge_terms_offered `{IndexSession Sess} (terms_cmp : str8_t -> str8_t -> Z)
    (MaxDocIDValue : docid_t) (coll : MergeCandidatesCollection) (session s : Sess)
    (terms0 out : list (str8_t * term_index_ctx)) (flushFreq : N) :
  merge terms_cmp MaxDocIDValue (commit coll) session terms0 flushFreq = Ret (s, out) ->
  exists new, out = terms0 ++ new /\ Forall (offered coll) new.*1.
Proof.
  intros Hrun. rewrite merge_unfold, merge_head_eq in Hrun.
  destruct (_ && _); [|done]. rewrite bind_Ret_l in Hrun.
  pose proof (active_entries_wf 0 (candidates (commit coll))) as Hwf.
  pose proof (active_entries_has_registry coll) as Hreg.
  assert (Hrem : Forall (fun tc => Forall (offered coll) (remaining_terms tc))
                   (active_entries 0 (candidates (commit coll)))).
  { apply Forall_forall. intros tc Hin. apply Forall_forall. intros t Ht.
    apply active_entries_idx in Hin as (Hc & _ & Hact).
    apply list_elem_of_lookup_2 in Hc. rewrite commit_candidates, sort_desc_perm in Hc.
    unfold remaining_terms in Ht. unfold is_active in Hact.
    destruct (terms (candidate tc)) as [it|] eqn:Eit; [|done].
    destruct (ap (candidate tc)) as [a|] eqn:Ea; [|done].
    by exists (candidate tc), it, a. }
  destruct (active_entries 0 (candidates (commit coll))) as [|tc all_] eqn:Eall.
  - injection Hrun as _ <-. exists []. by rewrite app_nil_r.
  - apply bind_Ret in Hrun as (st & Hloop & Hrun). injection Hrun as _ <-.
    rewrite <-Eall in Hloop, Hwf, Hreg, Hrem.
    apply (merge_loop_offered terms_cmp MaxDocIDValue (commit coll) (offered coll)
             _ _ _ _ _ _ _ terms0 []) in Hloop;
      [done|by rewrite Eall|done|done|done|by rewrite length_replicate
      |by rewrite app_nil_r|done].
Qed.

Lemma merge_terms_offered_witness :
  exists new,
    [("apple", {| documents := 1; chunk := (0, 1) |});
     ("fig", {| documents := 1; chunk := (1, 1) |});
     ("pear", {| documents := 1; chunk := (2, 1) |})] = [] ++ new /\
    Forall (offered (collection_of
       [ref_candidate 1 "A" [("apple", [ref_doc 10 1]); ("fig", [ref_doc 30 1])] [];
        ref_candidate 2 "B" [("apple", [ref_doc 10 2]); ("pear", [ref_doc 20 2])] []]))
      new.*1.
Proof.
  eapply (merge_terms_offered lex_cmp ref_MaxDocIDValue
            (collection_of
               [ref_candidate 1 "A" [("apple", [ref_doc 10 1]); ("fig", [ref_doc 30 1])] [];
                ref_candidate 2 "B" [("apple", [ref_doc 10 2]); ("pear", [ref_doc 20 2])] []])
            (ref_session_new "A") _ [] _ 0).
  vm_compute. reflexivity.
Defined.

(** ** The scenarios of the specification

    Evaluated with the reference collaborators; [ref_doc d g] is the
    document [d] as the segment of generation [g] holds it.  E1 and E2 go
    through the codec-native merge of the reference session, E4 through
    the document-level merge over decoders. *)

Example scenario_E1 :
  ref_merge "A"
    [ref_candidate 2 "A" [("apple", [ref_doc 10 2; ref_doc 20 2])] [];
     ref_candidate 1 "A" [("apple", [ref_doc 10 1; ref_doc 30 1])] []] 0
  = Ret ([("apple", {| documents := 3; chunk := (0, 3) |})],
         [[ref_doc 10 2; ref_doc 20 2; ref_doc 30 1]]).
Proof. vm_compute. reflexivity. Qed.

Example scenario_E2 :
  ref_merge "A"
    [ref_candidate 2 "A" [("apple", [ref_doc 10 2; ref_doc 20 2])] [20];
     ref_candidate 1 "A" [("apple", [ref_doc 10 1; ref_doc 30 1])] []] 0
  = Ret ([("apple", {| documents := 3; chunk := (0, 3) |})],
         [[ref_doc 10 2; ref_doc 20 2; ref_doc 30 1]]).
Proof. vm_compute. reflexivity. Qed.

Example scenario_E3 :
  ref_merge "A"
    [ref_candidate 2 "A" [("b", [ref_doc 1 2]); ("d", [ref_doc 2 2])] [];
     ref_candidate 1 "A"
       [("a", [ref_doc 3 1]); ("c", [ref_doc 4 1]); ("d", [ref_doc 5 1])] []] 0
  = Ret ([("a", {| documents := 1; chunk := (0, 1) |});
          ("b", {| documents := 1; chunk := (1, 1) |});
          ("c", {| documents := 1; chunk := (2, 1) |});
          ("d", {| documents := 2; chunk := (3, 2) |})],
         [[ref_doc 3 1]; [ref_doc 1 2]; [ref_doc 4 1]; [ref_doc 2 2; ref_doc 5 1]]).
Proof. vm_compute. reflexivity. Qed.

Example scenario_E4 :
  ref_merge "A"
    [ref_candidate 3 "A" [("x", [ref_doc 5 3])] [];
     ref_candidate 2 "B" [("x", [ref_doc 5 2; ref_doc 7 2])] [];
     ref_candidate 1 "C" [("x", [ref_doc 7 1; ref_doc 9 1])] []] 0
  = Ret ([("x", {| documents := 3; chunk := (0, 3) |})],
         [[ref_doc 5 3; ref_doc 7 2; ref_doc 9 1]]).
Proof. vm_compute. reflexivity. Qed.

Example scenario_E5 :
  ref_merge "A" [ref_candidate 1 "A" [("t", [])] []] 0 = Ret ([], []) /\
  ref_merge "B" [ref_candidate 1 "A" [("t", [])] []] 0 = Ret ([], []).
Proof. split; vm_compute; reflexivity. Qed.

Example scenario_E6 :
  consider_tracked_sources
    (collection_of [ref_candidate 5 "A" [] []; ref_candidate 3 "A" [] []])
    [2; 3; 4; 5; 7]
  = Ret [(2, IndexSourceRetention.RetainAll);
         (3, IndexSourceRetention.RetainDocumentIDsUpdates);
         (4, IndexSourceRetention.RetainAll);
         (5, IndexSourceRetention.RetainDocumentIDsUpdates);
         (7, IndexSourceRetention.RetainAll)].
Proof. vm_compute. reflexivity. Qed.
